(** * node-rag-ollama: the text pipeline and the index lifecycle of rag.js

    A shallow embedding of [preprocessText], [splitIntoChunks],
    [getEmbedding], [waitForIndex], [addDocument], [addDocuments],
    [clearIndex], [createUserIndex] and [deleteUserIndex].

    JavaScript strings are sequences of UTF-16 code units; a code unit is
    an [N].  The regular expressions of the source carry no [u] flag, so
    they work on code units, and [.length] counts code units.  What the
    source writes to the console is left out: it is never read back. *)

From Stdlib Require Import ZArith NArith QArith List Bool Lia Ascii String.
From Stdlib Require Import Decimal DecimalZ.
From stdpp Require Import base option list gmap.

Set Warnings "-register-all".

Open Scope N_scope.

(** ** JavaScript strings *)

Abbreviation jsstring := (list N).

(** A literal of the source, code unit by code unit. *)
Definition str (s : string) : jsstring :=
  List.map N_of_ascii (list_ascii_of_string s).

(** [.length] *)
Definition jslength (s : jsstring) : Z := Z.of_nat (List.length s).

(** Truthiness of a string: the empty string is falsy. *)
Definition truthy (s : jsstring) : bool :=
  match s with [] => false | _ :: _ => true end.

(** *** Character classes of the regular expressions *)

(** [\s]: WhiteSpace and LineTerminator of ECMAScript. *)
Definition is_space (c : N) : bool :=
  ((9 <=? c) && (c <=? 13)) || (c =? 32) || (c =? 160) || (c =? 5760)
  || ((8192 <=? c) && (c <=? 8202)) || (c =? 8232) || (c =? 8233)
  || (c =? 8239) || (c =? 8287) || (c =? 12288) || (c =? 65279).

(** [[a-z]] *)
Definition is_lower (c : N) : bool := (97 <=? c) && (c <=? 122).

(** [[A-Z]] *)
Definition is_upper (c : N) : bool := (65 <=? c) && (c <=? 90).

(** [[.,!?]] *)
Definition is_punct (c : N) : bool :=
  (c =? 46) || (c =? 44) || (c =? 33) || (c =? 63).

(** [[.!?]] *)
Definition is_delim (c : N) : bool :=
  (c =? 46) || (c =? 33) || (c =? 63).

Definition SP : N := 32.
Definition DOT : N := 46.

(** ** [String.prototype.replace] with a global regular expression *)

(** A pattern tried at the head of the remaining input: on a match, the
    text that replaces the match and the input left after it. *)
Definition matcher := jsstring -> option (jsstring * jsstring).

(** Leftmost matches, left to right, never overlapping: where the pattern
    matches, the replacement is emitted and scanning resumes after the
    match; elsewhere one code unit is copied. *)
Fixpoint replace_fuel (fuel : nat) (m : matcher) (s : jsstring) : jsstring :=
  match fuel with
  | O => s
  | S fuel' =>
      match m s with
      | Some (out, rest) => out ++ replace_fuel fuel' m rest
      | None =>
          match s with
          | [] => []
          | c :: s' => c :: replace_fuel fuel' m s'
          end
      end
  end.

Definition replace_all (m : matcher) (s : jsstring) : jsstring :=
  replace_fuel (S (List.length s)) m s.

(** The longest run of [\s] at the head is dropped. *)
Fixpoint skip_ws (s : jsstring) : jsstring :=
  match s with
  | [] => []
  | c :: s' => if is_space c then skip_ws s' else s
  end.

(** [/([a-z])([A-Z])/g] replaced by ['$1 $2'] *)
Definition re_camel : matcher := fun s =>
  match s with
  | a :: b :: rest =>
      if is_lower a && is_upper b then Some ([a; SP; b], rest) else None
  | _ => None
  end.

(** [/\s+/g] replaced by [' '] *)
Definition re_spaces : matcher := fun s =>
  match s with
  | a :: rest => if is_space a then Some ([SP], skip_ws rest) else None
  | [] => None
  end.

(** [/\s+([.,!?])/g] replaced by ['$1'].  The greedy [\s+] takes the
    whole run; giving code units back cannot help, since what follows a
    shorter run is a space and no punctuation. *)
Definition re_space_punct : matcher := fun s =>
  match s with
  | a :: rest =>
      if is_space a then
        match skip_ws rest with
        | p :: rest' => if is_punct p then Some ([p], rest') else None
        | [] => None
        end
      else None
  | [] => None
  end.

(** [/([.,!?])([^\s])/g] replaced by ['$1 $2'] *)
Definition re_punct_glued : matcher := fun s =>
  match s with
  | a :: b :: rest =>
      if is_punct a && negb (is_space b) then Some ([a; SP; b], rest)
      else None
  | _ => None
  end.

(** [String.prototype.trim]: the white space of both ends goes. *)
Fixpoint rtrim (s : jsstring) : jsstring :=
  match s with
  | [] => []
  | c :: s' =>
      match rtrim s' with
      | [] => if is_space c then [] else [c]
      | t => c :: t
      end
  end.

Definition trim (s : jsstring) : jsstring := rtrim (skip_ws s).

(** ** [preprocessText] *)
Definition preprocessText (text : jsstring) : jsstring :=
  trim
    (replace_all re_punct_glued
       (replace_all re_space_punct
          (replace_all re_spaces
             (replace_all re_camel text)))).

(** ** [splitIntoChunks] *)

Definition CHUNK_SIZE : Z := 1000.

(** [String.prototype.split(/[.!?]+/)]: the pieces between the runs of
    delimiters, the empty pieces of both ends included.  [in_run] tells
    that the previous code unit was a delimiter, so that a run of
    delimiters closes one piece only. *)
Fixpoint split_go (in_run : bool) (cur : jsstring) (s : jsstring)
  : list jsstring :=
  match s with
  | [] => [cur]
  | c :: s' =>
      if is_delim c then
        if in_run then split_go true [] s' else cur :: split_go true [] s'
      else split_go false (cur ++ [c]) s'
  end.

Definition split_sentences (s : jsstring) : list jsstring :=
  split_go false [] s.

(** The state of the loop: the chunks pushed so far and [currentChunk]. *)
Definition chunker : Type := list jsstring * jsstring.

(** One turn of the [for] loop over [sentences]. *)
Definition chunk_step (size : Z) (st : chunker) (sentence : jsstring)
  : chunker :=
  let '(chunks, currentChunk) := st in
  let trimmedSentence := trim sentence in
  if negb (truthy trimmedSentence) then st
  else if (jslength currentChunk + jslength trimmedSentence + 1 <=? size)%Z
  then (chunks,
        currentChunk ++ (if truthy currentChunk then str ". " else [])
          ++ trimmedSentence)
  else ((if truthy currentChunk then chunks ++ [currentChunk ++ str "."]
         else chunks),
        trimmedSentence).

Definition splitIntoChunks (text : jsstring) (size : Z) : list jsstring :=
  let cleanText := preprocessText text in
  let sentences := split_sentences cleanText in
  let '(chunks, currentChunk) :=
    fold_left (chunk_step size) sentences ([], []) in
  if truthy currentChunk then chunks ++ [currentChunk ++ str "."]
  else chunks.


Close Scope N_scope.

(** ** The four replacements, code unit by code unit

    Each global replacement of [preprocessText] decides, for every code
    unit, by a bounded look at what follows.  These are the forms the
    proofs work with; [replace_camel], [replace_spaces],
    [replace_space_punct] and [replace_punct_glued] below show that they
    are the replacements of the source. *)

Definition starts_with (p : N -> bool) (s : jsstring) : bool :=
  match s with
  | c :: _ => p c
  | [] => false
  end.

Fixpoint camel (s : jsstring) : jsstring :=
  match s with
  | [] => []
  | a :: r =>
      if is_lower a && starts_with is_upper r then a :: SP :: camel r
      else a :: camel r
  end.

Fixpoint collapse (s : jsstring) : jsstring :=
  match s with
  | [] => []
  | a :: r =>
      if is_space a then
        if starts_with is_space r then collapse r else SP :: collapse r
      else a :: collapse r
  end.

(** The first code unit after the white space at the head is one of
    [. , ! ?]. *)
Definition punct_next (s : jsstring) : bool :=
  starts_with is_punct (skip_ws s).

Fixpoint unspace (s : jsstring) : jsstring :=
  match s with
  | [] => []
  | a :: r =>
      if is_space a && punct_next r then unspace r else a :: unspace r
  end.

Fixpoint respace (s : jsstring) : jsstring :=
  match s with
  | [] => []
  | a :: r =>
      if is_punct a then
        match r with
        | [] => [a]
        | b :: r' =>
            if is_space b then a :: respace r
            else a :: SP :: b :: respace r'
        end
      else a :: respace r
  end.

(** A matcher consumes at least one code unit. *)
Definition shrinks (m : matcher) : Prop :=
  forall s out rest,
    m s = Some (out, rest) -> List.length rest < List.length s.

(** No lower-case letter directly before an upper-case one. *)
Fixpoint nocamel (s : jsstring) : Prop :=
  match s with
  | [] => True
  | a :: r => (is_lower a && starts_with is_upper r = false) /\ nocamel r
  end.

(** Every white space is one U+0020, never two in a row. *)
Fixpoint single_spaced (s : jsstring) : Prop :=
  match s with
  | [] => True
  | a :: r =>
      (is_space a = true -> a = SP /\ starts_with is_space r = false)
      /\ single_spaced r
  end.

(** No white space directly before one of [. , ! ?]. *)
Fixpoint tight (s : jsstring) : Prop :=
  match s with
  | [] => True
  | a :: r => (is_space a = true -> punct_next r = false) /\ tight r
  end.

(** ** The chunker seen on sentences

    The sentences of a clean text: the pieces between the delimiters,
    trimmed, the empty ones skipped, as the loop of [splitIntoChunks]
    meets them. *)
Definition sentences_of (clean : jsstring) : list jsstring :=
  List.filter truthy (List.map trim (split_sentences clean)).

(** The sentences of a group with [". "] between them: what
    [currentChunk] holds. *)
Fixpoint join_sentences (g : list jsstring) : jsstring :=
  match g with
  | [] => []
  | t :: g' =>
      match g' with
      | [] => t
      | _ :: _ => t ++ str ". " ++ join_sentences g'
      end
  end.

(** A pushed chunk: the group and the final ['.']. *)
Definition render (g : list jsstring) : jsstring :=
  join_sentences g ++ str ".".

(** The loop on groups of sentences instead of strings. *)
Definition group_step (size : Z)
  (st : list (list jsstring) * list jsstring) (t : jsstring)
  : list (list jsstring) * list jsstring :=
  let '(gs, g) := st in
  if (jslength (join_sentences g) + jslength t + 1 <=? size)%Z
  then (gs, g ++ [t])
  else (match g with [] => gs | _ :: _ => gs ++ [g] end, [t]).

Definition close_groups (st : list (list jsstring) * list jsstring)
  : list (list jsstring) :=
  let '(gs, g) := st in
  match g with
  | [] => gs
  | _ :: _ => gs ++ [g]
  end.

Definition chunk_groups (size : Z) (sentences : list jsstring)
  : list (list jsstring) :=
  close_groups (fold_left (group_step size) sentences ([], [])).

(** A sentence as the loop sees it: not empty, trimmed, free of
    [. ! ?]. *)
Definition sentence_ok (t : jsstring) : Prop :=
  truthy t = true /\ trim t = t /\ Forall (fun c => is_delim c = false) t.

(** A group is one sentence, or stays within [size + 1] code units. *)
Definition fits (size : Z) (g : list jsstring) : Prop :=
  (exists t, g = [t]) \/ (jslength (join_sentences g) <= size + 1)%Z.

(** * The services: Ollama, Pinecone, the clock

    What rag.js does with the outer world is a sequence of calls whose
    answers the program cannot foresee.  The answers come from an oracle
    [Services]; the vector store is kept as a map from name spaces to
    records, changed by the calls that succeed. *)

(** ** Values *)

(** The values that cross the boundary: what [JSON.parse] gives, and
    [undefined] for a property that is not there. *)
Inductive json : Type :=
  | JUndefined
  | JNull
  | JBool (b : bool)
  | JNumber (q : Q)
  | JString (s : jsstring)
  | JArray (items : list json)
  | JObject (fields : gmap jsstring json).

(** What [throw] carries. *)
Inductive exn : Type :=
  | JsError (message : jsstring)
      (** [new Error(message)], thrown by rag.js itself *)
  | TypeError (message : jsstring)
      (** thrown by the engine, on a property read of [null] or
          [undefined] *)
  | Rejected (reason : jsstring)
      (** a rejection that comes out of a library call *).

(** Decimal digits of an integer, as a template literal prints it: the
    print of JavaScript for the integers below 10^21 in absolute value;
    from there on a number is printed with an exponent. *)
Fixpoint uint_codes (d : Decimal.uint) : jsstring :=
  match d with
  | Decimal.Nil => []
  | Decimal.D0 d => 48%N :: uint_codes d
  | Decimal.D1 d => 49%N :: uint_codes d
  | Decimal.D2 d => 50%N :: uint_codes d
  | Decimal.D3 d => 51%N :: uint_codes d
  | Decimal.D4 d => 52%N :: uint_codes d
  | Decimal.D5 d => 53%N :: uint_codes d
  | Decimal.D6 d => 54%N :: uint_codes d
  | Decimal.D7 d => 55%N :: uint_codes d
  | Decimal.D8 d => 56%N :: uint_codes d
  | Decimal.D9 d => 57%N :: uint_codes d
  end.

Definition dec (z : Z) : jsstring :=
  match Z.to_int z with
  | Decimal.Pos d => uint_codes d
  | Decimal.Neg d => 45%N :: uint_codes d
  end.

(** The answer of [fetch]: the status line and what [response.json()]
    will give, a parsed body or the rejection of the parser. *)
Record Response : Type := {
  status : Z;
  body : exn + json
}.

(** [response.ok] *)
Definition ok (r : Response) : bool :=
  (200 <=? status r)%Z && (status r <? 300)%Z.

Record IndexStatus : Type := { ready : bool }.

(** The answer of [describeIndex]; [status] may be missing. *)
Record IndexDescription : Type := { index_status : option IndexStatus }.

(** The argument of [createIndex]. *)
Record IndexSpec : Type := {
  spec_name : jsstring;
  dimension : Z;
  metric : jsstring;
  cloud : jsstring;
  region : jsstring
}.

(** A record of the vector store. *)
Record StoredRecord : Type := {
  id : jsstring;
  values : json;
  metadata : gmap jsstring json
}.

(** ** The oracle and the world *)

Record Services (Orc : Type) : Type := {
  svc_fetch : jsstring -> jsstring -> jsstring -> Orc -> (exn + Response) * Orc;
  svc_now : Orc -> Z * Orc;
  svc_describeIndex : jsstring -> Orc -> (exn + IndexDescription) * Orc;
  svc_createIndex : IndexSpec -> Orc -> option exn * Orc;
  svc_upsert : jsstring -> StoredRecord -> Orc -> option exn * Orc;
  svc_deleteAll : jsstring -> Orc -> option exn * Orc;
  svc_toISOString : Z -> jsstring
}.

Arguments svc_fetch {Orc}.
Arguments svc_now {Orc}.
Arguments svc_describeIndex {Orc}.
Arguments svc_createIndex {Orc}.
Arguments svc_upsert {Orc}.
Arguments svc_deleteAll {Orc}.
Arguments svc_toISOString {Orc}.

(** The calls that leave the process, in the order they are made. *)
Inductive Call : Type :=
  | CFetch (url model prompt : jsstring)
  | CDescribeIndex (name : jsstring)
  | CCreateIndex (spec : IndexSpec)
  | CUpsert (namespace : jsstring) (record : StoredRecord)
  | CDeleteAll (namespace : jsstring)
  | CSleep (ms : Z)
  | CQuery (namespace : jsstring) (vector : json) (topK : Z).

Record World (Orc : Type) : Type := {
  oracle : Orc;
  store : gmap jsstring (gmap jsstring StoredRecord);
  log : list Call
}.

Arguments oracle {Orc}.
Arguments store {Orc}.
Arguments log {Orc}.

(** The records of a name space; a name space never written is empty. *)
Definition records_of (st : gmap jsstring (gmap jsstring StoredRecord))
  (namespace : jsstring) : gmap jsstring StoredRecord :=
  default ∅ (st !! namespace).

(** ** Asynchronous code that may throw *)

Definition M (Orc A : Type) : Type := World Orc -> (exn + A) * World Orc.

Definition ret {Orc A} (a : A) : M Orc A := fun w => (inr a, w).

Definition throw {Orc A} (e : exn) : M Orc A := fun w => (inl e, w).

Definition bind {Orc A B} (m : M Orc A) (k : A -> M Orc B) : M Orc B :=
  fun w =>
    match m w with
    | (inr a, w') => k a w'
    | (inl e, w') => (inl e, w')
    end.

(** [try { m } catch (error) { handler }] *)
Definition try_catch {Orc A} (m : M Orc A) (handler : exn -> M Orc A) : M Orc A :=
  fun w =>
    match m w with
    | (inr a, w') => (inr a, w')
    | (inl e, w') => handler e w'
    end.

Notation "'let*' x ':=' m 'in' k" := (bind m (fun x => k))
  (at level 10, x name, m at level 100, k at level 200).

Section Program.

Context {Orc : Type} (E : Services Orc).

(** The step of a call: the oracle answers, the call is logged. *)
Definition call {A} (c : Call) (answer : Orc -> A * Orc) : World Orc -> A * World Orc :=
  fun w =>
    let '(a, o') := answer (oracle w) in
    (a, {| oracle := o'; store := store w; log := log w ++ [c] |}).

Definition fetch (url model prompt : jsstring) : M Orc Response :=
  call (CFetch url model prompt) (svc_fetch E url model prompt).

(** [Date.now()] and [new Date()]: the clock is read, nothing is sent. *)
Definition now : M Orc Z :=
  fun w =>
    let '(t, o') := svc_now E (oracle w) in
    (inr t, {| oracle := o'; store := store w; log := log w |}).

Definition sleep (ms : Z) : M Orc unit :=
  fun w =>
    (inr tt, {| oracle := oracle w; store := store w;
                log := log w ++ [CSleep ms] |}).

Definition describeIndex (name : jsstring) : M Orc IndexDescription :=
  call (CDescribeIndex name) (svc_describeIndex E name).

Definition createIndex (spec : IndexSpec) : M Orc unit :=
  fun w =>
    match call (CCreateIndex spec) (svc_createIndex E spec) w with
    | (Some e, w') => (inl e, w')
    | (None, w') => (inr tt, w')
    end.

(** [index.namespace(ns).upsert([record])]: when the store accepts the
    call, the record takes the place of any record of the same id in
    that name space; a call that the store rejects changes nothing. *)
Definition upsert (namespace : jsstring) (r : StoredRecord) : M Orc unit :=
  fun w =>
    match call (CUpsert namespace r) (svc_upsert E namespace r) w with
    | (Some e, w') => (inl e, w')
    | (None, w') =>
        (inr tt,
         {| oracle := oracle w';
            store := <[namespace :=
                         <[id r := r]> (records_of (store w') namespace)]>
                       (store w');
            log := log w' |})
    end.

(** [index.namespace(ns).deleteAll()]: when the store accepts the call,
    the records of that name space are gone, those of the other name
    spaces stay; a call that the store rejects changes nothing. *)
Definition deleteAll (namespace : jsstring) : M Orc unit :=
  fun w =>
    match call (CDeleteAll namespace) (svc_deleteAll E namespace) w with
    | (Some e, w') => (inl e, w')
    | (None, w') =>
        (inr tt,
         {| oracle := oracle w';
            store := delete namespace (store w');
            log := log w' |})
    end.

(** ** rag.js *)

Definition OLLAMA_API : jsstring := str "http://localhost:11434".
Definition MODEL_EMBEDDING : jsstring := str "llama3.2".
Definition INDEX_NAME : jsstring := str "rag-docs-llama".

(** [pinecone.index(INDEX_NAME)]: a handle, no call is made. *)
Definition getIndex : M Orc jsstring := ret INDEX_NAME.

(** [response.json()] *)
Definition response_json (r : Response) : M Orc json :=
  match body r with
  | inl e => throw e
  | inr data => ret data
  end.

(** [data.embedding] *)
Definition embedding_of (data : json) : exn + json :=
  match data with
  | JUndefined =>
      inl (TypeError
             (str "Cannot read properties of undefined (reading 'embedding')"))
  | JNull =>
      inl (TypeError
             (str "Cannot read properties of null (reading 'embedding')"))
  | JObject fields => inr (default JUndefined (fields !! str "embedding"))
  | _ => inr JUndefined
  end.

(** Truthiness of a value. *)
Definition js_truthy (v : json) : bool :=
  match v with
  | JUndefined | JNull | JBool false => false
  | JNumber q => negb (Qeq_bool q 0)
  | JString s => truthy s
  | _ => true
  end.

(** [Array.isArray] *)
Definition isArray (v : json) : bool :=
  match v with
  | JArray _ => true
  | _ => false
  end.

Definition getEmbedding (text : jsstring) : M Orc json :=
  try_catch
    (let* response :=
       fetch (OLLAMA_API ++ str "/api/embeddings") MODEL_EMBEDDING text in
     if negb (ok response) then
       throw (JsError (str "HTTP error! status: " ++ dec (status response)))
     else
       let* data := response_json response in
       match embedding_of data with
       | inl e => throw e
       | inr embedding =>
           if negb (js_truthy embedding) || negb (isArray embedding) then
             throw (JsError
                      (str "Invalid embedding format received from Ollama"))
           else ret embedding
       end)
    (fun error => throw error).

(** [description.status?.ready], as a condition *)
Definition status_ready (d : IndexDescription) : bool :=
  match index_status d with
  | Some s => ready s
  | None => false
  end.

(** The [for] loop of [waitForIndex], [remaining] turns to go. *)
Fixpoint waitForIndex_loop (maxAttempts : Z) (remaining : nat) : M Orc bool :=
  match remaining with
  | 0%nat =>
      throw (JsError (str "Index " ++ INDEX_NAME ++ str " not ready after "
                        ++ dec maxAttempts ++ str " attempts"))
  | S remaining' =>
      let* isReady :=
        try_catch
          (let* description := describeIndex INDEX_NAME in
           ret (status_ready description))
          (fun error => ret false) in
      if isReady then ret true
      else
        let* _ := sleep 2000 in
        waitForIndex_loop maxAttempts remaining'
  end.

Definition waitForIndex (maxAttempts : Z) : M Orc bool :=
  waitForIndex_loop maxAttempts (Z.to_nat maxAttempts).

Definition DEFAULT_MAX_ATTEMPTS : Z := 10.

(** The id of a record: [`doc_${Date.now()}_chunk_${i}`] *)
Definition record_id (t : Z) (i : nat) : jsstring :=
  str "doc_" ++ dec t ++ str "_chunk_" ++ dec (Z.of_nat i).

(** The metadata of a record: the caller's, then the five keys of
    [addDocument], later keys winning. *)
Definition record_metadata (caller : gmap jsstring json)
  (chunk : jsstring) (i total : nat) (timestamp userId : jsstring)
  : gmap jsstring json :=
  <[str "userId" := JString userId]>
    (<[str "timestamp" := JString timestamp]>
       (<[str "totalChunks" := JNumber (inject_Z (Z.of_nat total))]>
          (<[str "chunkIndex" := JNumber (inject_Z (Z.of_nat i))]>
             (<[str "text" := JString chunk]> caller)))).

(** One turn of the loop of [addDocument]. *)
Definition add_chunk (userId : jsstring) (caller : gmap jsstring json)
  (total i : nat) (chunk : jsstring) : M Orc (jsstring * jsstring) :=
  let* embedding := getEmbedding chunk in
  let* t := now in
  let id := record_id t i in
  let* t' := now in
  let* _ :=
    upsert userId
      {| id := id;
         values := embedding;
         metadata :=
           record_metadata caller chunk i total (svc_toISOString E t') userId
      |} in
  ret (id, chunk).

Fixpoint addDocument_loop (userId : jsstring) (caller : gmap jsstring json)
  (total i : nat) (chunks : list jsstring)
  (results : list (jsstring * jsstring)) : M Orc (list (jsstring * jsstring)) :=
  match chunks with
  | [] => ret results
  | chunk :: chunks' =>
      let* r := add_chunk userId caller total i chunk in
      addDocument_loop userId caller total (S i) chunks' (results ++ [r])
  end.

Record AddResult : Type := {
  add_success : bool;
  add_message : jsstring;
  add_chunks : list (jsstring * jsstring)
}.

Definition addDocument (userId text : jsstring)
  (caller : gmap jsstring json) : M Orc AddResult :=
  try_catch
    (let* index := getIndex in
     let chunks := splitIntoChunks text CHUNK_SIZE in
     let* results :=
       addDocument_loop userId caller (List.length chunks) 0 chunks [] in
     ret {| add_success := true;
            add_message :=
              str "Added document with "
                ++ dec (Z.of_nat (List.length chunks)) ++ str " chunks";
            add_chunks := results |})
    (fun error => throw error).

Fixpoint addDocuments_loop (userId : jsstring) (documents : list jsstring)
  (caller : gmap jsstring json) (results : list AddResult)
  : M Orc (list AddResult) :=
  match documents with
  | [] => ret results
  | doc :: documents' =>
      let* result := addDocument userId doc caller in
      addDocuments_loop userId documents' caller (results ++ [result])
  end.

Definition addDocuments (userId : jsstring) (documents : list jsstring)
  (caller : gmap jsstring json) : M Orc (list AddResult) :=
  try_catch (addDocuments_loop userId documents caller [])
    (fun error => throw error).

Record OpResult : Type := { success : bool; message : jsstring }.

Definition clearIndex (userId : jsstring) : M Orc OpResult :=
  try_catch
    (let* index := getIndex in
     let* _ := deleteAll userId in
     ret {| success := true;
            message :=
              str "Documents cleared successfully for user " ++ userId |})
    (fun error => throw error).

Definition createUserIndex (userId : jsstring) : M Orc OpResult :=
  try_catch
    (try_catch
       (let* _ := describeIndex INDEX_NAME in
        ret {| success := true;
               message := str "Index ready for user " ++ userId |})
       (fun error =>
          let* _ :=
            createIndex
              {| spec_name := INDEX_NAME;
                 dimension := 4096;
                 metric := str "cosine";
                 cloud := str "aws";
                 region := str "us-east-1" |} in
          let* _ := waitForIndex DEFAULT_MAX_ATTEMPTS in
          ret {| success := true;
                 message :=
                   str "Created index and ready for user " ++ userId |}))
    (fun error => throw error).

Definition deleteUserIndex (userId : jsstring) : M Orc OpResult :=
  try_catch
    (let* _ := clearIndex userId in
     ret {| success := true;
            message := str "Deleted all documents for user " ++ userId |})
    (fun error => throw error).

End Program.

(** ** Reading a run *)

(** What one attempt of [waitForIndex] sees: ready, or not (the call
    failed, or the index is not ready yet). *)
Definition observes_ready {Orc} (E : Services Orc) (o : Orc) : bool :=
  match fst (svc_describeIndex E INDEX_NAME o) with
  | inr d => status_ready d
  | inl _ => false
  end.

(** The oracle after [n] calls of [describeIndex]. *)
Fixpoint after_polls {Orc} (E : Services Orc) (n : nat) (o : Orc) : Orc :=
  match n with
  | 0%nat => o
  | S n' => after_polls E n' (snd (svc_describeIndex E INDEX_NAME o))
  end.

(** [n] attempts that did not see the index ready, each followed by its
    wait of two seconds. *)
Fixpoint failed_attempts (n : nat) : list Call :=
  match n with
  | 0%nat => []
  | S n' => CDescribeIndex INDEX_NAME :: CSleep 2000 :: failed_attempts n'
  end.

Definition is_createIndex (c : Call) : bool :=
  match c with
  | CCreateIndex _ => true
  | _ => false
  end.

Definition is_deleteAll (c : Call) : bool :=
  match c with
  | CDeleteAll _ => true
  | _ => false
  end.

(** The name space holds, under [rid], a record whose text is [chunk]. *)
Definition holds_chunk (st : gmap jsstring (gmap jsstring StoredRecord))
  (namespace rid chunk : jsstring) : Prop :=
  exists r,
    records_of st namespace !! rid = Some r
    /\ id r = rid
    /\ metadata r !! str "text" = Some (JString chunk).

(** The run went on from [w] to [w'] without a [deleteAll]. *)
Definition no_rollback {Orc} (w w' : World Orc) : Prop :=
  exists calls,
    log w' = log w ++ calls
    /\ forallb (fun c => negb (is_deleteAll c)) calls = true.


(** ** Scripted services, to run the program on

    The oracle is the number of answers given so far; each kind of
    call answers by that number. *)
Definition scripted
  (fetch_at : nat -> jsstring -> exn + Response)
  (now_at : nat -> Z)
  (describe_at : nat -> exn + IndexDescription)
  (upsert_at : nat -> option exn)
  (deleteAll_at : nat -> option exn) : Services nat :=
  {| svc_fetch := fun _ _ prompt n => (fetch_at n prompt, S n);
     svc_now := fun n => (now_at n, S n);
     svc_describeIndex := fun _ n => (describe_at n, S n);
     svc_createIndex := fun _ n => (None, S n);
     svc_upsert := fun _ _ n => (upsert_at n, S n);
     svc_deleteAll := fun _ n => (deleteAll_at n, S n);
     svc_toISOString := fun _ => str "2023-11-14T22:13:20.000Z" |}.

Definition embedding_response (v : json) : exn + Response :=
  inr {| status := 200;
         body := inr (JObject {[ str "embedding" := v ]}) |}.

Definition ready_description : exn + IndexDescription :=
  inr {| index_status := Some {| ready := true |} |}.

Definition pending_description : exn + IndexDescription :=
  inr {| index_status := Some {| ready := false |} |}.

(** Every call succeeds, and the clock stands at one millisecond. *)
Definition frozen_clock : Services nat :=
  scripted (fun _ _ => embedding_response (JArray [JNumber (1 # 2)]))
    (fun _ => 1700000000000%Z)
    (fun _ => ready_description)
    (fun _ => None) (fun _ => None).


(** The index is missing at first, then pending, then ready. *)
Definition slow_index : Services nat :=
  scripted (fun _ _ => embedding_response (JArray [JNumber (1 # 2)]))
    (fun n => Z.of_nat n)
    (fun n =>
       match n with
       | 0%nat => inl (Rejected (str "index not found"))
       | 1%nat => pending_description
       | _ => ready_description
       end)
    (fun _ => None) (fun _ => None).

(** The embedding service is down for the text ["Bad."]. *)
Definition bad_chunk : Services nat :=
  scripted
    (fun _ prompt =>
       if decide (prompt = str "Bad.") then
         inr {| status := 500; body := inl (Rejected (str "no body")) |}
       else embedding_response (JArray [JNumber (1 # 2)]))
    (fun n => Z.of_nat n)
    (fun _ => ready_description)
    (fun _ => None) (fun _ => None).

(** A text of two chunks: a sentence of 998 code units, then ["Bad"]. *)
Definition two_chunk_text : jsstring :=
  List.repeat 97%N 998 ++ str ". Bad".

Definition empty_world : World nat :=
  {| oracle := 0%nat; store := ∅; log := [] |}.

(** ** Further readings of the text functions *)

(** A code unit that carries no content for the chunker: white space or
    one of [. ! ?]. *)
Definition is_filler (c : N) : bool := is_space c || is_delim c.

(** Each group was closed because the sentence that opens the next group
    did not pass the test of the loop. *)
Fixpoint closed_when_full (size : Z) (gs : list (list jsstring)) : Prop :=
  match gs with
  | [] => True
  | g :: gs' =>
      match gs' with
      | (t :: _) :: _ =>
          (size < jslength (join_sentences g) + jslength t + 1)%Z
      | _ => True
      end
      /\ closed_when_full size gs'
  end.

(** ** Further readings of a run *)

(** The store after the records [recs] went into a name space, in that
    order. *)
Definition upsert_all (userId : jsstring) (recs : list StoredRecord)
  (st : gmap jsstring (gmap jsstring StoredRecord))
  : gmap jsstring (gmap jsstring StoredRecord) :=
  fold_left
    (fun st r => <[userId := <[id r := r]> (records_of st userId)]> st)
    recs st.

(** The calls of the turns of [addDocument] that went through: for each
    chunk the request for its embedding, then the upsert of its record. *)
Definition ingest_calls (userId : jsstring)
  (pairs : list (jsstring * StoredRecord)) : list Call :=
  flat_map
    (fun p =>
       [CFetch (OLLAMA_API ++ str "/api/embeddings") MODEL_EMBEDDING (fst p);
        CUpsert userId (snd p)])
    pairs.

(** The argument of the one [createIndex] of rag.js. *)
Definition INDEX_SPEC : IndexSpec :=
  {| spec_name := INDEX_NAME;
     dimension := 4096;
     metric := str "cosine";
     cloud := str "aws";
     region := str "us-east-1" |}.

(** A call of the polling loop. *)
Definition is_poll (c : Call) : bool :=
  match c with
  | CDescribeIndex _ => true
  | CSleep ms => (ms =? 2000)%Z
  | _ => false
  end.

(** * Retrieval, answers and PDF intake

    The rest of rag.js.  Its calls into pdf-parse and into the query of
    the vector store are answered by a second oracle, [Library], typed as
    the libraries type their results. *)

(** What [pdfParse] resolves to; rag.js reads [text]. *)
Record PdfData : Type := { pdf_text : jsstring }.

(** A match of a query: [score] and [metadata] are optional. *)
Record ScoredRecord : Type := {
  match_id : jsstring;
  score : option Q;
  match_metadata : option (gmap jsstring json)
}.

Record QueryResponse : Type := { matches : list ScoredRecord }.

Record Library (Orc : Type) : Type := {
  lib_pdfParse : list N -> Orc -> (exn + PdfData) * Orc;
  lib_query : jsstring -> json -> Z -> Orc -> (exn + QueryResponse) * Orc;
  lib_numberToString : Q -> jsstring
}.

Arguments lib_pdfParse {Orc}.
Arguments lib_query {Orc}.
Arguments lib_numberToString {Orc}.

(** An entry of what [findSimilarDocuments] returns. *)
Record SimilarDoc : Type := {
  doc_text : json;
  similarity : json;
  doc_metadata : gmap jsstring json
}.

(** What [askQuestion] returns when [returnData] is set. *)
Record Answer : Type := {
  ans_question : jsstring;
  relevantDocuments : list SimilarDoc;
  answer : json
}.

Definition MODEL_GENERATION : jsstring := str "llama3.2".

Definition NL : N := 10%N.

(** The line of 107 dashes of the prompt. *)
Definition RULE : jsstring := List.repeat 45%N 107.

(** [value.key], for a key that only objects carry. *)
Definition property_of (key : jsstring) (value : json) : exn + json :=
  match value with
  | JUndefined =>
      inl (TypeError
             (str "Cannot read properties of undefined (reading '"
                ++ key ++ str "')"))
  | JNull =>
      inl (TypeError
             (str "Cannot read properties of null (reading '"
                ++ key ++ str "')"))
  | JObject fields => inr (default JUndefined (fields !! key))
  | _ => inr JUndefined
  end.

(** The text [Array.prototype.join] makes of an element: nothing for
    [undefined] and [null], else the string of the value. *)
Fixpoint join_item (number : Q -> jsstring) (v : json) : jsstring :=
  match v with
  | JUndefined | JNull => []
  | JBool true => str "true"
  | JBool false => str "false"
  | JNumber q => number q
  | JString s => s
  | JArray items =>
      (fix commas (l : list json) : jsstring :=
         match l with
         | [] => []
         | x :: l' =>
             match l' with
             | [] => join_item number x
             | _ :: _ => join_item number x ++ str "," ++ commas l'
             end
         end) items
  | JObject _ => str "[object Object]"
  end.

(** [items.join(sep)] *)
Fixpoint js_join (number : Q -> jsstring) (sep : jsstring)
  (items : list json) : jsstring :=
  match items with
  | [] => []
  | x :: items' =>
      match items' with
      | [] => join_item number x
      | _ :: _ => join_item number x ++ sep ++ js_join number sep items'
      end
  end.

(** The template of the prompt of [askQuestion]. *)
Definition prompt_of (context question : jsstring) : jsstring :=
  [NL] ++ str "System Prompt:" ++ [NL]
  ++ str "You are a AI journalist that answers questions based on the provided context"
  ++ [NL] ++ RULE ++ [NL]
  ++ str "Context:" ++ [NL] ++ context ++ [NL] ++ RULE ++ [NL]
  ++ str "Question:" ++ [NL] ++ question ++ [NL] ++ RULE ++ [NL].

(** The callback of [matches.map] in [findSimilarDocuments]:
    [match.metadata.text] is read first and throws without metadata. *)
Definition similar_doc (m : ScoredRecord) : exn + SimilarDoc :=
  match match_metadata m with
  | None =>
      inl (TypeError
             (str "Cannot read properties of undefined (reading 'text')"))
  | Some md =>
      inr {| doc_text := default JUndefined (md !! str "text");
             similarity :=
               match score m with
               | Some q => JNumber q
               | None => JUndefined
               end;
             doc_metadata := md |}
  end.

(** [matches.map(callback)]: the first throw ends it. *)
Fixpoint map_matches (ms : list ScoredRecord) : exn + list SimilarDoc :=
  match ms with
  | [] => inr []
  | m :: ms' =>
      match similar_doc m with
      | inl e => inl e
      | inr d =>
          match map_matches ms' with
          | inl e => inl e
          | inr ds => inr (d :: ds)
          end
      end
  end.

(** What the line printed for a document can throw: [doc.text.slice]
    needs a string or an array, [doc.similarity.toFixed] a number. *)
Definition print_doc (doc : SimilarDoc) : option exn :=
  match doc_text doc with
  | JUndefined =>
      Some (TypeError
              (str "Cannot read properties of undefined (reading 'slice')"))
  | JNull =>
      Some (TypeError
              (str "Cannot read properties of null (reading 'slice')"))
  | JString _ | JArray _ =>
      match similarity doc with
      | JNumber _ => None
      | JUndefined =>
          Some (TypeError
                  (str "Cannot read properties of undefined (reading 'toFixed')"))
      | JNull =>
          Some (TypeError
                  (str "Cannot read properties of null (reading 'toFixed')"))
      | _ => Some (TypeError (str "doc.similarity.toFixed is not a function"))
      end
  | _ => Some (TypeError (str "doc.text.slice is not a function"))
  end.

(** [similarDocs.forEach(print)] *)
Fixpoint print_docs (docs : list SimilarDoc) : option exn :=
  match docs with
  | [] => None
  | doc :: docs' =>
      match print_doc doc with
      | Some e => Some e
      | None => print_docs docs'
      end
  end.

Section Retrieval.

Context {Orc : Type} (E : Services Orc) (L : Library Orc).

(** A call into a library that stays inside the process: the oracle
    answers, nothing is sent. *)
Definition library_call {A} (answer : Orc -> (exn + A) * Orc) : M Orc A :=
  fun w =>
    let '(a, o') := answer (oracle w) in
    (a, {| oracle := o'; store := store w; log := log w |}).

Definition pdfParse (pdfBuffer : list N) : M Orc PdfData :=
  library_call (lib_pdfParse L pdfBuffer).

(** [index.namespace(ns).query({vector, topK, includeMetadata: true})]:
    a request to the vector store, logged as the other ones are. *)
Definition query (namespace : jsstring) (vector : json) (topK : Z)
  : M Orc QueryResponse :=
  fun w =>
    let '(a, o') := lib_query L namespace vector topK (oracle w) in
    (a, {| oracle := o'; store := store w;
           log := log w ++ [CQuery namespace vector topK] |}).

Definition processPdfBuffer (pdfBuffer : list N) : M Orc jsstring :=
  try_catch
    (let* data := pdfParse pdfBuffer in
     ret (preprocessText (pdf_text data)))
    (fun error => throw (JsError (str "Failed to process PDF file"))).

Definition addPdfDocument (userId : jsstring) (pdfBuffer : list N)
  (caller : gmap jsstring json) : M Orc AddResult :=
  try_catch
    (let* text := processPdfBuffer pdfBuffer in
     addDocument E userId text
       (<[str "documentType" := JString (str "pdf")]> caller))
    (fun error => throw error).

Definition findSimilarDocuments (userId queryText : jsstring) (topK : Z)
  : M Orc (list SimilarDoc) :=
  try_catch
    (let* index := getIndex in
     let* queryEmbedding := getEmbedding E queryText in
     let* queryResult := query userId queryEmbedding topK in
     match map_matches (matches queryResult) with
     | inl e => throw e
     | inr docs => ret docs
     end)
    (fun error => throw error).

(** [askQuestion]; [None] is the [undefined] of the console mode. *)
Definition askQuestion (userId question : jsstring) (returnData : bool)
  : M Orc (option Answer) :=
  try_catch
    (let* similarDocs := findSimilarDocuments userId question 3 in
     let context :=
       js_join (lib_numberToString L) [NL; NL]
         (List.map doc_text similarDocs) in
     let* response :=
       fetch E (OLLAMA_API ++ str "/api/generate") MODEL_GENERATION
         (prompt_of context question) in
     if negb (ok response) then
       throw (JsError (str "HTTP error! status: " ++ dec (status response)))
     else
       let* result := response_json response in
       if returnData then
         match property_of (str "response") result with
         | inl e => throw e
         | inr a =>
             ret (Some {| ans_question := question;
                          relevantDocuments := similarDocs;
                          answer := a |})
         end
       else
         match print_docs similarDocs with
         | Some e => throw e
         | None =>
             match property_of (str "response") result with
             | inl e => throw e
             | inr _ => ret None
             end
         end)
    (fun error => throw error).

End Retrieval.

(** A library for the runs: the parser gives the bytes as text, unless
    there are none; the query answers one match of score 1/2 with the
    text ["First."], and a second one without metadata when [topK] is
    above 3. *)
Definition scripted_library : Library nat :=
  {| lib_pdfParse := fun buffer n =>
       (match buffer with
        | [] => inl (Rejected (str "empty file"))
        | _ :: _ => inr {| pdf_text := buffer |}
        end, S n);
     lib_query := fun _ _ topK n =>
       (inr {| matches :=
                 {| match_id := str "doc_1_chunk_0";
                    score := Some (1 # 2);
                    match_metadata :=
                      Some {[ str "text" := JString (str "First.") ]} |}
                 :: (if (3 <? topK)%Z
                     then [{| match_id := str "bare";
                              score := Some (1 # 4);
                              match_metadata := None |}]
                     else []) |}, S n);
     lib_numberToString := fun _ => str "0" |}.

(** The generation service answers every request with [{"response":
    "Yes."}]. *)
Definition answering : Services nat :=
  scripted
    (fun n _ =>
       match n with
       | 0%nat => embedding_response (JArray [JNumber (1 # 2)])
       | _ =>
           inr {| status := 200;
                  body := inr (JObject
                                 {[ str "response" := JString (str "Yes.") ]}) |}
       end)
    (fun n => Z.of_nat n)
    (fun _ => ready_description)
    (fun _ => None) (fun _ => None).

(** The keys that [addDocument] sets itself in the metadata of a record. *)
Definition OWN_KEYS : list jsstring :=
  [str "text"; str "chunkIndex"; str "totalChunks"; str "timestamp";
   str "userId"].

(** * The claims in the words of the specification

    These readings do not go through the functions of rag.js: the
    sentences of a text are given by a way of cutting the text itself,
    the ready flag by the answer of the service. *)

(** One of the delimiters [. ! ?]. *)
Definition spec_delimiter (c : N) : Prop :=
  c = 46%N \/ c = 33%N \/ c = 63%N.

(** The text is its segments put end to end with one delimiter between
    two neighbours, and no segment holds a delimiter. *)
Inductive spec_segments : jsstring -> list jsstring -> Prop :=
  | segments_last (seg : jsstring) :
      Forall (fun c => ~ spec_delimiter c) seg ->
      spec_segments seg [seg]
  | segments_more (seg : jsstring) (d : N) (rest : jsstring)
      (segs : list jsstring) :
      Forall (fun c => ~ spec_delimiter c) seg ->
      spec_delimiter d ->
      spec_segments rest segs ->
      spec_segments (seg ++ d :: rest) (seg :: segs).

(** The non-empty trimmed segments of a text. *)
Definition spec_sentences (s : jsstring) (sentences : list jsstring)
  : Prop :=
  exists segs,
    spec_segments s segs
    /\ sentences = List.filter truthy (List.map trim segs).

(** A code unit of content: neither white space nor a delimiter. *)
Definition is_content_unit (c : N) : bool := negb (is_filler c).

(** The answer of [describeIndex] in the state [o] of the services
    carries the ready flag, set. *)
Definition sees_ready {Orc} (E : Services Orc) (o : Orc) : Prop :=
  exists d,
    fst (svc_describeIndex E INDEX_NAME o) = inr d
    /\ index_status d = Some {| ready := true |}.


(** The vector store does not answer the query. *)
Definition store_down : Library nat :=
  {| lib_pdfParse := fun buffer n => (inr {| pdf_text := buffer |}, S n);
     lib_query := fun _ _ _ n =>
       (inl (Rejected (str "store unreachable")), S n);
     lib_numberToString := fun _ => str "0" |}.

(** * convert_data.js: articles out of a crawled file *)

(** [s.split('\n')]: the pieces between the line feeds, all of them. *)
Fixpoint split_on (sep : N) (cur : jsstring) (s : jsstring)
  : list jsstring :=
  match s with
  | [] => [cur]
  | c :: s' =>
      if (c =? sep)%N then cur :: split_on sep [] s'
      else split_on sep (cur ++ [c]) s'
  end.

Definition split_lines (s : jsstring) : list jsstring := split_on NL [] s.

(** [s.startsWith(prefix)] *)
Fixpoint startsWith (s prefix : jsstring) : bool :=
  match prefix with
  | [] => true
  | p :: prefix' =>
      match s with
      | [] => false
      | c :: s' => (c =? p)%N && startsWith s' prefix'
      end
  end.

(** [\d] *)
Definition is_digit (c : N) : bool := (48 <=? c)%N && (c <=? 57)%N.

Fixpoint skip_digits (s : jsstring) : jsstring :=
  match s with
  | [] => []
  | c :: s' => if is_digit c then skip_digits s' else s
  end.

(** [line.match(/^\d+ Komentar/)], as a condition: digits at the start
    of the line, all of them, then [" Komentar"]. *)
Definition matches_komentar (line : jsstring) : bool :=
  match line with
  | [] => false
  | c :: rest => is_digit c && startsWith (skip_digits rest) (str " Komentar")
  end.

(** The line opens a new article. *)
Definition is_marker (line : jsstring) : bool :=
  startsWith line (str "--- Article").

(** The line is dropped: a header of the page or a comment counter. *)
Definition is_skipped (line : jsstring) : bool :=
  startsWith line (str "Page Title:")
  || startsWith line (str "URL:")
  || startsWith line (str "Articles Found:")
  || matches_komentar line.

(** One turn of the loop over [lines]: the articles pushed so far and
    [currentArticle]. *)
Definition extract_step (st : list jsstring * jsstring) (rawLine : jsstring)
  : list jsstring * jsstring :=
  let '(articles, currentArticle) := st in
  let line := trim rawLine in
  if negb (truthy line) then st
  else if is_marker line then
    (if truthy currentArticle then articles ++ [trim currentArticle]
     else articles,
     [])
  else if is_skipped line then st
  else
    (articles,
     (if truthy currentArticle then currentArticle ++ str " "
      else currentArticle) ++ line).

Definition extractArticles (rawText : jsstring) : list jsstring :=
  let lines := split_lines rawText in
  let '(articles, currentArticle) := fold_left extract_step lines ([], []) in
  if truthy currentArticle then articles ++ [trim currentArticle]
  else articles.

(** The [documents] of the output of the script:
    [articles.map(article => article.replace(/\s+/g, ' ').trim())] *)
Definition documents_of (rawData : jsstring) : list jsstring :=
  List.map (fun article => trim (replace_all re_spaces article))
    (extractArticles rawData).

(** ** Reading [extractArticles] on lines *)

(** The lines that carry content: trimmed, not empty, no marker, not
    skipped. *)
Definition is_content (line : jsstring) : bool :=
  truthy line && negb (is_marker line) && negb (is_skipped line).

Definition trimmed_lines (rawText : jsstring) : list jsstring :=
  List.map trim (split_lines rawText).

(** The lines of a group with one space between them. *)
Fixpoint join_space (g : list jsstring) : jsstring :=
  match g with
  | [] => []
  | t :: g' =>
      match g' with
      | [] => t
      | _ :: _ => t ++ str " " ++ join_space g'
      end
  end.

(** The trimmed lines cut at the markers: the content lines before the
    first marker, those between two markers, those after the last one;
    a stretch without content line gives no group. *)
Fixpoint article_groups (cur : list jsstring) (lines : list jsstring)
  : list (list jsstring) :=
  match lines with
  | [] => match cur with [] => [] | _ :: _ => [cur] end
  | line :: lines' =>
      if is_marker line then
        match cur with
        | [] => article_groups [] lines'
        | _ :: _ => cur :: article_groups [] lines'
        end
      else if is_content line then article_groups (cur ++ [line]) lines'
      else article_groups cur lines'
  end.

(** Not empty, and [trim] leaves it as it is. *)
Definition trimmed (t : jsstring) : Prop := truthy t = true /\ trim t = t.

(** * crawler.js: the text file of a crawl *)

(** What [crawlWebsite] keeps of an article. *)
Record CrawledArticle : Type := {
  title : jsstring;
  link : jsstring;
  content : jsstring
}.

(** [items.map((item, index) => f(index, item))], counting from [index]. *)
Fixpoint map_from {A B : Type} (f : nat -> A -> B) (index : nat)
  (items : list A) : list B :=
  match items with
  | [] => []
  | x :: items' => f index x :: map_from f (S index) items'
  end.

(** [blocks.join('\n')] *)
Fixpoint join_lines (blocks : list jsstring) : jsstring :=
  match blocks with
  | [] => []
  | b :: blocks' =>
      match blocks' with
      | [] => b
      | _ :: _ => b ++ [NL] ++ join_lines blocks'
      end
  end.

(** The block of one article in the file. *)
Definition article_block (index : nat) (article : CrawledArticle)
  : jsstring :=
  str "--- Article " ++ dec (Z.of_nat index + 1) ++ str " ---" ++ [NL]
  ++ str "Title: " ++ title article ++ [NL]
  ++ str "Link: " ++ link article ++ [NL]
  ++ str "Content: " ++ content article ++ [NL].

(** The [content] that [crawlWebsite] writes for the page [url], at the
    time [isoNow] printed by [toISOString]. *)
Definition crawl_report (url isoNow : jsstring)
  (articles : list CrawledArticle) : jsstring :=
  str "Page URL: " ++ url ++ [NL]
  ++ str "Total Articles Found: "
  ++ dec (Z.of_nat (List.length articles)) ++ [NL]
  ++ str "Crawled at: " ++ isoNow ++ [NL]
  ++ [NL]
  ++ join_lines (map_from article_block 0 articles).

(** A trimmed, non-empty string on one line. *)
Definition one_line (t : jsstring) : Prop := trimmed t /\ ~ In NL t.

(** The header of the file and an article of it, as [extractArticles]
    gives them back. *)
Definition report_header (url isoNow : jsstring) (count : nat) : jsstring :=
  str "Page URL: " ++ url
  ++ str " Total Articles Found: " ++ dec (Z.of_nat count)
  ++ str " Crawled at: " ++ isoNow.

Definition report_article (article : CrawledArticle) : jsstring :=
  str "Title: " ++ title article
  ++ str " Link: " ++ link article
  ++ str " Content: " ++ content article.

(** ** The clean-up of an article's text

    [fetchArticleContent] of crawler.js and [getArticleContent] of
    newsScraper.js pass [element.text()] through the same chain. *)

(** [\w] *)
Definition is_word (c : N) : bool :=
  is_lower c || is_upper c || is_digit c || (c =? 95)%N.

(** [[\w\s.,!?-]] *)
Definition is_kept (c : N) : bool :=
  is_word c || is_space c || is_punct c || (c =? 45)%N.

(** [/[^\w\s.,!?-]/g] replaced by [''] *)
Definition re_special : matcher := fun s =>
  match s with
  | c :: rest => if negb (is_kept c) then Some ([], rest) else None
  | [] => None
  end.

(** [.trim().replace(/\s+/g, ' ').replace(/\s+([.,!?])/g, '$1')
     .replace(/([.,!?])([^\s])/g, '$1 $2')
     .replace(/[^\w\s.,!?-]/g, '').trim()] *)
Definition clean_content (text : jsstring) : jsstring :=
  trim
    (replace_all re_special
       (replace_all re_punct_glued
          (replace_all re_space_punct
             (replace_all re_spaces (trim text))))).

(** * newsScraper.js *)

(** What the scraper reads of an answer of [axios.get]. *)
Record AxiosResponse : Type := { data : jsstring }.

(** What the scraper does to the outside: a GET, a pause. *)
Inductive Event : Type :=
  | EGet (url : jsstring)
  | EWait (ms : Z).

Section Scraper.
(** The network and its state: [axios.get] answers or rejects. *)
Context {Net : Type}
        (get : Net -> jsstring -> (exn + AxiosResponse) * Net).
(** cheerio: [load] parses what was received into a page, or throws;
    [hrefs] gives the [href] attributes ([None] where there is none) of
    the elements that a selector finds in a page, in document order. *)
Context {Page : Type} (load : jsstring -> exn + Page)
        (hrefs : Page -> jsstring -> list (option jsstring)).

(** The loop of [fetchWithRetry] at counter [i], with [remaining]
    turns left before [i] reaches [maxRetries]; falling out of the
    loop returns [undefined], here [None]. *)
Fixpoint fetchWithRetry_loop (remaining : nat) (i maxRetries : Z)
  (url : jsstring) (st : Net * list Event)
  : (exn + option AxiosResponse) * (Net * list Event) :=
  match remaining with
  | 0%nat => (inr None, st)
  | S remaining' =>
      let '(r, net') := get (fst st) url in
      let st' := (net', snd st ++ [EGet url]) in
      match r with
      | inr response => (inr (Some response), st')
      | inl error =>
          if (i =? maxRetries - 1)%Z then (inl error, st')
          else
            fetchWithRetry_loop remaining' (i + 1) maxRetries url
              (fst st', snd st' ++ [EWait (1000 * (i + 1))])
      end
  end.

Definition fetchWithRetry (url : jsstring) (maxRetries : Z)
  (st : Net * list Event)
  : (exn + option AxiosResponse) * (Net * list Event) :=
  fetchWithRetry_loop (Z.to_nat maxRetries) 0 maxRetries url st.

(** [s.includes(sub)] *)
Fixpoint includes (s sub : jsstring) : bool :=
  startsWith s sub
  || match s with
     | [] => false
     | _ :: s' => includes s' sub
     end.

Definition ARTICLE_SELECTORS : list jsstring :=
  [str "article a"; str ".list-content a"; str ".media__link";
   str ".media__title a"; str "h2 a, h3 a"].

(** [link && link.includes('detik.com') && !link.includes('#')] *)
Definition keeps_link (link : option jsstring) : bool :=
  match link with
  | Some l =>
      truthy l && includes l (str "detik.com")
      && negb (includes l (str "#"))
  | None => false
  end.

(** [links.add(link)] on a [Set], kept in insertion order. *)
Definition set_add (links : list jsstring) (l : jsstring)
  : list jsstring :=
  if bool_decide (l ∈ links) then links else links ++ [l].

(** [$(selector).each(...)] over the elements found. *)
Definition collect_links (links : list jsstring)
  (found : list (option jsstring)) : list jsstring :=
  fold_left
    (fun links link =>
       match link with
       | Some l => if keeps_link link then set_add links l else links
       | None => links
       end)
    found links.

(** [getArticleLinks]: whatever goes wrong gives [[]]; reading
    [.data] of [undefined] would be caught as well. *)
Definition getArticleLinks (url : jsstring) (st : Net * list Event)
  : list jsstring * (Net * list Event) :=
  match fetchWithRetry url 3 st with
  | (inr (Some response), st') =>
      match load (data response) with
      | inr page =>
          (fold_left
             (fun links selector =>
                collect_links links (hrefs page selector))
             ARTICLE_SELECTORS [],
           st')
      | inl error => ([], st')
      end
  | (inr None, st') => ([], st')
  | (inl error, st') => ([], st')
  end.
End Scraper.

(** [count] requests for [url] from counter [i] on, with the pause
    that follows each failed one but the last. *)
Fixpoint attempts (url : jsstring) (i : Z) (count : nat) : list Event :=
  match count with
  | 0%nat => []
  | S count' =>
      EGet url
      :: match count' with
         | 0%nat => []
         | S _ => EWait (1000 * (i + 1)) :: attempts url (i + 1) count'
         end
  end.

(** The answers of the network to [count] requests for [url] in a row,
    and the network after them. *)
Fixpoint replies {Net : Type}
  (get : Net -> jsstring -> (exn + AxiosResponse) * Net)
  (net : Net) (url : jsstring) (count : nat)
  : list (exn + AxiosResponse) * Net :=
  match count with
  | 0%nat => ([], net)
  | S count' =>
      let '(r, net') := get net url in
      let '(rs, net'') := replies get net' url count' in
      (r :: rs, net'')
  end.

(** The outcome of [fetchWithRetry] that ends on the answer [r]. *)
Definition outcome_of (r : exn + AxiosResponse)
  : exn + option AxiosResponse :=
  match r with
  | inl error => inl error
  | inr response => inr (Some response)
  end.

Definition rejected (r : exn + AxiosResponse) : Prop :=
  exists error, r = inl error.

(** * Theorems *)

(** The two examples of the specification. *)
Example preprocess_spec_example :
  preprocessText (str " a  b,c .d") = str "a b, c. d".
Proof. vm_compute. reflexivity. Qed.

Example split_spec_example :
  splitIntoChunks (str "Hello world. This is great!") 15
  = [str "Hello world."; str "This is great."].
Proof. vm_compute. reflexivity. Qed.


(** ** Character classes *)

Ltac char_prop :=
  unfold is_space, is_lower, is_upper, is_punct, is_delim, SP, DOT in *;
  rewrite ?orb_true_iff, ?andb_true_iff, ?N.eqb_eq, ?N.leb_le in *.

Lemma punct_not_space c : is_punct c = true -> is_space c = false.
Proof.
  intros H. apply not_true_iff_false. intros Hs. char_prop. lia.
Qed.

Lemma space_not_punct c : is_space c = true -> is_punct c = false.
Proof.
  intros H. apply not_true_iff_false. intros Hs. char_prop. lia.
Qed.

Lemma upper_not_space c : is_upper c = true -> is_space c = false.
Proof.
  intros H. apply not_true_iff_false. intros Hs. char_prop. lia.
Qed.

Lemma upper_not_lower c : is_upper c = true -> is_lower c = false.
Proof.
  intros H. apply not_true_iff_false. intros Hs. char_prop. lia.
Qed.

Lemma upper_not_punct c : is_upper c = true -> is_punct c = false.
Proof.
  intros H. apply not_true_iff_false. intros Hs. char_prop. lia.
Qed.

Lemma delim_punct c : is_delim c = true -> is_punct c = true.
Proof. intros H. char_prop. lia. Qed.

Lemma SP_space : is_space SP = true.
Proof. reflexivity. Qed.

(** ** The replacement engine *)

Lemma replace_fuel_enough m (Hm : shrinks m) n1 :
  forall n2 s,
    List.length s < n1 -> List.length s < n2 ->
    replace_fuel n1 m s = replace_fuel n2 m s.
Proof.
  induction n1 as [|n1 IH]; intros n2 s H1 H2; [lia|].
  destruct n2 as [|n2]; [lia|]. simpl.
  destruct (m s) as [[out rest]|] eqn:E.
  - f_equal. apply Hm in E. apply IH; lia.
  - destruct s as [|c s']; [reflexivity|]. f_equal.
    simpl in H1, H2. apply IH; lia.
Qed.

Lemma replace_all_unfold m (Hm : shrinks m) s :
  replace_all m s =
  match m s with
  | Some (out, rest) => out ++ replace_all m rest
  | None =>
      match s with
      | [] => []
      | c :: s' => c :: replace_all m s'
      end
  end.
Proof.
  unfold replace_all.
  change (replace_fuel (S (List.length s)) m s) with
    (match m s with
     | Some (out, rest) => out ++ replace_fuel (List.length s) m rest
     | None =>
         match s with
         | [] => []
         | c :: s' => c :: replace_fuel (List.length s) m s'
         end
     end).
  destruct (m s) as [[out rest]|] eqn:E.
  - f_equal. apply Hm in E. apply replace_fuel_enough; [exact Hm|lia|lia].
  - destruct s as [|c s']; [reflexivity|]. reflexivity.
Qed.

Lemma skip_ws_length s : List.length (skip_ws s) <= List.length s.
Proof.
  induction s as [|c s IH]; simpl; [lia|].
  destruct (is_space c); simpl; lia.
Qed.

Lemma shrinks_camel : shrinks re_camel.
Proof.
  intros [|a [|b r]] out rest H; simpl in H; try discriminate.
  destruct (is_lower a && is_upper b); inversion H; subst. simpl. lia.
Qed.

Lemma shrinks_spaces : shrinks re_spaces.
Proof.
  intros [|a r] out rest H; simpl in H; try discriminate.
  destruct (is_space a); inversion H; subst.
  pose proof (skip_ws_length r). simpl. lia.
Qed.

Lemma shrinks_space_punct : shrinks re_space_punct.
Proof.
  intros [|a r] out rest H; simpl in H; try discriminate.
  destruct (is_space a); [|discriminate].
  pose proof (skip_ws_length r) as Hl.
  destruct (skip_ws r) as [|p r']; [discriminate|].
  destruct (is_punct p); inversion H; subst. simpl in *. lia.
Qed.

Lemma shrinks_punct_glued : shrinks re_punct_glued.
Proof.
  intros [|a [|b r]] out rest H; simpl in H; try discriminate.
  destruct (is_punct a && negb (is_space b)); inversion H; subst.
  simpl. lia.
Qed.

(** Induction that follows a scan which may consume beyond the head. *)
Lemma jsstring_length_ind (P : jsstring -> Prop) :
  (forall s, (forall t, List.length t < List.length s -> P t) -> P s) ->
  forall s, P s.
Proof.
  intros H s. remember (List.length s) as n eqn:Hn.
  revert s Hn. induction n as [n IH] using lt_wf_ind.
  intros s ->. apply H. intros t Ht. eapply IH; [exact Ht|reflexivity].
Qed.


(** ** The replacements of the source are the per-unit forms *)

Lemma replace_camel s : replace_all re_camel s = camel s.
Proof.
  induction s as [s IH] using jsstring_length_ind.
  rewrite (replace_all_unfold _ shrinks_camel).
  destruct s as [|a [|b r]]; simpl.
  - reflexivity.
  - rewrite andb_false_r. rewrite IH by (simpl; lia). reflexivity.
  - destruct (is_lower a && is_upper b) eqn:E.
    + apply andb_true_iff in E as [_ Hb].
      rewrite IH by (simpl; lia).
      rewrite (upper_not_lower _ Hb). reflexivity.
    + rewrite IH by (simpl; lia). reflexivity.
Qed.

Lemma collapse_run a r :
  is_space a = true -> collapse (a :: r) = SP :: collapse (skip_ws r).
Proof.
  revert a. induction r as [|b r IH]; intros a Ha; simpl; rewrite Ha.
  - reflexivity.
  - destruct (is_space b) eqn:Hb.
    + rewrite <- (IH b Hb). simpl. rewrite Hb. reflexivity.
    + simpl. rewrite Hb. reflexivity.
Qed.

Lemma replace_spaces s : replace_all re_spaces s = collapse s.
Proof.
  induction s as [s IH] using jsstring_length_ind.
  rewrite (replace_all_unfold _ shrinks_spaces).
  destruct s as [|a r]; [reflexivity|].
  unfold re_spaces. destruct (is_space a) eqn:Ha.
  - rewrite (collapse_run _ _ Ha).
    rewrite IH; [reflexivity|].
    pose proof (skip_ws_length r). simpl. lia.
  - rewrite IH by (simpl; lia). simpl. rewrite Ha. reflexivity.
Qed.

Lemma unspace_run a r :
  is_space a = true -> punct_next r = true ->
  unspace (a :: r) = unspace (skip_ws r).
Proof.
  revert a. induction r as [|b r IH]; intros a Ha Hp.
  - discriminate.
  - change (unspace (a :: b :: r)) with
      (if is_space a && punct_next (b :: r) then unspace (b :: r)
       else a :: unspace (b :: r)).
    rewrite Ha, Hp. cbn [andb skip_ws].
    unfold punct_next in Hp. cbn [skip_ws] in Hp.
    destruct (is_space b) eqn:Hb; [|reflexivity].
    apply IH; assumption.
Qed.

Lemma replace_space_punct s : replace_all re_space_punct s = unspace s.
Proof.
  induction s as [s IH] using jsstring_length_ind.
  rewrite (replace_all_unfold _ shrinks_space_punct).
  destruct s as [|a r]; [reflexivity|].
  unfold re_space_punct. destruct (is_space a) eqn:Ha.
  - pose proof (skip_ws_length r) as Hl.
    destruct (skip_ws r) as [|p r'] eqn:Hs.
    + rewrite IH by (simpl; lia). cbn [unspace].
      unfold punct_next. rewrite Hs. cbn [starts_with].
      rewrite andb_false_r. reflexivity.
    + destruct (is_punct p) eqn:Hp.
      * rewrite unspace_run; [|exact Ha|unfold punct_next; rewrite Hs; exact Hp].
        rewrite Hs. cbn [unspace]. rewrite (punct_not_space _ Hp).
        cbn [andb app]. rewrite IH; [reflexivity|]. simpl in *. lia.
      * rewrite IH by (simpl; lia). cbn [unspace].
        unfold punct_next. rewrite Hs. cbn [starts_with]. rewrite Hp.
        rewrite andb_false_r. reflexivity.
  - rewrite IH by (simpl; lia). cbn [unspace]. rewrite Ha. reflexivity.
Qed.

Lemma replace_punct_glued s : replace_all re_punct_glued s = respace s.
Proof.
  induction s as [s IH] using jsstring_length_ind.
  rewrite (replace_all_unfold _ shrinks_punct_glued).
  destruct s as [|a [|b r]]; cbn [re_punct_glued respace].
  - reflexivity.
  - rewrite IH by (simpl; lia). destruct (is_punct a); reflexivity.
  - destruct (is_punct a) eqn:Ha; cbn [andb].
    + destruct (is_space b) eqn:Hb; cbn [negb].
      * rewrite IH by (simpl; lia). reflexivity.
      * rewrite IH by (simpl; lia). reflexivity.
    + rewrite IH by (simpl; lia). reflexivity.
Qed.

Lemma preprocessText_eq text :
  preprocessText text = trim (respace (unspace (collapse (camel text)))).
Proof.
  unfold preprocessText.
  rewrite replace_camel, replace_spaces, replace_space_punct,
    replace_punct_glued.
  reflexivity.
Qed.

(** ** Unfolding equations of the per-unit forms *)

Lemma respace_nonpunct a r :
  is_punct a = false -> respace (a :: r) = a :: respace r.
Proof. intros Ha. cbn [respace]. rewrite Ha. reflexivity. Qed.

Lemma respace_last a : respace [a] = [a].
Proof. cbn [respace]. destruct (is_punct a); reflexivity. Qed.

Lemma respace_punct_space a b r :
  is_punct a = true -> is_space b = true ->
  respace (a :: b :: r) = a :: respace (b :: r).
Proof.
  intros Ha Hb.
  change (respace (a :: b :: r)) with
    (if is_punct a then
       if is_space b then a :: respace (b :: r) else a :: SP :: b :: respace r
     else a :: respace (b :: r)).
  rewrite Ha, Hb. reflexivity.
Qed.

Lemma respace_punct_glued a b r :
  is_punct a = true -> is_space b = false ->
  respace (a :: b :: r) = a :: SP :: b :: respace r.
Proof.
  intros Ha Hb.
  change (respace (a :: b :: r)) with
    (if is_punct a then
       if is_space b then a :: respace (b :: r) else a :: SP :: b :: respace r
     else a :: respace (b :: r)).
  rewrite Ha, Hb. reflexivity.
Qed.

Lemma unspace_drop a r :
  is_space a = true -> punct_next r = true -> unspace (a :: r) = unspace r.
Proof. intros Ha Hp. cbn [unspace]. rewrite Ha, Hp. reflexivity. Qed.

Lemma unspace_keep a r :
  is_space a && punct_next r = false -> unspace (a :: r) = a :: unspace r.
Proof. intros H. cbn [unspace]. rewrite H. reflexivity. Qed.

Lemma unspace_nonspace a r :
  is_space a = false -> unspace (a :: r) = a :: unspace r.
Proof. intros Ha. apply unspace_keep. rewrite Ha. reflexivity. Qed.

(** ** What each replacement keeps at the head *)

Lemma starts_with_camel p s : starts_with p (camel s) = starts_with p s.
Proof.
  destruct s as [|a r]; [reflexivity|]. simpl.
  destruct (is_lower a && starts_with is_upper r); reflexivity.
Qed.

Lemma starts_with_respace p s : starts_with p (respace s) = starts_with p s.
Proof.
  destruct s as [|a [|b r]]; [reflexivity| |]; cbn [respace].
  - destruct (is_punct a); reflexivity.
  - destruct (is_punct a); [|reflexivity].
    destruct (is_space b); reflexivity.
Qed.

Lemma collapse_nonspace a r :
  is_space a = false -> collapse (a :: r) = a :: collapse r.
Proof. intros Ha. simpl. rewrite Ha. reflexivity. Qed.

Lemma starts_with_collapse p s :
  p SP = false -> starts_with p (collapse s) = true -> starts_with p s = true.
Proof.
  intros HSP. destruct s as [|a r]; [discriminate|].
  destruct (is_space a) eqn:Ha.
  - rewrite (collapse_run _ _ Ha). cbn [starts_with]. congruence.
  - rewrite (collapse_nonspace _ _ Ha). trivial.
Qed.

Lemma skip_ws_nonspace a r : is_space a = false -> skip_ws (a :: r) = a :: r.
Proof. intros Ha. simpl. rewrite Ha. reflexivity. Qed.

Lemma skip_ws_space a r : is_space a = true -> skip_ws (a :: r) = skip_ws r.
Proof. intros Ha. simpl. rewrite Ha. reflexivity. Qed.

Lemma punct_next_nonspace a r :
  is_space a = false -> punct_next (a :: r) = is_punct a.
Proof. intros Ha. unfold punct_next. rewrite (skip_ws_nonspace _ _ Ha). reflexivity. Qed.

Lemma skip_ws_unspace s : skip_ws (unspace s) = unspace (skip_ws s).
Proof.
  induction s as [|a r IH]; [reflexivity|].
  cbn [unspace]. destruct (is_space a) eqn:Ha.
  - rewrite (skip_ws_space _ _ Ha).
    destruct (punct_next r); cbn [andb]; [exact IH|].
    rewrite (skip_ws_space _ _ Ha). exact IH.
  - cbn [andb]. rewrite !(skip_ws_nonspace _ _ Ha).
    cbn [unspace]. rewrite Ha. reflexivity.
Qed.

Lemma skip_ws_respace s : skip_ws (respace s) = respace (skip_ws s).
Proof.
  induction s as [|a r IH]; [reflexivity|].
  destruct (is_space a) eqn:Ha.
  - rewrite (skip_ws_space _ _ Ha). cbn [respace].
    rewrite (space_not_punct _ Ha). rewrite (skip_ws_space _ _ Ha). exact IH.
  - rewrite (skip_ws_nonspace _ _ Ha).
    destruct r as [|b r']; cbn [respace].
    + destruct (is_punct a); apply skip_ws_nonspace, Ha.
    + destruct (is_punct a); [|apply skip_ws_nonspace, Ha].
      destruct (is_space b); apply skip_ws_nonspace, Ha.
Qed.

Lemma unspace_nil s : unspace s = [] -> s = [].
Proof.
  induction s as [|a r IH]; [reflexivity|]. cbn [unspace].
  destruct (is_space a && punct_next r) eqn:E; [|discriminate].
  intros H. apply IH in H. subst r.
  rewrite andb_true_iff in E. destruct E as [_ E]. discriminate.
Qed.

Lemma respace_nil s : respace s = [] -> s = [].
Proof.
  destruct s as [|a [|b r]]; [reflexivity| |]; cbn [respace].
  - destruct (is_punct a); discriminate.
  - destruct (is_punct a); [|discriminate].
    destruct (is_space b); discriminate.
Qed.

Lemma skip_ws_head s c t : skip_ws s = c :: t -> is_space c = false.
Proof.
  induction s as [|a r IH]; [discriminate|].
  simpl. destruct (is_space a) eqn:Ha; [exact IH|].
  intros H. inversion H; subst. exact Ha.
Qed.

Lemma punct_next_unspace s : punct_next (unspace s) = punct_next s.
Proof.
  unfold punct_next. rewrite skip_ws_unspace.
  destruct (skip_ws s) as [|c t] eqn:E; [reflexivity|].
  cbn [unspace]. rewrite (skip_ws_head _ _ _ E). reflexivity.
Qed.

Lemma punct_next_respace s : punct_next (respace s) = punct_next s.
Proof.
  unfold punct_next. rewrite skip_ws_respace. apply starts_with_respace.
Qed.

Lemma skip_ws_idem s : skip_ws (skip_ws s) = skip_ws s.
Proof.
  destruct (skip_ws s) as [|c t] eqn:E; [reflexivity|].
  apply skip_ws_nonspace. eapply skip_ws_head, E.
Qed.

(** ** [trim] *)

Lemma rtrim_nil s : rtrim s = [] <-> skip_ws s = [].
Proof.
  induction s as [|a r IH]; [tauto|]. simpl.
  destruct (rtrim r) as [|c t] eqn:E.
  - destruct (is_space a); [tauto|]. split; discriminate.
  - destruct (is_space a).
    + split; [discriminate|]. intros H. apply IH in H. discriminate.
    + split; discriminate.
Qed.

Lemma rtrim_cons_nonspace c s :
  is_space c = false -> rtrim (c :: s) = c :: rtrim s.
Proof.
  intros Hc. simpl. rewrite Hc. destruct (rtrim s); reflexivity.
Qed.

Lemma rtrim_cons_blank c s :
  is_space c = true -> skip_ws s = [] -> rtrim (c :: s) = [].
Proof.
  intros Hc Hs. apply rtrim_nil. rewrite (skip_ws_space _ _ Hc). exact Hs.
Qed.

Lemma rtrim_cons_nonblank c s :
  skip_ws s <> [] -> rtrim (c :: s) = c :: rtrim s.
Proof.
  intros Hs. simpl. destruct (rtrim s) eqn:E; [|reflexivity].
  apply rtrim_nil in E. contradiction.
Qed.

(** [rtrim] leaves the head alone, unless nothing is left. *)
Lemma rtrim_head s :
  rtrim s = [] \/ exists c r, s = c :: r /\ rtrim s = c :: rtrim r.
Proof.
  destruct s as [|c r]; [left; reflexivity|].
  destruct (rtrim (c :: r)) eqn:E; [left; reflexivity|]. right.
  exists c, r. split; [reflexivity|]. rewrite <- E.
  simpl in *. destruct (rtrim r); [|reflexivity].
  destruct (is_space c); [discriminate|reflexivity].
Qed.

Lemma starts_with_rtrim p s :
  starts_with p (rtrim s) = true -> starts_with p s = true.
Proof.
  destruct (rtrim_head s) as [->|(c & r & -> & ->)]; [discriminate|trivial].
Qed.

Lemma starts_with_rtrim_false p s :
  starts_with p s = false -> starts_with p (rtrim s) = false.
Proof.
  intros H. apply not_true_iff_false. intros Ht.
  apply starts_with_rtrim in Ht. congruence.
Qed.

Lemma skip_ws_rtrim s : skip_ws (rtrim s) = rtrim (skip_ws s).
Proof.
  induction s as [|a r IH]; [reflexivity|].
  destruct (is_space a) eqn:Ha.
  - rewrite (skip_ws_space _ _ Ha).
    destruct (skip_ws r) as [|c t] eqn:E.
    + rewrite (rtrim_cons_blank _ _ Ha E). reflexivity.
    + rewrite rtrim_cons_nonblank by (rewrite E; discriminate).
      rewrite (skip_ws_space _ _ Ha). exact IH.
  - rewrite (skip_ws_nonspace _ _ Ha), (rtrim_cons_nonspace _ _ Ha).
    apply skip_ws_nonspace, Ha.
Qed.

Lemma rtrim_idem s : rtrim (rtrim s) = rtrim s.
Proof.
  induction s as [|a r IH]; [reflexivity|].
  destruct (is_space a) eqn:Ha.
  - destruct (skip_ws r) as [|c t] eqn:E.
    + rewrite (rtrim_cons_blank _ _ Ha E). reflexivity.
    + assert (Hr : skip_ws r <> []) by (rewrite E; discriminate).
      rewrite (rtrim_cons_nonblank _ _ Hr).
      rewrite rtrim_cons_nonblank; [rewrite IH; reflexivity|].
      rewrite skip_ws_rtrim. intros H. apply rtrim_nil in H.
      rewrite skip_ws_idem in H. contradiction.
  - rewrite (rtrim_cons_nonspace _ _ Ha), (rtrim_cons_nonspace _ _ Ha), IH.
    reflexivity.
Qed.

Lemma trim_idem s : trim (trim s) = trim s.
Proof.
  unfold trim. rewrite skip_ws_rtrim, skip_ws_idem. apply rtrim_idem.
Qed.

Lemma skip_ws_snoc s c :
  skip_ws (s ++ [c]) =
  match skip_ws s with
  | [] => if is_space c then [] else [c]
  | t => t ++ [c]
  end.
Proof.
  induction s as [|a s IH]; [reflexivity|]. cbn [app skip_ws].
  destruct (is_space a); [exact IH|reflexivity].
Qed.

(** [rtrim] is [skip_ws] seen from the other end. *)
Lemma rtrim_rev s : rtrim s = rev (skip_ws (rev s)).
Proof.
  induction s as [|c s IH]; [reflexivity|].
  cbn [rtrim rev]. rewrite skip_ws_snoc, IH.
  destruct (skip_ws (rev s)) as [|a t]; cbn [rev].
  - destruct (is_space c); reflexivity.
  - rewrite rev_app_distr. cbn [rev app].
    destruct (rev t ++ [a]) eqn:E; [|reflexivity].
    destruct (rev t); discriminate.
Qed.

Lemma punct_next_rtrim s : punct_next (rtrim s) = punct_next s.
Proof.
  unfold punct_next. rewrite skip_ws_rtrim.
  destruct (skip_ws s) as [|c t] eqn:E; [reflexivity|].
  rewrite (rtrim_cons_nonspace _ _ (skip_ws_head _ _ _ E)). reflexivity.
Qed.

Lemma rtrim_unspace s : rtrim (unspace s) = unspace (rtrim s).
Proof.
  induction s as [|a r IH]; [reflexivity|].
  destruct (is_space a) eqn:Ha.
  - destruct (skip_ws r) as [|c t] eqn:E.
    + rewrite (rtrim_cons_blank _ _ Ha E).
      cbn [unspace]. unfold punct_next. rewrite E. cbn [starts_with].
      rewrite andb_false_r. apply rtrim_cons_blank; [exact Ha|].
      rewrite skip_ws_unspace, E. reflexivity.
    + assert (Hr : skip_ws r <> []) by (rewrite E; discriminate).
      rewrite (rtrim_cons_nonblank _ _ Hr). cbn [unspace].
      rewrite punct_next_rtrim, Ha.
      destruct (punct_next r); cbn [andb]; [exact IH|].
      rewrite rtrim_cons_nonblank; [rewrite IH; reflexivity|].
      rewrite skip_ws_unspace, E. intros H. apply unspace_nil in H.
      discriminate.
  - rewrite (rtrim_cons_nonspace _ _ Ha). cbn [unspace]. rewrite Ha.
    cbn [andb]. rewrite (rtrim_cons_nonspace _ _ Ha), IH. reflexivity.
Qed.

Lemma rtrim_respace s : rtrim (respace s) = respace (rtrim s).
Proof.
  induction s as [s IH] using jsstring_length_ind.
  destruct s as [|a r]; [reflexivity|].
  destruct (is_punct a) eqn:Hp.
  - pose proof (punct_not_space _ Hp) as Ha.
    rewrite (rtrim_cons_nonspace _ _ Ha).
    destruct r as [|b r'].
    + cbn [rtrim]. rewrite respace_last. apply rtrim_cons_nonspace, Ha.
    + destruct (is_space b) eqn:Hb.
      * rewrite (respace_punct_space _ _ _ Hp Hb).
        rewrite (rtrim_cons_nonspace _ _ Ha).
        rewrite IH by (simpl; lia).
        destruct (rtrim_head (b :: r')) as [->|(c & t & Hc & ->)].
        -- rewrite respace_last. reflexivity.
        -- inversion Hc; subst c t.
           rewrite (respace_punct_space _ _ _ Hp Hb). reflexivity.
      * rewrite (respace_punct_glued _ _ _ Hp Hb).
        rewrite (rtrim_cons_nonspace _ _ Hb).
        rewrite (respace_punct_glued _ _ _ Hp Hb).
        rewrite (rtrim_cons_nonspace _ _ Ha).
        rewrite rtrim_cons_nonblank
          by (rewrite (skip_ws_nonspace _ _ Hb); discriminate).
        rewrite (rtrim_cons_nonspace _ _ Hb).
        rewrite IH by (simpl; lia). reflexivity.
  - rewrite (respace_nonpunct _ _ Hp).
    destruct (is_space a) eqn:Ha.
    + destruct (skip_ws r) as [|c t] eqn:E.
      * rewrite (rtrim_cons_blank _ _ Ha E).
        apply rtrim_cons_blank; [exact Ha|].
        rewrite skip_ws_respace, E. reflexivity.
      * assert (Hr : skip_ws r <> []) by (rewrite E; discriminate).
        rewrite (rtrim_cons_nonblank _ _ Hr).
        rewrite (respace_nonpunct _ _ Hp).
        rewrite rtrim_cons_nonblank; [rewrite IH by (simpl; lia); reflexivity|].
        rewrite skip_ws_respace, E. intros H. apply respace_nil in H.
        discriminate.
    + rewrite !(rtrim_cons_nonspace _ _ Ha).
      rewrite (respace_nonpunct _ _ Hp).
      rewrite IH by (simpl; lia). reflexivity.
Qed.

Lemma trim_unspace s : trim (unspace s) = unspace (trim s).
Proof. unfold trim. rewrite skip_ws_unspace. apply rtrim_unspace. Qed.

Lemma trim_respace s : trim (respace s) = respace (trim s).
Proof. unfold trim. rewrite skip_ws_respace. apply rtrim_respace. Qed.

(** ** What the later replacements keep of the earlier ones *)

Lemma camel_nocamel s : nocamel (camel s).
Proof.
  induction s as [|a r IH]; [exact I|]. cbn [camel].
  destruct (is_lower a && starts_with is_upper r) eqn:E.
  - split; [apply andb_false_r|]. split; [reflexivity|exact IH].
  - split; [|exact IH]. rewrite starts_with_camel. exact E.
Qed.

Lemma camel_fixed s : nocamel s -> camel s = s.
Proof.
  induction s as [|a r IH]; [reflexivity|]. intros [E H].
  cbn [camel]. rewrite E, (IH H). reflexivity.
Qed.

Lemma nocamel_head a r :
  nocamel r ->
  (starts_with is_upper r = true -> is_lower a = false) ->
  nocamel (a :: r).
Proof.
  intros Hr Hu. split; [|exact Hr].
  destruct (starts_with is_upper r); [|apply andb_false_r].
  rewrite Hu by reflexivity. reflexivity.
Qed.

Lemma nocamel_tail a r : nocamel (a :: r) -> nocamel r.
Proof. intros [_ H]. exact H. Qed.

Lemma nocamel_upper a r :
  nocamel (a :: r) -> starts_with is_upper r = true -> is_lower a = false.
Proof.
  intros [E _] Hu. rewrite Hu, andb_true_r in E. exact E.
Qed.

Lemma collapse_nocamel s : nocamel s -> nocamel (collapse s).
Proof.
  induction s as [|a r IH]; [trivial|]. intros H.
  pose proof (IH (nocamel_tail _ _ H)) as Hr.
  cbn [collapse]. destruct (is_space a) eqn:Ha.
  - destruct (starts_with is_space r); [exact Hr|].
    apply nocamel_head; [exact Hr|reflexivity].
  - apply nocamel_head; [exact Hr|]. intros Hu.
    apply (nocamel_upper _ _ H).
    apply starts_with_collapse; [reflexivity|exact Hu].
Qed.

Lemma starts_with_unspace_upper s :
  starts_with is_upper (unspace s) = true -> starts_with is_upper s = true.
Proof.
  induction s as [|a r IH]; [trivial|]. cbn [unspace].
  destruct (is_space a) eqn:Ha; [|trivial].
  destruct (punct_next r) eqn:Hp; cbn [andb]; [|trivial].
  intros Hu. exfalso.
  assert (Hq : punct_next (unspace r) = true)
    by (rewrite punct_next_unspace; exact Hp).
  destruct (unspace r) as [|c t]; [discriminate|].
  cbn [starts_with] in Hu. rewrite (punct_next_nonspace _ _ (upper_not_space _ Hu)) in Hq.
  rewrite (upper_not_punct _ Hu) in Hq. discriminate.
Qed.

Lemma unspace_nocamel s : nocamel s -> nocamel (unspace s).
Proof.
  induction s as [|a r IH]; [trivial|]. intros H.
  pose proof (IH (nocamel_tail _ _ H)) as Hr.
  cbn [unspace]. destruct (is_space a && punct_next r); [exact Hr|].
  apply nocamel_head; [exact Hr|]. intros Hu.
  apply (nocamel_upper _ _ H), starts_with_unspace_upper, Hu.
Qed.

Lemma respace_nocamel s : nocamel s -> nocamel (respace s).
Proof.
  induction s as [s IH] using jsstring_length_ind.
  destruct s as [|a r]; [trivial|]. intros H.
  destruct (is_punct a) eqn:Hp.
  - destruct r as [|b r']; [rewrite respace_last; exact H|].
    destruct (is_space b) eqn:Hb.
    + rewrite (respace_punct_space _ _ _ Hp Hb).
      apply nocamel_head.
      * apply IH; [simpl; lia|exact (nocamel_tail _ _ H)].
      * rewrite starts_with_respace. apply (nocamel_upper _ _ H).
    + rewrite (respace_punct_glued _ _ _ Hp Hb).
      apply nocamel_head; [|discriminate].
      apply nocamel_head; [|reflexivity].
      apply nocamel_head.
      * apply IH; [simpl; lia|]. apply (nocamel_tail b), (nocamel_tail a), H.
      * rewrite starts_with_respace.
        apply (nocamel_upper _ _ (nocamel_tail _ _ H)).
  - rewrite (respace_nonpunct _ _ Hp). apply nocamel_head.
    + apply IH; [simpl; lia|exact (nocamel_tail _ _ H)].
    + rewrite starts_with_respace. apply (nocamel_upper _ _ H).
Qed.

Lemma skip_ws_nocamel s : nocamel s -> nocamel (skip_ws s).
Proof.
  induction s as [|a r IH]; [trivial|]. intros H. simpl.
  destruct (is_space a); [apply IH, (nocamel_tail _ _ H)|exact H].
Qed.

Lemma rtrim_nocamel s : nocamel s -> nocamel (rtrim s).
Proof.
  induction s as [|a r IH]; [trivial|]. intros H.
  destruct (rtrim_head (a :: r)) as [->|(c & t & Hc & ->)]; [exact I|].
  inversion Hc; subst c t. apply nocamel_head.
  - apply IH, (nocamel_tail _ _ H).
  - intros Hu. apply (nocamel_upper _ _ H), starts_with_rtrim, Hu.
Qed.

Lemma trim_nocamel s : nocamel s -> nocamel (trim s).
Proof. intros H. apply rtrim_nocamel, skip_ws_nocamel, H. Qed.

Lemma single_spaced_tail a r : single_spaced (a :: r) -> single_spaced r.
Proof. intros [_ H]. exact H. Qed.

Lemma starts_with_space_collapse s :
  starts_with is_space s = false -> starts_with is_space (collapse s) = false.
Proof.
  destruct s as [|b r]; [trivial|]. cbn [starts_with]. intros Hb.
  rewrite (collapse_nonspace _ _ Hb). exact Hb.
Qed.

Lemma collapse_single_spaced s : single_spaced (collapse s).
Proof.
  induction s as [|a r IH]; [exact I|]. cbn [collapse].
  destruct (is_space a) eqn:Ha.
  - destruct (starts_with is_space r) eqn:Hr; [exact IH|].
    split; [|exact IH]. intros _. split; [reflexivity|].
    apply starts_with_space_collapse, Hr.
  - split; [|exact IH]. intros Hs. congruence.
Qed.

Lemma collapse_fixed s : single_spaced s -> collapse s = s.
Proof.
  induction s as [|a r IH]; [reflexivity|]. intros [E H].
  cbn [collapse]. rewrite (IH H).
  destruct (is_space a); [|reflexivity].
  destruct E as [-> ->]; reflexivity.
Qed.

Lemma single_spaced_head a r :
  single_spaced r ->
  (is_space a = true -> a = SP /\ starts_with is_space r = false) ->
  single_spaced (a :: r).
Proof. intros Hr Ha. split; assumption. Qed.

Lemma starts_with_space_unspace s :
  starts_with is_space s = false -> starts_with is_space (unspace s) = false.
Proof.
  destruct s as [|b r]; [trivial|]. cbn [starts_with]. intros Hb.
  rewrite (unspace_nonspace _ _ Hb). exact Hb.
Qed.

Lemma unspace_single_spaced s : single_spaced s -> single_spaced (unspace s).
Proof.
  induction s as [|a r IH]; [trivial|]. intros [E H].
  cbn [unspace]. destruct (is_space a && punct_next r); [exact (IH H)|].
  apply single_spaced_head; [exact (IH H)|]. intros Ha.
  destruct (E Ha) as [-> Hr]. split; [reflexivity|].
  apply starts_with_space_unspace, Hr.
Qed.

Lemma respace_single_spaced s : single_spaced s -> single_spaced (respace s).
Proof.
  induction s as [s IH] using jsstring_length_ind.
  destruct s as [|a r]; [trivial|]. intros [E H].
  destruct (is_punct a) eqn:Hp.
  - pose proof (punct_not_space _ Hp) as Ha.
    destruct r as [|b r']; [rewrite respace_last; split; assumption|].
    destruct (is_space b) eqn:Hb.
    + rewrite (respace_punct_space _ _ _ Hp Hb).
      apply single_spaced_head; [|congruence].
      apply IH; [simpl; lia|exact H].
    + rewrite (respace_punct_glued _ _ _ Hp Hb).
      apply single_spaced_head; [|congruence].
      apply single_spaced_head; [|intros _; split; [reflexivity|exact Hb]].
      apply single_spaced_head; [|congruence].
      apply IH; [simpl; lia|exact (single_spaced_tail _ _ H)].
  - rewrite (respace_nonpunct _ _ Hp).
    apply single_spaced_head; [apply IH; [simpl; lia|exact H]|].
    intros Ha. destruct (E Ha) as [-> Hr]. split; [reflexivity|].
    rewrite starts_with_respace. exact Hr.
Qed.

Lemma skip_ws_single_spaced s : single_spaced s -> single_spaced (skip_ws s).
Proof.
  induction s as [|a r IH]; [trivial|]. intros H. simpl.
  destruct (is_space a); [apply IH, (single_spaced_tail _ _ H)|exact H].
Qed.

Lemma rtrim_single_spaced s : single_spaced s -> single_spaced (rtrim s).
Proof.
  induction s as [|a r IH]; [trivial|]. intros [E H].
  destruct (rtrim_head (a :: r)) as [->|(c & t & Hc & ->)]; [exact I|].
  inversion Hc; subst c t.
  apply single_spaced_head; [exact (IH H)|]. intros Ha.
  destruct (E Ha) as [-> Hr]. split; [reflexivity|].
  apply starts_with_rtrim_false, Hr.
Qed.

Lemma trim_single_spaced s : single_spaced s -> single_spaced (trim s).
Proof. intros H. apply rtrim_single_spaced, skip_ws_single_spaced, H. Qed.

Lemma unspace_tight s : tight (unspace s).
Proof.
  induction s as [|a r IH]; [exact I|]. cbn [unspace].
  destruct (is_space a && punct_next r) eqn:E; [exact IH|].
  split; [|exact IH]. intros Ha. rewrite punct_next_unspace.
  rewrite Ha in E. exact E.
Qed.

Lemma tight_tail a r : tight (a :: r) -> tight r.
Proof. intros [_ H]. exact H. Qed.

Lemma tight_keep a r : tight (a :: r) -> is_space a && punct_next r = false.
Proof.
  intros [E _]. destruct (is_space a); [exact (E eq_refl)|reflexivity].
Qed.

(** After the third replacement, the fourth one survives a second run
    of the third and fourth. *)
Lemma respace_unspace_respace s :
  tight s -> respace (unspace (respace s)) = respace s.
Proof.
  induction s as [s IH] using jsstring_length_ind.
  destruct s as [|a r]; [reflexivity|]. intros H.
  pose proof (tight_keep _ _ H) as Hk.
  pose proof (tight_tail _ _ H) as Hr.
  destruct (is_punct a) eqn:Hp.
  - pose proof (punct_not_space _ Hp) as Ha.
    destruct r as [|b r'].
    { rewrite respace_last, (unspace_nonspace _ _ Ha). apply respace_last. }
    destruct (is_space b) eqn:Hb.
    + rewrite (respace_punct_space _ _ _ Hp Hb).
      rewrite (unspace_nonspace _ _ Ha).
      pose proof (IH (b :: r') ltac:(simpl; lia) Hr) as IHr.
      rewrite (respace_nonpunct _ _ (space_not_punct _ Hb)) in IHr |- *.
      rewrite unspace_keep in IHr |- *
        by (rewrite punct_next_respace; apply (tight_keep _ _ Hr)).
      rewrite (respace_punct_space _ _ _ Hp Hb). rewrite IHr. reflexivity.
    + rewrite (respace_punct_glued _ _ _ Hp Hb).
      rewrite (unspace_nonspace _ _ Ha).
      pose proof (IH r' ltac:(simpl; lia) (tight_tail _ _ Hr)) as IHr.
      destruct (is_punct b) eqn:Hq.
      * rewrite unspace_drop;
          [|reflexivity|rewrite (punct_next_nonspace _ _ Hb); exact Hq].
        rewrite (unspace_nonspace _ _ Hb).
        rewrite (respace_punct_glued _ _ _ Hp Hb), IHr. reflexivity.
      * rewrite unspace_keep
          by (rewrite (punct_next_nonspace _ _ Hb), Hq; reflexivity).
        rewrite (unspace_nonspace _ _ Hb).
        rewrite (respace_punct_space _ _ _ Hp SP_space).
        rewrite (respace_nonpunct SP) by reflexivity.
        rewrite (respace_nonpunct _ _ Hq), IHr. reflexivity.
  - rewrite (respace_nonpunct _ _ Hp).
    rewrite unspace_keep by (rewrite punct_next_respace; exact Hk).
    rewrite (respace_nonpunct _ _ Hp).
    rewrite (IH r ltac:(simpl; lia) Hr). reflexivity.
Qed.

(** C2.  [preprocessText] is idempotent: normalising a normalised text
    changes nothing, for every string of code units. *)
Theorem preprocessText_idempotent (x : jsstring) :
  preprocessText (preprocessText x) = preprocessText x.
Proof.
  rewrite !preprocessText_eq.
  set (v := camel x). set (w := collapse v). set (y := unspace w).
  set (z := respace y).
  assert (Hz1 : nocamel z)
    by (apply respace_nocamel, unspace_nocamel, collapse_nocamel,
          camel_nocamel).
  assert (Hz2 : single_spaced z)
    by (apply respace_single_spaced, unspace_single_spaced,
          collapse_single_spaced).
  rewrite (camel_fixed _ (trim_nocamel _ Hz1)).
  rewrite (collapse_fixed _ (trim_single_spaced _ Hz2)).
  rewrite <- trim_unspace, <- trim_respace, trim_idem.
  unfold z. rewrite (respace_unspace_respace y (unspace_tight w)).
  reflexivity.
Qed.

(** ** The chunker *)

Lemma str_dot : str "." = [DOT].
Proof. reflexivity. Qed.

Lemma str_dot_sp : str ". " = [DOT; SP].
Proof. reflexivity. Qed.

Lemma truthy_join g :
  Forall (fun t => truthy t = true) g ->
  truthy (join_sentences g) = match g with [] => false | _ :: _ => true end.
Proof.
  intros H. destruct g as [|t [|u g']]; [reflexivity| |].
  - inversion H; subst. assumption.
  - inversion H; subst. cbn [join_sentences].
    destruct t; [discriminate|reflexivity].
Qed.

Lemma join_snoc g t :
  join_sentences (g ++ [t]) =
  join_sentences g
    ++ (match g with [] => [] | _ :: _ => str ". " end) ++ t.
Proof.
  induction g as [|u g IH]; [reflexivity|].
  destruct g as [|v g'].
  - reflexivity.
  - change (join_sentences ((u :: v :: g') ++ [t])) with
      (u ++ str ". " ++ join_sentences ((v :: g') ++ [t])).
    rewrite IH.
    change (join_sentences (u :: v :: g')) with
      (u ++ str ". " ++ join_sentences (v :: g')).
    rewrite <- !app_assoc. reflexivity.
Qed.

(** One turn of the loop of the source is one turn on groups. *)
Lemma chunk_step_groups size gs g seg :
  Forall (fun t => truthy t = true) g ->
  chunk_step size (List.map render gs, join_sentences g) seg =
  (let '(gs', g') :=
     fold_left (group_step size) (List.filter truthy [trim seg]) (gs, g) in
   (List.map render gs', join_sentences g')).
Proof.
  intros Hg. unfold chunk_step. cbn [List.filter].
  destruct (truthy (trim seg)) eqn:Ht; cbn [negb fold_left]; [|reflexivity].
  unfold group_step.
  destruct (jslength (join_sentences g) + jslength (trim seg) + 1 <=? size)%Z.
  - rewrite join_snoc, (truthy_join _ Hg). destruct g; reflexivity.
  - rewrite (truthy_join _ Hg). destruct g; [reflexivity|].
    rewrite List.map_app. reflexivity.
Qed.

Lemma group_step_truthy size gs g t :
  truthy t = true ->
  Forall (fun t => truthy t = true) g ->
  Forall (fun t => truthy t = true) (snd (group_step size (gs, g) t)).
Proof.
  intros Ht Hg. unfold group_step.
  destruct (_ <=? _)%Z; cbn [snd].
  - apply Forall_app; split; [exact Hg|]. constructor; [exact Ht|constructor].
  - constructor; [exact Ht|constructor].
Qed.

Lemma filter_truthy_all segs :
  Forall (fun t => truthy t = true) (List.filter truthy segs).
Proof.
  induction segs as [|x segs IH]; [constructor|]. simpl.
  destruct (truthy x) eqn:E; [constructor; assumption|assumption].
Qed.

Lemma fold_chunk_step_groups size segs :
  forall gs g,
    Forall (fun t => truthy t = true) g ->
    fold_left (chunk_step size) segs (List.map render gs, join_sentences g) =
    (let '(gs', g') :=
       fold_left (group_step size)
         (List.filter truthy (List.map trim segs)) (gs, g) in
     (List.map render gs', join_sentences g')).
Proof.
  induction segs as [|seg segs IH]; intros gs g Hg; [reflexivity|].
  cbn [fold_left List.map]. rewrite (chunk_step_groups _ _ _ _ Hg).
  cbn [List.filter]. destruct (truthy (trim seg)) eqn:Ht; cbn [fold_left].
  - pose proof (group_step_truthy size gs g _ Ht Hg) as Hg'.
    destruct (group_step size (gs, g) (trim seg)) as [gs' g'].
    apply IH. exact Hg'.
  - apply IH. exact Hg.
Qed.

Lemma fold_group_step_truthy size ts :
  forall gs g,
    Forall (fun t => truthy t = true) ts ->
    Forall (fun t => truthy t = true) g ->
    Forall (fun t => truthy t = true)
      (snd (fold_left (group_step size) ts (gs, g))).
Proof.
  induction ts as [|t ts IH]; intros gs g Hts Hg; [exact Hg|].
  inversion Hts; subst. cbn [fold_left].
  pose proof (group_step_truthy size gs g t ltac:(assumption) Hg) as Hg'.
  destruct (group_step size (gs, g) t) as [gs' g']. apply IH; assumption.
Qed.

(** [splitIntoChunks] renders the groups that the loop forms from the
    sentences of the clean text. *)
Lemma splitIntoChunks_groups text size :
  splitIntoChunks text size =
  List.map render (chunk_groups size (sentences_of (preprocessText text))).
Proof.
  unfold splitIntoChunks, chunk_groups, sentences_of.
  rewrite (fold_chunk_step_groups size _ [] []) by constructor.
  pose proof (fold_group_step_truthy size
    (List.filter truthy (List.map trim (split_sentences (preprocessText text))))
    [] [] (filter_truthy_all _) ltac:(constructor)) as Hg.
  destruct (fold_left _ _ _) as [gs g]. cbn [snd] in Hg.
  rewrite (truthy_join _ Hg). unfold close_groups.
  destruct g; [reflexivity|]. rewrite List.map_app. reflexivity.
Qed.

(** The groups are the sentences, in order, each one once. *)
Lemma fold_group_step_concat size ts :
  forall gs g,
    let '(gs', g') := fold_left (group_step size) ts (gs, g) in
    List.concat gs' ++ g' = List.concat gs ++ g ++ ts.
Proof.
  induction ts as [|t ts IH]; intros gs g.
  - cbn [fold_left]. rewrite app_nil_r. reflexivity.
  - cbn [fold_left]. unfold group_step at 2.
    destruct (_ <=? _)%Z.
    + specialize (IH gs (g ++ [t])).
      destruct (fold_left _ _ _) as [gs' g']. rewrite IH.
      rewrite <- !app_assoc. reflexivity.
    + destruct g as [|u g].
      * specialize (IH gs [t]). destruct (fold_left _ _ _) as [gs' g'].
        rewrite IH. reflexivity.
      * specialize (IH (gs ++ [u :: g]) [t]).
        destruct (fold_left _ _ _) as [gs' g']. rewrite IH.
        rewrite concat_app. cbn [List.concat]. rewrite app_nil_r.
        rewrite <- !app_assoc. reflexivity.
Qed.

Lemma chunk_groups_concat size ts : List.concat (chunk_groups size ts) = ts.
Proof.
  unfold chunk_groups.
  pose proof (fold_group_step_concat size ts [] []) as H.
  destruct (fold_left _ _ _) as [gs g]. cbn in H. unfold close_groups.
  destruct g as [|u g].
  - rewrite app_nil_r in H. exact H.
  - rewrite concat_app. cbn [List.concat]. rewrite app_nil_r. exact H.
Qed.

Lemma fold_group_step_nonempty size ts :
  forall gs g,
    Forall (fun g => g <> []) gs ->
    Forall (fun g => g <> []) (fst (fold_left (group_step size) ts (gs, g))).
Proof.
  induction ts as [|t ts IH]; intros gs g Hgs; [exact Hgs|].
  cbn [fold_left]. unfold group_step at 2.
  destruct (_ <=? _)%Z; [apply IH, Hgs|].
  destruct g as [|u g]; [apply IH, Hgs|].
  apply IH. apply Forall_app; split; [exact Hgs|].
  constructor; [discriminate|constructor].
Qed.

Lemma chunk_groups_nonempty size ts :
  Forall (fun g => g <> []) (chunk_groups size ts).
Proof.
  unfold chunk_groups.
  pose proof (fold_group_step_nonempty size ts [] [] ltac:(constructor)) as H.
  destruct (fold_left _ _ _) as [gs g]. cbn [fst] in H. unfold close_groups.
  destruct g as [|u g]; [exact H|].
  apply Forall_app; split; [exact H|]. constructor; [discriminate|constructor].
Qed.

(** ** The sentences the loop meets *)

Lemma split_go_nodelim s :
  forall b cur,
    Forall (fun c => is_delim c = false) cur ->
    Forall (Forall (fun c => is_delim c = false)) (split_go b cur s).
Proof.
  induction s as [|c s IH]; intros b cur Hcur; cbn [split_go].
  - constructor; [exact Hcur|constructor].
  - destruct (is_delim c) eqn:Hc.
    + destruct b; [apply IH; constructor|].
      constructor; [exact Hcur|]. apply IH. constructor.
    + apply IH. apply Forall_app; split; [exact Hcur|].
      constructor; [exact Hc|constructor].
Qed.

Lemma skip_ws_Forall (P : N -> Prop) s : Forall P s -> Forall P (skip_ws s).
Proof.
  induction s as [|c s IH]; [trivial|]. intros H. simpl.
  destruct (is_space c); [|exact H]. inversion H; subst. auto.
Qed.

Lemma rtrim_Forall (P : N -> Prop) s : Forall P s -> Forall P (rtrim s).
Proof.
  induction s as [|c s IH]; [trivial|]. intros H. inversion H; subst.
  destruct (rtrim_head (c :: s)) as [->|(c' & t & Hc & ->)]; [constructor|].
  inversion Hc; subst. constructor; auto.
Qed.

Lemma trim_sentence_ok seg :
  Forall (fun c => is_delim c = false) seg ->
  truthy (trim seg) = true -> sentence_ok (trim seg).
Proof.
  intros Hseg Ht. split; [exact Ht|]. split; [apply trim_idem|].
  apply rtrim_Forall, skip_ws_Forall, Hseg.
Qed.

Lemma sentences_of_ok clean : Forall sentence_ok (sentences_of clean).
Proof.
  unfold sentences_of, split_sentences.
  pose proof (split_go_nodelim clean false [] ltac:(constructor)) as H.
  induction H as [|seg segs Hseg _ IH]; [constructor|].
  cbn [List.map List.filter].
  destruct (truthy (trim seg)) eqn:Ht; [|exact IH].
  constructor; [apply trim_sentence_ok; assumption|exact IH].
Qed.

Lemma sentence_ok_skip_ws t : sentence_ok t -> skip_ws t = t.
Proof.
  intros (_ & Ht & _). rewrite <- Ht at 2. rewrite <- Ht at 1.
  unfold trim. rewrite skip_ws_rtrim, skip_ws_idem. reflexivity.
Qed.

Lemma sentence_ok_head t : sentence_ok t -> starts_with is_space t = false.
Proof.
  intros H. pose proof (sentence_ok_skip_ws _ H) as Hs.
  destruct H as (Ht & _ & _). destruct t as [|c t]; [discriminate|].
  cbn [starts_with]. eapply skip_ws_head, Hs.
Qed.

Lemma sentence_ok_trim t : sentence_ok t -> trim t = t.
Proof. intros (_ & Ht & _). exact Ht. Qed.

(** ** Reading the sentences back from a chunk *)

Lemma split_go_app t :
  Forall (fun c => is_delim c = false) t ->
  forall cur s, split_go false cur (t ++ s) = split_go false (cur ++ t) s.
Proof.
  induction 1 as [|c t Hc _ IH]; intros cur s.
  - rewrite app_nil_r. reflexivity.
  - cbn [app split_go]. rewrite Hc, IH, <- app_assoc. reflexivity.
Qed.

Lemma skip_ws_app_blank pre t : skip_ws pre = [] -> skip_ws (pre ++ t) = skip_ws t.
Proof.
  induction pre as [|c pre IH]; [trivial|]. simpl.
  destruct (is_space c); [exact IH|discriminate].
Qed.

Lemma render_cons t u g :
  render (t :: u :: g) = t ++ DOT :: SP :: render (u :: g).
Proof.
  unfold render.
  change (join_sentences (t :: u :: g)) with
    (t ++ str ". " ++ join_sentences (u :: g)).
  rewrite str_dot_sp, <- !app_assoc. reflexivity.
Qed.

Lemma render_single t : render [t] = t ++ [DOT].
Proof. reflexivity. Qed.

Lemma sentences_of_render_from g :
  g <> [] -> Forall sentence_ok g ->
  forall pre,
    skip_ws pre = [] -> Forall (fun c => is_delim c = false) pre ->
    List.filter truthy (List.map trim (split_go false pre (render g))) = g.
Proof.
  induction g as [|t g IH]; [congruence|]. intros _ Hg pre Hpre Hnd.
  inversion Hg as [|? ? Ht Hg']; subst.
  assert (Htrim : trim (pre ++ t) = t).
  { unfold trim. rewrite (skip_ws_app_blank _ _ Hpre).
    apply (sentence_ok_trim _ Ht). }
  destruct Ht as (Htt & _ & Htd).
  destruct g as [|u g].
  - rewrite render_single, (split_go_app _ Htd). cbn [split_go].
    change (is_delim DOT) with true. cbn [List.map List.filter].
    rewrite Htrim, Htt. reflexivity.
  - rewrite render_cons, (split_go_app _ Htd). cbn [split_go].
    change (is_delim DOT) with true. change (is_delim SP) with false.
    cbn iota. cbn [List.map List.filter app]. rewrite Htrim, Htt. f_equal.
    apply IH; [discriminate|exact Hg'|reflexivity|].
    constructor; [reflexivity|constructor].
Qed.

Lemma sentences_of_render g :
  g <> [] -> Forall sentence_ok g -> sentences_of (render g) = g.
Proof.
  intros Hne Hg. unfold sentences_of, split_sentences.
  apply sentences_of_render_from; [exact Hne|exact Hg|reflexivity|constructor].
Qed.

Lemma Forall_concat_inv {A} (P : A -> Prop) (ls : list (list A)) :
  Forall P (List.concat ls) -> Forall (Forall P) ls.
Proof.
  induction ls as [|l ls IH]; [constructor|]. cbn [List.concat].
  intros H. apply Forall_app in H as [H1 H2]. constructor; auto.
Qed.

Lemma sentences_of_chunks gs :
  Forall (fun g => g <> []) gs -> Forall (Forall sentence_ok) gs ->
  List.concat (List.map sentences_of (List.map render gs)) = List.concat gs.
Proof.
  induction 1 as [|g gs Hg _ IH]; [reflexivity|]. intros Hok.
  inversion Hok; subst. cbn [List.map List.concat].
  rewrite sentences_of_render by assumption. f_equal. auto.
Qed.

(** ** The sentences, in the words of the specification *)

Lemma delim_spec c : is_delim c = true <-> spec_delimiter c.
Proof.
  unfold is_delim, spec_delimiter.
  rewrite !orb_true_iff, !N.eqb_eq. tauto.
Qed.

Lemma nodelim_spec c : is_delim c = false <-> ~ spec_delimiter c.
Proof.
  rewrite <- delim_spec. destruct (is_delim c); split.
  - discriminate.
  - intros H. exfalso. apply H. reflexivity.
  - intros _ H. discriminate.
  - reflexivity.
Qed.

Lemma spec_segments_cons c s seg segs :
  ~ spec_delimiter c -> spec_segments s (seg :: segs) ->
  spec_segments (c :: s) ((c :: seg) :: segs).
Proof.
  intros Hc H. inversion H as [seg' Hseg|seg' d rest segs' Hseg Hd Hrest];
    subst.
  - apply segments_last. constructor; assumption.
  - change (c :: seg ++ d :: rest) with ((c :: seg) ++ d :: rest).
    apply segments_more; [constructor; assumption|assumption|assumption].
Qed.

(** What [split_go] gives, read as a cut of the text: the empty pieces
    that it leaves out between two delimiters are not sentences. *)
Lemma split_go_segments s :
  forall in_run cur,
    (in_run = true -> cur = []) ->
    exists seg segs,
      spec_segments s (seg :: segs)
      /\ List.filter truthy (List.map trim (split_go in_run cur s))
         = List.filter truthy (List.map trim ((cur ++ seg) :: segs)).
Proof.
  induction s as [|c s IH]; intros in_run cur Hrun.
  - exists [], []. split; [apply segments_last; constructor|].
    cbn [split_go]. rewrite app_nil_r. reflexivity.
  - cbn [split_go]. destruct (is_delim c) eqn:Hc.
    + destruct (IH true [] ltac:(reflexivity)) as (seg & segs & Hcut & Heq).
      exists [], (seg :: segs). split.
      * change (c :: s) with ([] ++ c :: s).
        apply segments_more; [constructor|apply delim_spec, Hc|exact Hcut].
      * rewrite app_nil_r. cbn [app] in Heq.
        destruct in_run.
        -- rewrite (Hrun eq_refl). rewrite Heq. reflexivity.
        -- cbn [List.map List.filter]. rewrite Heq. reflexivity.
    + destruct (IH false (cur ++ [c]) ltac:(discriminate))
        as (seg & segs & Hcut & Heq).
      exists (c :: seg), segs. split.
      * apply spec_segments_cons; [apply nodelim_spec, Hc|exact Hcut].
      * rewrite Heq, <- app_assoc. reflexivity.
Qed.

Lemma sentences_of_spec s : spec_sentences s (sentences_of s).
Proof.
  unfold sentences_of, split_sentences.
  destruct (split_go_segments s false [] ltac:(discriminate))
    as (seg & segs & Hcut & Heq).
  exists (seg :: segs). split; [exact Hcut|exact Heq].
Qed.

Lemma trim_cons_space c s : is_space c = true -> trim (c :: s) = trim s.
Proof. intros H. unfold trim. rewrite (skip_ws_space _ _ H). reflexivity. Qed.

(** A chunk without its final ['.'], cut at the delimiters, gives back
    the sentences it was made of. *)
Lemma join_sentences_spec g :
  g <> [] -> Forall sentence_ok g ->
  exists seg segs,
    spec_segments (join_sentences g) (seg :: segs)
    /\ List.filter truthy (List.map trim (seg :: segs)) = g.
Proof.
  induction g as [|t g IH]; [contradiction|]. intros _ Hg.
  inversion Hg as [|? ? Ht Hg']; subst.
  destruct Ht as (Htt & Htrim & Hnd).
  assert (Hseg : Forall (fun c => ~ spec_delimiter c) t).
  { eapply List.Forall_impl; [|exact Hnd]. intros c. apply nodelim_spec. }
  destruct g as [|u g].
  - exists t, []. split; [apply segments_last, Hseg|].
    cbn [join_sentences List.map List.filter]. rewrite Htrim, Htt.
    reflexivity.
  - destruct (IH ltac:(discriminate) Hg') as (seg & segs & Hcut & Heq).
    exists t, ((SP :: seg) :: segs). split.
    + change (join_sentences (t :: u :: g))
        with (t ++ DOT :: SP :: join_sentences (u :: g)).
      apply segments_more; [exact Hseg|left; reflexivity|].
      apply spec_segments_cons; [|exact Hcut].
      unfold spec_delimiter, SP. lia.
    + cbn [List.map List.filter] in *. rewrite Htrim, Htt.
      rewrite (trim_cons_space SP seg) by reflexivity.
      rewrite Heq. reflexivity.
Qed.

Lemma content_space c : is_space c = true -> is_content_unit c = false.
Proof. intros H. unfold is_content_unit, is_filler. rewrite H. reflexivity. Qed.

Lemma content_skip_ws s :
  List.filter is_content_unit (skip_ws s) = List.filter is_content_unit s.
Proof.
  induction s as [|c s IH]; [reflexivity|]. cbn [skip_ws List.filter].
  destruct (is_space c) eqn:Hc; [|reflexivity].
  rewrite (content_space _ Hc). exact IH.
Qed.

Lemma content_rtrim s :
  List.filter is_content_unit (rtrim s) = List.filter is_content_unit s.
Proof.
  induction s as [|c s IH]; [reflexivity|]. cbn [rtrim List.filter].
  destruct (rtrim s) as [|a t] eqn:E.
  - cbn [List.filter] in IH. destruct (is_space c) eqn:Hc.
    + rewrite (content_space _ Hc). exact IH.
    + cbn [List.filter]. rewrite <- IH. reflexivity.
  - cbn [List.filter] in *. rewrite IH. reflexivity.
Qed.

Lemma content_trim s :
  List.filter is_content_unit (trim s) = List.filter is_content_unit s.
Proof. unfold trim. rewrite content_rtrim. apply content_skip_ws. Qed.

Lemma content_concat (ls : list jsstring) :
  List.filter is_content_unit (List.concat ls)
  = List.concat (List.map (List.filter is_content_unit) ls).
Proof.
  induction ls as [|l ls IH]; [reflexivity|].
  cbn [List.concat List.map]. rewrite List.filter_app, IH. reflexivity.
Qed.

(** The content of a text is the content of its sentences. *)
Lemma spec_segments_content s segs :
  spec_segments s segs ->
  List.filter is_content_unit
    (List.concat (List.filter truthy (List.map trim segs)))
  = List.filter is_content_unit s.
Proof.
  assert (Hone : forall seg rest,
            List.filter is_content_unit
              (List.concat (List.filter truthy (List.map trim (seg :: rest))))
            = List.filter is_content_unit seg
              ++ List.filter is_content_unit
                   (List.concat (List.filter truthy (List.map trim rest)))).
  { intros seg rest. cbn [List.map List.filter].
    destruct (truthy (trim seg)) eqn:Ht.
    - cbn [List.concat]. rewrite List.filter_app, content_trim. reflexivity.
    - rewrite <- (content_trim seg).
      destruct (trim seg); [reflexivity|discriminate]. }
  induction 1 as [seg Hseg|seg d rest segs Hseg Hd Hrest IH].
  - rewrite Hone. cbn. rewrite app_nil_r. reflexivity.
  - rewrite Hone, IH, List.filter_app. cbn [List.filter].
    apply delim_spec in Hd. unfold is_content_unit at 4, is_filler.
    rewrite Hd, orb_true_r. reflexivity.
Qed.

Lemma content_join_sentences g :
  List.filter is_content_unit (join_sentences g)
  = List.filter is_content_unit (List.concat g).
Proof.
  induction g as [|t g IH]; [reflexivity|].
  destruct g as [|u g].
  - cbn [join_sentences List.concat]. rewrite app_nil_r. reflexivity.
  - change (join_sentences (t :: u :: g))
      with (t ++ DOT :: SP :: join_sentences (u :: g)).
    change (List.concat (t :: u :: g)) with (t ++ List.concat (u :: g)).
    rewrite !List.filter_app. cbn [List.filter].
    change (is_content_unit DOT) with false.
    change (is_content_unit SP) with false.
    rewrite IH. reflexivity.
Qed.

Lemma content_render_groups gs :
  List.filter is_content_unit (List.concat (List.map render gs))
  = List.filter is_content_unit (List.concat (List.concat gs)).
Proof.
  induction gs as [|g gs IH]; [reflexivity|].
  cbn [List.map List.concat]. rewrite List.concat_app, !List.filter_app, IH.
  unfold render. rewrite List.filter_app, content_join_sentences.
  cbn. rewrite app_nil_r. reflexivity.
Qed.

(** C3.  For every text and every positive [maxSize], the chunks are the
    sentences of the normalised text, in their order, grouped: each chunk
    is a group of sentences joined by [". "] and closed by the added
    ['.'].  The groups put end to end are the non-empty trimmed
    segments that cutting the normalised text at its delimiters gives,
    none dropped and none doubled; cutting a chunk without its final
    ['.'] gives back the sentences of its group; and the code units of
    content of the chunks, in their order, are those of the normalised
    text. *)
Theorem chunks_reconstruct_sentences (text : jsstring) (maxSize : Z) :
  (0 < maxSize)%Z ->
  (exists groups : list (list jsstring),
      splitIntoChunks text maxSize
      = List.map (fun g => join_sentences g ++ str ".") groups
      /\ Forall (fun g => g <> []) groups
      /\ spec_sentences (preprocessText text) (List.concat groups)
      /\ Forall (fun g => spec_sentences (join_sentences g) g) groups)
  /\ List.filter is_content_unit
       (List.concat (splitIntoChunks text maxSize))
     = List.filter is_content_unit (preprocessText text).
Proof.
  intros _. rewrite splitIntoChunks_groups.
  set (ts := sentences_of (preprocessText text)).
  pose proof (chunk_groups_concat maxSize ts) as Hc.
  pose proof (chunk_groups_nonempty maxSize ts) as Hn.
  pose proof (sentences_of_spec (preprocessText text)) as Hspec.
  fold ts in Hspec.
  split.
  - exists (chunk_groups maxSize ts). split; [reflexivity|].
    split; [exact Hn|]. split; [rewrite Hc; exact Hspec|].
    assert (Hok : Forall (Forall sentence_ok) (chunk_groups maxSize ts)).
    { apply Forall_concat_inv. rewrite Hc. apply sentences_of_ok. }
    apply List.Forall_forall. intros g Hg.
    rewrite List.Forall_forall in Hn, Hok.
    destruct (join_sentences_spec g (Hn g Hg) (Hok g Hg))
      as (seg & segs & Hcut & Heq).
    exists (seg :: segs). split; [exact Hcut|]. symmetry. exact Heq.
  - rewrite content_render_groups, Hc.
    destruct Hspec as (segs & Hcut & Heq). rewrite Heq.
    apply spec_segments_content, Hcut.
Qed.

Lemma chunks_reconstruct_sentences_witness :
  (0 < 15)%Z
  /\ List.filter is_content_unit
       (List.concat (splitIntoChunks (str "Hello world. This is great!") 15))
     = str "HelloworldThisisgreat".
Proof.
  split; [lia|].
  refine (eq_trans
            (proj2 (chunks_reconstruct_sentences
                      (str "Hello world. This is great!") 15 _)) _).
  - lia.
  - vm_compute. reflexivity.
Defined.

(** ** The shape of a chunk *)

Lemma rtrim_snoc_nonspace s c :
  is_space c = false -> rtrim (s ++ [c]) = s ++ [c].
Proof.
  intros Hc. induction s as [|a s IH].
  - simpl. rewrite Hc. reflexivity.
  - cbn [app]. rewrite rtrim_cons_nonblank; [rewrite IH; reflexivity|].
    intros H. apply rtrim_nil in H. rewrite IH in H.
    destruct s; discriminate.
Qed.

Lemma join_sentences_head t g :
  sentence_ok t ->
  exists c r, join_sentences (t :: g) = c :: r /\ is_space c = false.
Proof.
  intros Ht. pose proof (sentence_ok_head _ Ht) as Hh.
  destruct Ht as (Htt & _ & _). destruct t as [|c t]; [discriminate|].
  cbn [starts_with] in Hh. destruct g as [|u g].
  - exists c, t. split; [reflexivity|exact Hh].
  - exists c, (t ++ str ". " ++ join_sentences (u :: g)).
    split; [reflexivity|exact Hh].
Qed.

Lemma render_shape g :
  g <> [] -> Forall sentence_ok g ->
  truthy (render g) = true
  /\ last (render g) = Some DOT
  /\ starts_with is_space (render g) = false
  /\ trim (render g) = render g.
Proof.
  intros Hne Hg. destruct g as [|t g]; [congruence|].
  inversion Hg; subst.
  destruct (join_sentences_head t g ltac:(assumption)) as (c & r & Hj & Hc).
  unfold render. rewrite Hj, str_dot. repeat split.
  - rewrite last_snoc. reflexivity.
  - exact Hc.
  - unfold trim. change ((c :: r) ++ [DOT]) with (c :: r ++ [DOT]).
    rewrite (skip_ws_nonspace _ _ Hc).
    change (c :: r ++ [DOT]) with ((c :: r) ++ [DOT]).
    apply rtrim_snoc_nonspace. reflexivity.
Qed.

Lemma splitIntoChunks_render text size chunk :
  In chunk (splitIntoChunks text size) ->
  exists g,
    chunk = render g /\ g <> [] /\ Forall sentence_ok g
    /\ In g (chunk_groups size (sentences_of (preprocessText text))).
Proof.
  rewrite splitIntoChunks_groups. intros H.
  apply in_map_iff in H as (g & <- & Hin).
  set (ts := sentences_of (preprocessText text)) in *.
  exists g. split; [reflexivity|].
  pose proof (chunk_groups_nonempty size ts) as Hn.
  pose proof (chunk_groups_concat size ts) as Hc.
  pose proof (sentences_of_ok (preprocessText text)) as Hok.
  fold ts in Hok. rewrite <- Hc in Hok. apply Forall_concat_inv in Hok.
  rewrite List.Forall_forall in Hn, Hok. auto.
Qed.

(** C10.  For every text and every positive [maxSize], each returned
    chunk is a non-empty string whose last code unit is ['.'], which does
    not start with white space and which [trim] leaves as it is. *)
Theorem chunk_nonempty_dotted_trimmed
  (text : jsstring) (maxSize : Z) (chunk : jsstring) :
  (0 < maxSize)%Z ->
  In chunk (splitIntoChunks text maxSize) ->
  chunk <> []
  /\ last chunk = Some DOT
  /\ starts_with is_space chunk = false
  /\ trim chunk = chunk.
Proof.
  intros _ Hin.
  apply splitIntoChunks_render in Hin as (g & -> & Hne & Hok & _).
  destruct (render_shape g Hne Hok) as (Ht & Hl & Hh & Htr).
  repeat split; try assumption.
  intros E. rewrite E in Ht. discriminate.
Qed.

Lemma chunk_nonempty_dotted_trimmed_witness :
  str "This is great." <> []
  /\ last (str "This is great.") = Some DOT
  /\ starts_with is_space (str "This is great.") = false
  /\ trim (str "This is great.") = str "This is great.".
Proof.
  apply (chunk_nonempty_dotted_trimmed
           (str "Hello world. This is great!") 15).
  - lia.
  - vm_compute. right. left. reflexivity.
Defined.

(** ** The length of a chunk *)

Lemma jslength_app (a b : jsstring) : jslength (a ++ b) = (jslength a + jslength b)%Z.
Proof. unfold jslength. rewrite List.length_app. lia. Qed.

Lemma group_step_fits size gs g t :
  Forall (fits size) gs -> (g = [] \/ fits size g) ->
  Forall (fits size) (fst (group_step size (gs, g) t))
  /\ fits size (snd (group_step size (gs, g) t)).
Proof.
  intros Hgs Hg. unfold group_step.
  destruct (_ <=? _)%Z eqn:E; cbn [fst snd].
  - split; [exact Hgs|]. destruct g as [|u g].
    + left. exists t. reflexivity.
    + right. rewrite join_snoc, !jslength_app.
      apply Z.leb_le in E. change (jslength (str ". ")) with 2%Z. lia.
  - split; [|left; exists t; reflexivity].
    destruct g as [|u g]; [exact Hgs|].
    apply Forall_app; split; [exact Hgs|].
    destruct Hg as [Hg|Hg]; [discriminate|].
    constructor; [exact Hg|constructor].
Qed.

Lemma fold_group_step_fits size ts :
  forall gs g,
    Forall (fits size) gs -> (g = [] \/ fits size g) ->
    Forall (fits size) (close_groups (fold_left (group_step size) ts (gs, g))).
Proof.
  induction ts as [|t ts IH]; intros gs g Hgs Hg.
  - cbn [fold_left close_groups]. destruct g as [|u g]; [exact Hgs|].
    apply Forall_app; split; [exact Hgs|].
    destruct Hg as [Hg|Hg]; [discriminate|].
    constructor; [exact Hg|constructor].
  - cbn [fold_left].
    destruct (group_step_fits size gs g t Hgs Hg) as [H1 H2].
    destruct (group_step size (gs, g) t) as [gs' g'].
    apply IH; [exact H1|right; exact H2].
Qed.

(** What the loop does guarantee: a chunk is a single sentence closed by
    ['.'], or it has at most [size + 2] code units. *)
Lemma chunk_length_bound text size chunk :
  In chunk (splitIntoChunks text size) ->
  (exists t, In t (sentences_of (preprocessText text))
             /\ chunk = t ++ str ".")
  \/ (jslength chunk <= size + 2)%Z.
Proof.
  intros Hin.
  apply splitIntoChunks_render in Hin as (g & -> & Hne & Hok & Hin).
  set (ts := sentences_of (preprocessText text)) in *.
  pose proof (fold_group_step_fits size ts [] []
                ltac:(constructor) ltac:(left; reflexivity)) as Hf.
  fold (chunk_groups size ts) in Hf.
  rewrite List.Forall_forall in Hf. destruct (Hf g Hin) as [[t ->]|Hlen].
  - left. exists t. split; [|reflexivity].
    rewrite <- (chunk_groups_concat size ts).
    apply in_concat. exists [t]. split; [exact Hin|left; reflexivity].
  - right. unfold render. rewrite jslength_app.
    change (jslength (str ".")) with 1%Z. lia.
Qed.

(** C1.  The bound does not hold: with [maxSize = 15] the text
    ["Hello world. abc"] has the two sentences ["Hello world"] and
    ["abc"], of 11 and 3 code units, and they come back as the one chunk
    ["Hello world. abc."] of 17 code units.  The test of the loop counts
    one code unit for the separator [". "], which has two, and none for
    the closing ['.']. *)
Theorem chunk_exceeds_maxSize :
  let text := str "Hello world. abc" in
  splitIntoChunks text 15 = [str "Hello world. abc."]
  /\ jslength (str "Hello world. abc.") = 17%Z
  /\ sentences_of (preprocessText text) = [str "Hello world"; str "abc"]
  /\ Forall (fun t => (jslength t <= 15)%Z)
       (sentences_of (preprocessText text))
  /\ ~ (forall chunk,
          In chunk (splitIntoChunks text 15) ->
          (jslength chunk <= 15)%Z
          \/ exists t,
               In t (sentences_of (preprocessText text))
               /\ (15 < jslength t)%Z /\ chunk = t ++ str ".").
Proof.
  intros text.
  assert (Hs : sentences_of (preprocessText text)
               = [str "Hello world"; str "abc"])
    by (vm_compute; reflexivity).
  assert (Hc : splitIntoChunks text 15 = [str "Hello world. abc."])
    by (vm_compute; reflexivity).
  assert (Hall : Forall (fun t => (jslength t <= 15)%Z)
                   (sentences_of (preprocessText text))).
  { rewrite Hs. repeat constructor; vm_compute; discriminate. }
  split; [exact Hc|]. split; [reflexivity|]. split; [exact Hs|].
  split; [exact Hall|].
  intros H. destruct (H (str "Hello world. abc.")) as [Hle|(t & Hin & Hlt & _)].
  - rewrite Hc. left. reflexivity.
  - vm_compute in Hle. apply Hle. reflexivity.
  - rewrite List.Forall_forall in Hall. apply Hall in Hin. lia.
Qed.

(** * The index lifecycle *)

Section Lifecycle.

Context {Orc : Type} (E : Services Orc).

(** One turn of the polling loop. *)
Lemma waitForIndex_loop_step maxAttempts n (w : World Orc) :
  waitForIndex_loop E maxAttempts (S n) w =
  (let o1 := snd (svc_describeIndex E INDEX_NAME (oracle w)) in
   if observes_ready E (oracle w) then
     (inr true,
      {| oracle := o1; store := store w;
         log := log w ++ [CDescribeIndex INDEX_NAME] |})
   else
     waitForIndex_loop E maxAttempts n
       {| oracle := o1; store := store w;
          log := (log w ++ [CDescribeIndex INDEX_NAME]) ++ [CSleep 2000] |}).
Proof.
  cbn [waitForIndex_loop].
  unfold bind, try_catch, describeIndex, call, observes_ready, ret, sleep.
  destruct (svc_describeIndex E INDEX_NAME (oracle w)) as [[e|d] o1];
    cbn [fst snd oracle store log]; [reflexivity|].
  destruct (status_ready d); reflexivity.
Qed.

Lemma waitForIndex_loop_polls maxAttempts n :
  forall w : World Orc,
    let '(r, w') := waitForIndex_loop E maxAttempts n w in
    store w' = store w /\
    match r with
    | inr b =>
        b = true /\
        exists j,
          j < n
          /\ oracle w' = after_polls E (S j) (oracle w)
          /\ log w' = log w ++ failed_attempts j ++ [CDescribeIndex INDEX_NAME]
          /\ observes_ready E (after_polls E j (oracle w)) = true
          /\ forall i, i < j ->
               observes_ready E (after_polls E i (oracle w)) = false
    | inl e =>
        e = JsError (str "Index " ++ INDEX_NAME ++ str " not ready after "
                       ++ dec maxAttempts ++ str " attempts")
        /\ oracle w' = after_polls E n (oracle w)
        /\ log w' = log w ++ failed_attempts n
        /\ forall i, i < n ->
             observes_ready E (after_polls E i (oracle w)) = false
    end.
Proof.
  induction n as [|n IH]; intros w.
  - cbn [waitForIndex_loop]. unfold throw.
    split; [reflexivity|]. split; [reflexivity|]. split; [reflexivity|].
    split; [cbn [failed_attempts]; rewrite app_nil_r; reflexivity|].
    intros i Hi. lia.
  - rewrite waitForIndex_loop_step. cbv zeta.
    destruct (observes_ready E (oracle w)) eqn:Hr.
    + split; [reflexivity|]. split; [reflexivity|]. exists 0.
      split; [lia|]. split; [reflexivity|]. split; [reflexivity|].
      split; [exact Hr|]. intros i Hi. lia.
    + specialize (IH {| oracle := snd (svc_describeIndex E INDEX_NAME (oracle w));
                        store := store w;
                        log := (log w ++ [CDescribeIndex INDEX_NAME])
                                 ++ [CSleep 2000] |}).
      destruct (waitForIndex_loop E maxAttempts n _) as [[e|b] w'].
      * cbn [oracle store log] in IH.
        destruct IH as (Hs & He & Ho & Hl & Hn).
        split; [exact Hs|]. split; [exact He|]. split; [exact Ho|].
        split.
        { rewrite Hl. cbn [failed_attempts]. rewrite <- !app_assoc.
          reflexivity. }
        intros [|i] Hi; [exact Hr|]. apply Hn. lia.
      * cbn [oracle store log] in IH.
        destruct IH as (Hs & Hb & j & Hj & Ho & Hl & Hy & Hn).
        split; [exact Hs|]. split; [exact Hb|]. exists (S j).
        split; [lia|]. split; [exact Ho|]. split.
        { rewrite Hl. cbn [failed_attempts]. rewrite <- !app_assoc.
          reflexivity. }
        split; [exact Hy|].
        intros [|i] Hi; [exact Hr|]. apply Hn. lia.
Qed.

Lemma observes_ready_spec (o : Orc) :
  observes_ready E o = true <-> sees_ready E o.
Proof.
  unfold observes_ready, sees_ready, status_ready.
  destruct (fst (svc_describeIndex E INDEX_NAME o)) as [e|d].
  - split; [discriminate|]. intros (d & H & _). discriminate.
  - destruct d as [[[r]|]]; cbn [index_status ready].
    + split.
      * intros ->. eexists. split; reflexivity.
      * intros (d & H & Hd). injection H as <-. cbn in Hd.
        injection Hd as ->. reflexivity.
    + split; [discriminate|]. intros (d & H & Hd). injection H as <-.
      discriminate.
Qed.

Lemma observes_unready_spec (o : Orc) :
  observes_ready E o = false <-> ~ sees_ready E o.
Proof.
  rewrite <- observes_ready_spec.
  destruct (observes_ready E o); split.
  - discriminate.
  - intros H. exfalso. apply H. reflexivity.
  - intros _ H. discriminate.
  - reflexivity.
Qed.


Lemma createUserIndex_existing (userId : jsstring) (w : World Orc) d o' :
  svc_describeIndex E INDEX_NAME (oracle w) = (inr d, o') ->
  createUserIndex E userId w =
  (inr {| success := true;
          message := str "Index ready for user " ++ userId |},
   {| oracle := o'; store := store w;
      log := log w ++ [CDescribeIndex INDEX_NAME] |}).
Proof.
  intros H. unfold createUserIndex, try_catch, bind, describeIndex, call, ret.
  rewrite H. reflexivity.
Qed.

(** C5.  When [describeIndex] succeeds, [createUserIndex] returns its
    success at once: the one call made is that [describeIndex], neither
    [createIndex] nor the polling of [waitForIndex] happens.  Called
    again on the index that is still there, it succeeds again, and the
    two calls together have made two [describeIndex] and no
    [createIndex]. *)
Theorem createUserIndex_ready_no_create
  (userId : jsstring) (w : World Orc) d1 o1 :
  svc_describeIndex E INDEX_NAME (oracle w) = (inr d1, o1) ->
  let w1 := {| oracle := o1; store := store w;
               log := log w ++ [CDescribeIndex INDEX_NAME] |} in
  let done := {| success := true;
                 message := str "Index ready for user " ++ userId |} in
  createUserIndex E userId w = (inr done, w1)
  /\ forall d2 o2,
       svc_describeIndex E INDEX_NAME o1 = (inr d2, o2) ->
       exists w2,
         createUserIndex E userId w1 = (inr done, w2)
         /\ store w2 = store w
         /\ log w2 = log w ++ [CDescribeIndex INDEX_NAME;
                               CDescribeIndex INDEX_NAME]
         /\ forallb (fun c => negb (is_createIndex c))
              [CDescribeIndex INDEX_NAME; CDescribeIndex INDEX_NAME] = true.
Proof.
  intros H1 w1 done. split; [apply (createUserIndex_existing _ _ _ _ H1)|].
  intros d2 o2 H2. eexists. split.
  - apply (createUserIndex_existing userId w1 d2 o2). exact H2.
  - subst w1. cbn [store log]. rewrite <- app_assoc. repeat split.
Qed.

(** C8.  [deleteUserIndex] does what [clearIndex] does: from the same
    world both reach the same world, by the one call [deleteAll] on the
    name space of the user; every other name space keeps its records and
    no index is created; both succeed, emptying the name space, or both
    fail with the same error, and then the store is as before.  Only the
    text of the success message differs. *)
Theorem deleteUserIndex_is_clearIndex (userId : jsstring) (w : World Orc) :
  let '(r1, w1) := clearIndex E userId w in
  let '(r2, w2) := deleteUserIndex E userId w in
  w1 = w2
  /\ log w1 = log w ++ [CDeleteAll userId]
  /\ (forall ns, ns <> userId -> store w1 !! ns = store w !! ns)
  /\ match r1, r2 with
     | inr a, inr b =>
         success a = true /\ success b = true
         /\ message a = str "Documents cleared successfully for user " ++ userId
         /\ message b = str "Deleted all documents for user " ++ userId
         /\ store w1 = delete userId (store w)
     | inl e1, inl e2 => e1 = e2 /\ store w1 = store w
     | _, _ => False
     end.
Proof.
  unfold deleteUserIndex, clearIndex, try_catch, bind, getIndex, deleteAll,
    call, ret, throw.
  destruct (svc_deleteAll E userId (oracle w)) as [[e|] o'];
    cbn [oracle store log].
  - repeat split.
  - repeat split. intros ns Hns. apply lookup_delete_ne. congruence.
Qed.

(** What [getEmbedding] does with an answer of the service. *)
Lemma getEmbedding_run (text : jsstring) (w : World Orc) :
  getEmbedding E text w =
  (let url := OLLAMA_API ++ str "/api/embeddings" in
   let '(r, o') := svc_fetch E url MODEL_EMBEDDING text (oracle w) in
   (match r with
    | inl e => inl e
    | inr resp =>
        if ok resp then
          match body resp with
          | inl e => inl e
          | inr data =>
              match embedding_of data with
              | inl e => inl e
              | inr v =>
                  if isArray v then inr v
                  else inl (JsError
                         (str "Invalid embedding format received from Ollama"))
              end
          end
        else inl (JsError (str "HTTP error! status: " ++ dec (status resp)))
    end,
    {| oracle := o'; store := store w;
       log := log w ++ [CFetch url MODEL_EMBEDDING text] |})).
Proof.
  unfold getEmbedding, try_catch, bind, fetch, call, response_json, throw, ret.
  cbv zeta.
  destruct (svc_fetch E _ MODEL_EMBEDDING text (oracle w)) as [[e|resp] o'];
    [reflexivity|].
  destruct (ok resp); cbn [negb]; [|reflexivity].
  destruct (body resp) as [e|data]; [reflexivity|].
  destruct (embedding_of data) as [e|v]; [reflexivity|].
  destruct v as [| |[|]| | |items|fields]; try reflexivity.
  - cbn [js_truthy isArray negb orb]. destruct (negb _); reflexivity.
  - cbn [js_truthy isArray negb orb]. destruct (negb _); reflexivity.
Qed.


End Lifecycle.


(** * Record identifiers *)

Lemma uint_codes_digits d :
  Forall (fun c => (48 <= c <= 57)%N) (uint_codes d).
Proof.
  induction d; cbn [uint_codes]; constructor; try assumption; lia.
Qed.

Lemma uint_codes_inj d1 :
  forall d2, uint_codes d1 = uint_codes d2 -> d1 = d2.
Proof.
  induction d1 as [|d1 IH|d1 IH|d1 IH|d1 IH|d1 IH|d1 IH|d1 IH|d1 IH|d1 IH|d1 IH];
    intros d2 H; destruct d2; cbn [uint_codes] in H;
    try discriminate; try reflexivity;
    injection H as H; f_equal; apply IH, H.
Qed.

Lemma dec_inj z1 z2 : dec z1 = dec z2 -> z1 = z2.
Proof.
  unfold dec. intros H.
  rewrite <- (DecimalZ.of_to z1), <- (DecimalZ.of_to z2).
  destruct (Z.to_int z1) as [d1|d1], (Z.to_int z2) as [d2|d2].
  - apply uint_codes_inj in H. congruence.
  - pose proof (uint_codes_digits d1) as Hd. rewrite H in Hd.
    inversion Hd; subst. lia.
  - pose proof (uint_codes_digits d2) as Hd. rewrite <- H in Hd.
    inversion Hd; subst. lia.
  - injection H as H. apply uint_codes_inj in H. congruence.
Qed.

Lemma dec_no_underscore z : ~ In 95%N (dec z).
Proof.
  unfold dec. intros H.
  assert (Hu : forall d, ~ In 95%N (uint_codes d)).
  { intros d Hin. pose proof (uint_codes_digits d) as Hd.
    rewrite List.Forall_forall in Hd. apply Hd in Hin. lia. }
  destruct (Z.to_int z) as [d|d].
  - exact (Hu d H).
  - destruct H as [H|H]; [discriminate|exact (Hu d H)].
Qed.

Lemma split_at_first (c : N) (a : jsstring) :
  forall b x y,
    ~ In c a -> ~ In c b -> a ++ c :: x = b ++ c :: y -> a = b /\ x = y.
Proof.
  induction a as [|a0 a IH]; intros b x y Ha Hb H.
  - destruct b as [|b0 b]; [injection H as H; auto|].
    injection H as H _. subst b0. exfalso. apply Hb. left. reflexivity.
  - destruct b as [|b0 b].
    + injection H as H _. subst a0. exfalso. apply Ha. left. reflexivity.
    + injection H as H0 H. subst b0.
      destruct (IH b x y) as [-> ->]; [| |exact H|auto].
      * intros Hin. apply Ha. right. exact Hin.
      * intros Hin. apply Hb. right. exact Hin.
Qed.

(** The id tells the reading of the clock and the index of the chunk,
    and nothing else. *)
Lemma record_id_inj t1 i1 t2 i2 :
  record_id t1 i1 = record_id t2 i2 -> t1 = t2 /\ i1 = i2.
Proof.
  unfold record_id. intros H. apply app_inv_head in H.
  change (str "_chunk_") with (95%N :: str "chunk_") in H.
  cbn [app] in H.
  apply split_at_first in H as [Ht H]; try apply dec_no_underscore.
  apply app_inv_head in H. apply dec_inj in H, Ht. split; [exact Ht|lia].
Qed.

Lemma record_id_index_ne t1 i1 t2 i2 :
  i1 <> i2 -> record_id t1 i1 <> record_id t2 i2.
Proof. intros Hne H. apply record_id_inj in H as [_ H]. contradiction. Qed.

(** * Ingestion *)

Lemma no_rollback_refl {Orc} (w : World Orc) : no_rollback w w.
Proof. exists []. split; [rewrite app_nil_r; reflexivity|reflexivity]. Qed.

Lemma no_rollback_trans {Orc} (w1 w2 w3 : World Orc) :
  no_rollback w1 w2 -> no_rollback w2 w3 -> no_rollback w1 w3.
Proof.
  intros (c1 & H1 & F1) (c2 & H2 & F2). exists (c1 ++ c2).
  split; [rewrite H2, H1, app_assoc; reflexivity|].
  rewrite forallb_app, F1, F2. reflexivity.
Qed.

Lemma record_metadata_text caller chunk i total timestamp userId :
  record_metadata caller chunk i total timestamp userId !! str "text"
  = Some (JString chunk).
Proof.
  unfold record_metadata.
  rewrite !lookup_insert_ne by (vm_compute; discriminate).
  apply lookup_insert_eq.
Qed.

Lemma records_of_insert (st : gmap jsstring (gmap jsstring StoredRecord))
  (namespace : jsstring) (m : gmap jsstring StoredRecord) :
  records_of (<[namespace := m]> st) namespace = m.
Proof. unfold records_of. rewrite lookup_insert_eq. reflexivity. Qed.

(** A name space holds one record under an id, so one text. *)
Lemma holds_chunk_text st namespace rid c1 c2 :
  holds_chunk st namespace rid c1 -> holds_chunk st namespace rid c2 ->
  c1 = c2.
Proof.
  intros (r1 & H1 & _ & T1) (r2 & H2 & _ & T2).
  rewrite H1 in H2. injection H2 as <-. rewrite T1 in T2.
  injection T2 as ->. reflexivity.
Qed.

Section Ingestion.

Context {Orc : Type} (E : Services Orc).

(** One turn of the loop of [addDocument]: either the record is in the
    name space, under an id made of a reading of the clock and of [i], or
    the turn throws and the store is as it was.  No turn deletes. *)
Lemma add_chunk_run userId caller total i chunk (w : World Orc) :
  match add_chunk E userId caller total i chunk w with
  | (inr (rid, c), w') =>
      c = chunk
      /\ (exists t r,
            rid = record_id t i /\ id r = rid
            /\ metadata r !! str "text" = Some (JString chunk)
            /\ store w' =
               <[userId := <[rid := r]> (records_of (store w) userId)]>
                 (store w))
      /\ no_rollback w w'
  | (inl e, w') => store w' = store w /\ no_rollback w w'
  end.
Proof.
  unfold add_chunk, bind. rewrite getEmbedding_run. cbv zeta.
  destruct (svc_fetch E _ MODEL_EMBEDDING chunk (oracle w)) as [r o1].
  match goal with
  | |- context [match ?x with inl _ => _ | inr _ => _ end] =>
      destruct x as [e|embedding]
  end.
  { split; [reflexivity|]. eexists. split; reflexivity. }
  unfold now, upsert, call, ret. cbn [oracle store log].
  destruct (svc_now E o1) as [t o2]. cbn [oracle store log].
  destruct (svc_now E o2) as [t' o3]. cbn [oracle store log].
  match goal with
  | |- context [svc_upsert E userId ?r o3] =>
      set (rec := r); destruct (svc_upsert E userId rec o3) as [[e|] o4]
  end; cbn [oracle store log].
  - split; [reflexivity|].
    eexists. split; [rewrite <- app_assoc; reflexivity|reflexivity].
  - split; [reflexivity|]. split.
    + exists t, rec. repeat split. apply record_metadata_text.
    + eexists. split; [rewrite <- app_assoc; reflexivity|reflexivity].
Qed.

Lemma addDocument_loop_app userId caller total (l1 l2 : list jsstring) :
  forall i results (w : World Orc),
    addDocument_loop E userId caller total i (l1 ++ l2) results w =
    match addDocument_loop E userId caller total i l1 results w with
    | (inr results', w') =>
        addDocument_loop E userId caller total (i + List.length l1) l2
          results' w'
    | (inl e, w') => (inl e, w')
    end.
Proof.
  induction l1 as [|c l1 IH]; intros i results w.
  - cbn [app addDocument_loop List.length]. unfold ret.
    rewrite Nat.add_0_r. reflexivity.
  - cbn [app addDocument_loop List.length]. unfold bind.
    destruct (add_chunk E userId caller total i c w) as [[e|r] w1];
      [reflexivity|].
    rewrite IH. replace (S i + List.length l1) with (i + S (List.length l1))
      by lia.
    reflexivity.
Qed.

(** A run of the loop that comes to its end: every chunk has its record
    in the name space, and what was there before under other ids still
    is. *)
Lemma addDocument_loop_done userId caller total (chunks : list jsstring) :
  forall i results (w : World Orc) results' w',
    addDocument_loop E userId caller total i chunks results w
    = (inr results', w') ->
    exists new,
      results' = results ++ new
      /\ List.map snd new = chunks
      /\ (forall rid c, In (rid, c) new -> holds_chunk (store w') userId rid c)
      /\ (forall rid r,
            records_of (store w) userId !! rid = Some r ->
            (forall t j, i <= j -> rid <> record_id t j) ->
            records_of (store w') userId !! rid = Some r)
      /\ no_rollback w w'.
Proof.
  induction chunks as [|chunk chunks IH]; intros i results w results' w' H.
  - cbn [addDocument_loop] in H. unfold ret in H.
    injection H as <- <-. exists []. rewrite app_nil_r.
    split; [reflexivity|]. split; [reflexivity|].
    split; [intros rid c []|]. split; [auto|]. apply no_rollback_refl.
  - cbn [addDocument_loop] in H. unfold bind in H.
    pose proof (add_chunk_run userId caller total i chunk w) as Hc.
    destruct (add_chunk E userId caller total i chunk w) as [[e|[rid c]] w1];
      [discriminate|].
    destruct Hc as (-> & (t & r & Hrid & Hid & Htext & Hst) & Hlog).
    apply IH in H as (new & -> & Hmap & Hnew & Hold & Hlog').
    assert (Hhere : records_of (store w') userId !! rid = Some r).
    { apply Hold.
      - rewrite Hst, records_of_insert. apply lookup_insert_eq.
      - intros t' j Hj. rewrite Hrid. apply record_id_index_ne. lia. }
    exists ((rid, chunk) :: new). rewrite <- app_assoc.
    split; [reflexivity|]. split; [cbn; rewrite Hmap; reflexivity|].
    split; [|split].
    + intros rid' c' [Heq|Hin]; [|apply Hnew, Hin].
      injection Heq as <- <-. exists r. auto.
    + intros rid' r' Hr' Hfresh. apply Hold.
      * rewrite Hst, records_of_insert, lookup_insert_ne; [exact Hr'|].
        intros <-. apply (Hfresh t i); [lia|exact Hrid].
      * intros t' j Hj. apply Hfresh. lia.
    + eapply no_rollback_trans; eassumption.
Qed.

Lemma addDocuments_loop_app userId caller (d1 d2 : list jsstring) :
  forall results (w : World Orc),
    addDocuments_loop E userId (d1 ++ d2) caller results w =
    match addDocuments_loop E userId d1 caller results w with
    | (inr results', w') => addDocuments_loop E userId d2 caller results' w'
    | (inl e, w') => (inl e, w')
    end.
Proof.
  induction d1 as [|d d1 IH]; intros results w; [reflexivity|].
  cbn [app addDocuments_loop]. unfold bind.
  destruct (addDocument E userId d caller w) as [[e|r] w1]; [reflexivity|].
  apply IH.
Qed.

(** C9.  Let the loop of [addDocument] have upserted the chunks before
    chunk [k] and let the turn of chunk [k] throw [e], in the embedding
    or in the upsert.  Then [addDocument] throws that [e]; the store is
    the one the earlier chunks left, each of them still under its id in
    the name space; no [deleteAll] was sent.  And a batch in which this
    document follows documents that went through throws [e] in that same
    world, whatever documents come after it: none of them is touched. *)
Theorem failed_ingestion_keeps_earlier_chunks
  (userId text : jsstring) (caller : gmap jsstring json)
  (k : nat) (chunk : jsstring) (e : exn)
  (results : list (jsstring * jsstring)) (w w1 w2 : World Orc) :
  let chunks := splitIntoChunks text CHUNK_SIZE in
  chunks !! k = Some chunk ->
  addDocument_loop E userId caller (List.length chunks) 0 (take k chunks) [] w
  = (inr results, w1) ->
  add_chunk E userId caller (List.length chunks) k chunk w1 = (inl e, w2) ->
  addDocument E userId text caller w = (inl e, w2)
  /\ store w2 = store w1
  /\ List.map snd results = take k chunks
  /\ (forall rid c,
        In (rid, c) results -> holds_chunk (store w2) userId rid c)
  /\ no_rollback w w2
  /\ (forall (before after : list jsstring) (done : list AddResult)
             (w0 : World Orc),
        addDocuments_loop E userId before caller [] w0 = (inr done, w) ->
        addDocuments E userId (before ++ text :: after) caller w0
        = (inl e, w2)).
Proof.
  intros chunks Hk Hdone Hfail.
  pose proof (add_chunk_run userId caller (List.length chunks) k chunk w1) as Hc.
  rewrite Hfail in Hc. destruct Hc as [Hst Hlog].
  destruct (addDocument_loop_done _ _ _ _ _ _ _ _ _ Hdone)
    as (new & Hres & Hmap & Hnew & _ & Hlog1).
  cbn [app] in Hres. subst new.
  assert (Hadd : addDocument E userId text caller w = (inl e, w2)).
  { unfold addDocument, try_catch, bind, getIndex, ret. fold chunks.
    rewrite <- (take_drop_middle chunks k chunk Hk) at 2.
    rewrite addDocument_loop_app, Hdone.
    cbn [addDocument_loop]. unfold bind.
    rewrite length_take_le
      by (apply Nat.lt_le_incl, (lookup_lt_Some _ _ _ Hk)).
    cbn [Nat.add]. rewrite Hfail. reflexivity. }
  split; [exact Hadd|]. split; [exact Hst|]. split; [exact Hmap|].
  split; [intros rid c Hin; rewrite Hst; apply Hnew, Hin|].
  split; [eapply no_rollback_trans; eassumption|].
  intros before after done w0 Hbefore.
  unfold addDocuments, try_catch. rewrite addDocuments_loop_app, Hbefore.
  cbn [addDocuments_loop]. unfold bind. rewrite Hadd. reflexivity.
Qed.

End Ingestion.

(** * Runs on scripted services *)

Lemma createUserIndex_ready_no_create_witness :
  createUserIndex frozen_clock (str "alice") empty_world
  = (inr {| success := true;
            message := str "Index ready for user " ++ str "alice" |},
     {| oracle := 1; store := ∅; log := [CDescribeIndex INDEX_NAME] |})
  /\ exists w2,
       createUserIndex frozen_clock (str "alice")
         {| oracle := 1; store := ∅; log := [CDescribeIndex INDEX_NAME] |}
       = (inr {| success := true;
                 message := str "Index ready for user " ++ str "alice" |}, w2)
       /\ log w2 = [CDescribeIndex INDEX_NAME; CDescribeIndex INDEX_NAME].
Proof.
  destruct (createUserIndex_ready_no_create frozen_clock (str "alice")
              empty_world {| index_status := Some {| ready := true |} |} 1
              eq_refl) as [H1 H2].
  split; [exact H1|].
  destruct (H2 {| index_status := Some {| ready := true |} |} 2 eq_refl)
    as (w2 & Hrun & _ & Hlog & _).
  exists w2. split; [exact Hrun|exact Hlog].
Defined.

(** The index is missing, then pending, then ready: three calls of
    [describeIndex], two waits, and [true]. *)
Example waitForIndex_third_attempt :
  waitForIndex slow_index 10 empty_world
  = (inr true,
     {| oracle := 3; store := ∅;
        log := [CDescribeIndex INDEX_NAME; CSleep 2000;
                CDescribeIndex INDEX_NAME; CSleep 2000;
                CDescribeIndex INDEX_NAME] |}).
Proof. vm_compute. reflexivity. Qed.

(** Two attempts are not enough for that index. *)
Example waitForIndex_exhausted :
  waitForIndex slow_index 2 empty_world
  = (inl (JsError (str "Index rag-docs-llama not ready after 2 attempts")),
     {| oracle := 2; store := ∅;
        log := [CDescribeIndex INDEX_NAME; CSleep 2000;
                CDescribeIndex INDEX_NAME; CSleep 2000] |}).
Proof. vm_compute. reflexivity. Qed.



(** C4.  The ids are not unique.  The clock reads the same millisecond
    during two calls of [addDocument] for the same user: the one chunk of
    each document gets the id [doc_1700000000000_chunk_0], and the record
    of the second document takes the place of the record of the first;
    the name space holds one record, not two. *)
Theorem record_id_collision :
  let alice := str "alice" in
  let rid := str "doc_1700000000000_chunk_0" in
  let run1 := addDocument frozen_clock alice (str "First") ∅ empty_world in
  let run2 := addDocument frozen_clock alice (str "Second") ∅ (snd run1) in
  fst run1
  = inr {| add_success := true;
           add_message := str "Added document with 1 chunks";
           add_chunks := [(rid, str "First.")] |}
  /\ fst run2
     = inr {| add_success := true;
              add_message := str "Added document with 1 chunks";
              add_chunks := [(rid, str "Second.")] |}
  /\ holds_chunk (store (snd run1)) alice rid (str "First.")
  /\ holds_chunk (store (snd run2)) alice rid (str "Second.")
  /\ ~ holds_chunk (store (snd run2)) alice rid (str "First.")
  /\ size (records_of (store (snd run2)) alice) = 1.
Proof.
  intros alice rid run1 run2.
  assert (H2 : holds_chunk (store (snd run2)) alice rid (str "Second.")).
  { eexists. split; [vm_compute; reflexivity|].
    split; vm_compute; reflexivity. }
  split; [vm_compute; reflexivity|]. split; [vm_compute; reflexivity|].
  split.
  { eexists. split; [vm_compute; reflexivity|].
    split; vm_compute; reflexivity. }
  split; [exact H2|]. split; [|vm_compute; reflexivity].
  intros H1. pose proof (holds_chunk_text _ _ _ _ _ H1 H2) as Heq.
  vm_compute in Heq. discriminate Heq.
Qed.

(** The first chunk of [two_chunk_text] goes in, the embedding of the
    second one fails with status 500: the call throws, and the record of
    the first chunk is in the name space. *)
Lemma failed_ingestion_keeps_earlier_chunks_witness :
  addDocument bad_chunk (str "alice") two_chunk_text ∅ empty_world
  = (inl (JsError (str "HTTP error! status: 500")),
     snd (addDocument bad_chunk (str "alice") two_chunk_text ∅ empty_world))
  /\ holds_chunk
       (store (snd (addDocument bad_chunk (str "alice") two_chunk_text ∅
                      empty_world)))
       (str "alice") (str "doc_1_chunk_0") (List.repeat 97%N 998 ++ str ".")
  /\ addDocuments bad_chunk (str "alice")
       [two_chunk_text; str "Never reached"] ∅ empty_world
     = (inl (JsError (str "HTTP error! status: 500")),
        snd (addDocument bad_chunk (str "alice") two_chunk_text ∅
               empty_world)).
Proof.
  set (chunks := splitIntoChunks two_chunk_text CHUNK_SIZE).
  set (run1 := addDocument_loop bad_chunk (str "alice") ∅
                 (List.length chunks) 0 (take 1 chunks) [] empty_world).
  set (run2 := add_chunk bad_chunk (str "alice") ∅ (List.length chunks) 1
                 (str "Bad.") (snd run1)).
  destruct (failed_ingestion_keeps_earlier_chunks bad_chunk (str "alice")
              two_chunk_text ∅ 1 (str "Bad.")
              (JsError (str "HTTP error! status: 500"))
              [(str "doc_1_chunk_0", List.repeat 97%N 998 ++ str ".")]
              empty_world (snd run1) (snd run2))
    as (Hadd & _ & _ & Hkept & _ & Hbatch).
  - vm_compute. reflexivity.
  - vm_compute. reflexivity.
  - vm_compute. reflexivity.
  - assert (Hw : snd (addDocument bad_chunk (str "alice") two_chunk_text ∅
                        empty_world) = snd run2)
      by (rewrite Hadd; reflexivity).
    rewrite Hw. split; [exact Hadd|]. split.
    + apply Hkept. left. reflexivity.
    + apply (Hbatch [] [str "Never reached"] [] empty_world). reflexivity.
Defined.

(** * More on the text functions *)

Lemma nocamel_lookup (s : jsstring) :
  nocamel s ->
  forall i a b,
    s !! i = Some a -> s !! S i = Some b ->
    ~ (is_lower a = true /\ is_upper b = true).
Proof.
  induction s as [|c s IH]; intros H i a b Ha Hb; [discriminate|].
  destruct H as [Hc Hs]. destruct i as [|i].
  - cbn in Ha, Hb. injection Ha as ->.
    destruct s as [|d s]; [discriminate|]. cbn in Hb. injection Hb as ->.
    cbn [starts_with] in Hc. intros [H1 H2]. rewrite H1, H2 in Hc.
    discriminate.
  - cbn in Ha, Hb. exact (IH Hs i a b Ha Hb).
Qed.

Lemma single_spaced_lookup (s : jsstring) :
  single_spaced s ->
  forall i a b,
    s !! i = Some a -> s !! S i = Some b ->
    ~ (is_space a = true /\ is_space b = true).
Proof.
  induction s as [|c s IH]; intros H i a b Ha Hb; [discriminate|].
  destruct H as [Hc Hs]. destruct i as [|i].
  - cbn in Ha, Hb. injection Ha as ->.
    destruct s as [|d s]; [discriminate|]. cbn in Hb. injection Hb as ->.
    intros [H1 H2]. destruct (Hc H1) as [_ Hd]. cbn [starts_with] in Hd.
    congruence.
  - cbn in Ha, Hb. exact (IH Hs i a b Ha Hb).
Qed.

Lemma single_spaced_In (s : jsstring) :
  single_spaced s -> forall c, In c s -> is_space c = true -> c = SP.
Proof.
  induction s as [|a s IH]; intros H c Hin Hc; [destruct Hin|].
  destruct H as [Ha Hs]. destruct Hin as [<-|Hin].
  - apply Ha, Hc.
  - exact (IH Hs c Hin Hc).
Qed.

(** X1.  What [preprocessText] returns is trimmed; its only white space
    is U+0020, never two in a row; and no lower-case letter a-z stands
    directly before an upper-case letter A-Z. *)
Theorem preprocessText_normal_form (x : jsstring) :
  let y := preprocessText x in
  trim y = y
  /\ (forall c, In c y -> is_space c = true -> c = SP)
  /\ (forall i a b,
        y !! i = Some a -> y !! S i = Some b ->
        ~ (is_space a = true /\ is_space b = true)
        /\ ~ (is_lower a = true /\ is_upper b = true)).
Proof.
  intros y. subst y. rewrite preprocessText_eq.
  set (z := respace (unspace (collapse (camel x)))).
  assert (Hz1 : nocamel (trim z))
    by (apply trim_nocamel, respace_nocamel, unspace_nocamel,
          collapse_nocamel, camel_nocamel).
  assert (Hz2 : single_spaced (trim z))
    by (apply trim_single_spaced, respace_single_spaced,
          unspace_single_spaced, collapse_single_spaced).
  split; [apply trim_idem|]. split.
  - apply single_spaced_In, Hz2.
  - intros i a b Ha Hb. split.
    + exact (single_spaced_lookup _ Hz2 i a b Ha Hb).
    + exact (nocamel_lookup _ Hz1 i a b Ha Hb).
Qed.

(** ** Which code units the replacements add and which they keep *)

Lemma camel_units s c : In c (camel s) -> In c s \/ c = SP.
Proof.
  induction s as [|a r IH]; [tauto|]. cbn [camel].
  destruct (is_lower a && starts_with is_upper r); cbn [In]; intros H.
  - destruct H as [H|[H|H]]; auto. destruct (IH H); auto.
  - destruct H as [H|H]; auto. destruct (IH H); auto.
Qed.

Lemma camel_keeps s c : In c s -> In c (camel s).
Proof.
  induction s as [|a r IH]; [tauto|]. cbn [camel].
  destruct (is_lower a && starts_with is_upper r); cbn [In]; intros [H|H];
    auto.
Qed.

Lemma collapse_units s c : In c (collapse s) -> In c s \/ c = SP.
Proof.
  induction s as [|a r IH]; [tauto|]. cbn [collapse].
  destruct (is_space a); [destruct (starts_with is_space r)|];
    cbn [In]; intros H.
  - destruct (IH H); auto.
  - destruct H as [H|H]; auto. destruct (IH H); auto.
  - destruct H as [H|H]; auto. destruct (IH H); auto.
Qed.

Lemma collapse_keeps s c : In c s -> is_space c = false -> In c (collapse s).
Proof.
  induction s as [|a r IH]; [tauto|]. intros [<-|H] Hc.
  - rewrite (collapse_nonspace _ _ Hc). left. reflexivity.
  - cbn [collapse].
    destruct (is_space a); [destruct (starts_with is_space r)|];
      cbn [In]; auto.
Qed.

Lemma unspace_units s c : In c (unspace s) -> In c s.
Proof.
  induction s as [|a r IH]; [tauto|]. cbn [unspace].
  destruct (is_space a && punct_next r); cbn [In]; intros H; [auto|].
  destruct H; auto.
Qed.

Lemma unspace_keeps s c : In c s -> is_space c = false -> In c (unspace s).
Proof.
  induction s as [|a r IH]; [tauto|]. intros [<-|H] Hc.
  - rewrite (unspace_nonspace _ _ Hc). left. reflexivity.
  - cbn [unspace]. destruct (is_space a && punct_next r); cbn [In]; auto.
Qed.

Lemma respace_units s : forall c, In c (respace s) -> In c s \/ c = SP.
Proof.
  induction s as [s IH] using jsstring_length_ind. intros c.
  destruct s as [|a r]; [tauto|].
  destruct (is_punct a) eqn:Hp.
  - destruct r as [|b r']; [rewrite respace_last; auto|].
    destruct (is_space b) eqn:Hb.
    + rewrite (respace_punct_space _ _ _ Hp Hb). intros [H|H]; [left; left; exact H|].
      destruct (IH (b :: r') ltac:(simpl; lia) c H); [left; right|]; auto.
    + rewrite (respace_punct_glued _ _ _ Hp Hb).
      intros [H|[H|[H|H]]]; auto.
      * left. left. exact H.
      * left. right. left. exact H.
      * destruct (IH r' ltac:(simpl; lia) c H); auto.
        left. right. right. assumption.
  - rewrite (respace_nonpunct _ _ Hp). intros [H|H]; [left; left; exact H|].
    destruct (IH r ltac:(simpl; lia) c H); [left; right|]; auto.
Qed.

Lemma respace_keeps s : forall c, In c s -> In c (respace s).
Proof.
  induction s as [s IH] using jsstring_length_ind. intros c.
  destruct s as [|a r]; [tauto|].
  destruct (is_punct a) eqn:Hp.
  - destruct r as [|b r']; [rewrite respace_last; auto|].
    destruct (is_space b) eqn:Hb.
    + rewrite (respace_punct_space _ _ _ Hp Hb). intros [H|H]; [left; exact H|].
      right. apply IH; [simpl; lia|exact H].
    + rewrite (respace_punct_glued _ _ _ Hp Hb).
      intros [H|[H|H]].
      * left. exact H.
      * right. right. left. exact H.
      * right. right. right. apply IH; [simpl; lia|exact H].
  - rewrite (respace_nonpunct _ _ Hp). intros [H|H]; [left; exact H|].
    right. apply IH; [simpl; lia|exact H].
Qed.

Lemma skip_ws_units s c : In c (skip_ws s) -> In c s.
Proof.
  induction s as [|a r IH]; [tauto|]. cbn [skip_ws].
  destruct (is_space a); [right; auto|trivial].
Qed.

Lemma skip_ws_keeps s c : In c s -> is_space c = false -> In c (skip_ws s).
Proof.
  induction s as [|a r IH]; [tauto|]. intros Hin Hc. cbn [skip_ws].
  destruct (is_space a) eqn:Ha; [|exact Hin].
  destruct Hin as [<-|H]; [congruence|auto].
Qed.

Lemma rtrim_units s c : In c (rtrim s) -> In c s.
Proof.
  induction s as [|a r IH]; [tauto|].
  destruct (rtrim_head (a :: r)) as [->|(a' & r' & Heq & ->)]; [intros []|].
  injection Heq as <- <-. intros [H|H]; [left|right]; auto.
Qed.

Lemma rtrim_keeps s c : In c s -> is_space c = false -> In c (rtrim s).
Proof.
  induction s as [|a r IH]; [tauto|]. intros [<-|H] Hc.
  - rewrite (rtrim_cons_nonspace _ _ Hc). left. reflexivity.
  - pose proof (IH H Hc) as Hin.
    rewrite rtrim_cons_nonblank; [right; exact Hin|].
    intros Hb. apply rtrim_nil in Hb. rewrite Hb in Hin. destruct Hin.
Qed.

Lemma trim_units s c : In c (trim s) -> In c s.
Proof. intros H. apply skip_ws_units, rtrim_units, H. Qed.

Lemma trim_keeps s c : In c s -> is_space c = false -> In c (trim s).
Proof. intros H Hc. apply rtrim_keeps; [apply skip_ws_keeps|]; assumption. Qed.

(** [preprocessText] adds nothing but U+0020 and removes nothing but white
    space. *)
Lemma preprocessText_units text c :
  In c (preprocessText text) -> In c text \/ c = SP.
Proof.
  rewrite preprocessText_eq. intros H. apply trim_units in H.
  apply respace_units in H as [H|H]; [|auto].
  apply unspace_units in H.
  apply collapse_units in H as [H|H]; [|auto].
  apply camel_units, H.
Qed.

Lemma preprocessText_keeps text c :
  In c text -> is_space c = false -> In c (preprocessText text).
Proof.
  rewrite preprocessText_eq. intros H Hc.
  apply trim_keeps; [|exact Hc]. apply respace_keeps.
  apply unspace_keeps; [|exact Hc]. apply collapse_keeps; [|exact Hc].
  apply camel_keeps, H.
Qed.

(** ** Pieces of [split] *)

Lemma split_go_units s :
  forall b cur piece c,
    In piece (split_go b cur s) -> In c piece ->
    In c cur \/ (In c s /\ is_delim c = false).
Proof.
  induction s as [|d s IH]; intros b cur piece c Hp Hc; cbn [split_go] in Hp.
  - destruct Hp as [<-|[]]. left. exact Hc.
  - destruct (is_delim d) eqn:Hd.
    + assert (Hrest : In piece (split_go true [] s) ->
                      In c cur \/ (In c (d :: s) /\ is_delim c = false)).
      { intros H. destruct (IH _ _ _ _ H Hc) as [[]|[H1 H2]].
        right. split; [right; exact H1|exact H2]. }
      destruct b; [auto|]. destruct Hp as [<-|Hp]; auto.
    + destruct (IH _ _ _ _ Hp Hc) as [H|[H1 H2]].
      * apply in_app_or in H as [H|[<-|[]]]; [auto|].
        right. split; [left; reflexivity|exact Hd].
      * right. split; [right; exact H1|exact H2].
Qed.

Lemma split_go_covers s :
  forall b cur c,
    (b = false /\ In c cur) \/ (In c s /\ is_delim c = false) ->
    exists piece, In piece (split_go b cur s) /\ In c piece.
Proof.
  induction s as [|d s IH]; intros b cur c H; cbn [split_go].
  - destruct H as [[_ H]|[[] _]]. exists cur. split; [left; reflexivity|exact H].
  - destruct (is_delim d) eqn:Hd.
    + destruct H as [[-> H]|[[<-|H] Hc]].
      * exists cur. split; [left; reflexivity|exact H].
      * congruence.
      * destruct (IH true [] c) as (piece & Hp & Hin); [right; auto|].
        exists piece. split; [|exact Hin]. destruct b; [exact Hp|right; exact Hp].
    + apply IH. destruct H as [[_ H]|[[<-|H] Hc]].
      * left. split; [reflexivity|]. apply in_or_app. left. exact H.
      * left. split; [reflexivity|]. apply in_or_app. right. left. reflexivity.
      * right. auto.
Qed.

Lemma skip_ws_all_space s :
  Forall (fun c => is_space c = true) s -> skip_ws s = [].
Proof.
  induction 1 as [|c s Hc _ IH]; [reflexivity|]. cbn [skip_ws].
  rewrite Hc. exact IH.
Qed.

Lemma filler_cases c :
  is_filler c = true <-> is_space c = true \/ is_delim c = true.
Proof. unfold is_filler. apply orb_true_iff. Qed.

(** The sentences of a clean text are its code units that are neither
    white space nor [. ! ?], and the white space between them. *)
Lemma sentences_of_nil clean :
  Forall (fun c => is_filler c = true) clean -> sentences_of clean = [].
Proof.
  intros H. unfold sentences_of, split_sentences.
  assert (Hp : forall piece, In piece (split_go false [] clean) ->
                             trim piece = []).
  { intros piece Hin. unfold trim. rewrite skip_ws_all_space; [reflexivity|].
    apply List.Forall_forall. intros c Hc.
    destruct (split_go_units _ _ _ _ _ Hin Hc) as [[]|[H1 H2]].
    rewrite List.Forall_forall in H. apply H, filler_cases in H1.
    destruct H1; congruence. }
  induction (split_go false [] clean) as [|piece l IH]; [reflexivity|].
  cbn [List.map List.filter]. rewrite (Hp piece) by (left; reflexivity).
  cbn [truthy]. apply IH. intros p Hin. apply Hp. right. exact Hin.
Qed.

Lemma sentences_of_content clean c :
  In c clean -> is_filler c = false -> sentences_of clean <> [].
Proof.
  intros Hin Hc. apply orb_false_iff in Hc as [Hs Hd].
  destruct (split_go_covers clean false [] c) as (piece & Hp & Hcp);
    [right; auto|].
  assert (Ht : In (trim piece) (sentences_of clean)).
  { unfold sentences_of, split_sentences. apply filter_In. split.
    - apply in_map, Hp.
    - pose proof (trim_keeps _ _ Hcp Hs) as Hk.
      destruct (trim piece); [destruct Hk|reflexivity]. }
  intros E. rewrite E in Ht. destruct Ht.
Qed.

Lemma chunk_groups_nil size ts : chunk_groups size ts = [] <-> ts = [].
Proof.
  split.
  - intros H. rewrite <- (chunk_groups_concat size ts), H. reflexivity.
  - intros ->. reflexivity.
Qed.

(** X2.  [splitIntoChunks] returns no chunk exactly for the texts made of
    white space and of [. ! ?] only, the empty text among them; this does
    not depend on [size]. *)
Theorem splitIntoChunks_nil_iff (text : jsstring) (size : Z) :
  splitIntoChunks text size = []
  <-> Forall (fun c => is_filler c = true) text.
Proof.
  rewrite splitIntoChunks_groups. split.
  - intros H. apply map_eq_nil, chunk_groups_nil in H.
    apply List.Forall_forall. intros c Hin.
    destruct (is_filler c) eqn:Hc; [reflexivity|]. exfalso.
    apply orb_false_iff in Hc as Hc'. destruct Hc' as [Hs _].
    exact (sentences_of_content _ c
             (preprocessText_keeps _ _ Hin Hs) Hc H).
  - intros H. rewrite sentences_of_nil; [reflexivity|].
    apply List.Forall_forall. intros c Hin.
    apply preprocessText_units in Hin as [Hin| ->]; [|reflexivity].
    rewrite List.Forall_forall in H. apply H, Hin.
Qed.

(** ** Small sizes and full chunks *)

Lemma truthy_jslength t : truthy t = true -> (1 <= jslength t)%Z.
Proof. destruct t; [discriminate|]. unfold jslength. cbn [List.length]. lia. Qed.

Lemma jslength_nonneg (t : jsstring) : (0 <= jslength t)%Z.
Proof. unfold jslength. lia. Qed.

Lemma fold_group_step_small size ts :
  (size <= 1)%Z ->
  Forall (fun t => truthy t = true) ts ->
  forall gs g,
    close_groups (fold_left (group_step size) ts (gs, g)) =
    gs ++ match g with [] => [] | _ :: _ => [g] end
       ++ List.map (fun t => [t]) ts.
Proof.
  intros Hsize. induction 1 as [|t ts Ht _ IH]; intros gs g.
  - cbn [fold_left close_groups List.map]. destruct g; [|reflexivity].
    rewrite app_nil_r. reflexivity.
  - cbn [fold_left]. unfold group_step at 2.
    pose proof (truthy_jslength _ Ht). pose proof (jslength_nonneg (join_sentences g)).
    destruct (Z.leb_spec (jslength (join_sentences g) + jslength t + 1) size);
      [lia|].
    rewrite IH. cbn [List.map]. destruct g; rewrite <- ?app_assoc; reflexivity.
Qed.

Lemma sentences_of_truthy clean :
  Forall (fun t => truthy t = true) (sentences_of clean).
Proof. apply filter_truthy_all. Qed.

(** X3.  With [size <= 1] no sentence passes the test of the loop, not
    even into an empty chunk: every sentence of the normalised text comes
    back as a chunk of its own, closed by ['.']. *)
Theorem splitIntoChunks_small_size (text : jsstring) (size : Z) :
  (size <= 1)%Z ->
  splitIntoChunks text size =
  List.map (fun t => t ++ str ".") (sentences_of (preprocessText text)).
Proof.
  intros Hsize. rewrite splitIntoChunks_groups. unfold chunk_groups.
  rewrite (fold_group_step_small size _ Hsize (sentences_of_truthy _)).
  cbn [app]. rewrite List.map_map. reflexivity.
Qed.

Lemma splitIntoChunks_small_size_witness :
  splitIntoChunks (str "One. Two! Three") 1
  = [str "One."; str "Two."; str "Three."].
Proof.
  rewrite (splitIntoChunks_small_size (str "One. Two! Three") 1); [|lia].
  vm_compute. reflexivity.
Defined.

Lemma closed_when_full_last size l g t :
  closed_when_full size (l ++ [g]) -> g <> [] ->
  closed_when_full size (l ++ [g ++ [t]]).
Proof.
  intros H Hg. destruct g as [|u g]; [congruence|]. clear Hg.
  induction l as [|a l IH]; [split; exact I|].
  cbn [app] in *. destruct H as [Ha H]. split; [|apply IH, H].
  destruct l as [|b l]; exact Ha.
Qed.

Lemma closed_when_full_snoc size l g t :
  closed_when_full size (l ++ [g]) ->
  (size < jslength (join_sentences g) + jslength t + 1)%Z ->
  closed_when_full size ((l ++ [g]) ++ [[t]]).
Proof.
  intros H Hfull. induction l as [|a l IH].
  - cbn. repeat split. exact Hfull.
  - cbn [app] in *. destruct H as [Ha H]. split; [|apply IH, H].
    destruct l as [|b l]; exact Ha.
Qed.

Lemma fold_group_step_full size ts :
  forall gs g,
    (g = [] -> gs = []) ->
    closed_when_full size (close_groups (gs, g)) ->
    closed_when_full size
      (close_groups (fold_left (group_step size) ts (gs, g))).
Proof.
  induction ts as [|t ts IH]; intros gs g Hg H; [exact H|].
  cbn [fold_left]. unfold group_step at 2.
  destruct (Z.leb_spec (jslength (join_sentences g) + jslength t + 1) size)
    as [Hfit|Hfull].
  - apply IH; [intros E; destruct g; discriminate|].
    destruct g as [|u g].
    + rewrite (Hg eq_refl). cbn. auto.
    + cbn [close_groups app] in *.
      apply (closed_when_full_last size gs (u :: g) t H). discriminate.
  - apply IH; [discriminate|]. destruct g as [|u g].
    + rewrite (Hg eq_refl). cbn. auto.
    + cbn [close_groups] in *. apply closed_when_full_snoc; assumption.
Qed.

(** X4.  The chunks are filled greedily.  They are the sentences of the
    normalised text grouped in order, and a group ends only where the
    first sentence of the next group failed the test of the loop:
    [size < length of the group joined + length of that sentence + 1]. *)
Theorem splitIntoChunks_greedy (text : jsstring) (size : Z) :
  exists groups : list (list jsstring),
    splitIntoChunks text size
    = List.map (fun g => join_sentences g ++ str ".") groups
    /\ List.concat groups = sentences_of (preprocessText text)
    /\ closed_when_full size groups.
Proof.
  exists (chunk_groups size (sentences_of (preprocessText text))).
  split; [apply splitIntoChunks_groups|].
  split; [apply chunk_groups_concat|].
  unfold chunk_groups. apply fold_group_step_full; [reflexivity|exact I].
Qed.

(** * More on ingestion *)

Lemma upsert_all_cons userId r recs st :
  upsert_all userId (r :: recs) st
  = upsert_all userId recs
      (<[userId := <[id r := r]> (records_of st userId)]> st).
Proof. reflexivity. Qed.

Lemma upsert_all_other userId recs :
  forall st namespace,
    namespace <> userId ->
    upsert_all userId recs st !! namespace = st !! namespace.
Proof.
  induction recs as [|r recs IH]; intros st namespace Hne; [reflexivity|].
  rewrite upsert_all_cons, IH by exact Hne.
  apply lookup_insert_ne. congruence.
Qed.

Lemma upsert_all_app userId recs1 recs2 st :
  upsert_all userId (recs1 ++ recs2) st
  = upsert_all userId recs2 (upsert_all userId recs1 st).
Proof. unfold upsert_all. apply fold_left_app. Qed.

Lemma upsert_all_keeps userId recs :
  forall st rid r,
    records_of st userId !! rid = Some r ->
    Forall (fun r' => id r' <> rid) recs ->
    records_of (upsert_all userId recs st) userId !! rid = Some r.
Proof.
  induction recs as [|r' recs IH]; intros st rid r Hr Hne; [exact Hr|].
  inversion Hne; subst. rewrite upsert_all_cons. apply IH; [|assumption].
  rewrite records_of_insert, lookup_insert_ne; assumption.
Qed.

Section MoreIngestion.

Context {Orc : Type} (E : Services Orc).

(** A turn that goes through: the record it made, the store and the log
    it leaves. *)
Lemma add_chunk_ok userId caller total i chunk (w w' : World Orc) rid c :
  add_chunk E userId caller total i chunk w = (inr (rid, c), w') ->
  exists r,
    rid = id r /\ c = chunk
    /\ (exists t, id r = record_id t i)
    /\ metadata r !! str "text" = Some (JString chunk)
    /\ isArray (values r) = true
    /\ store w' = upsert_all userId [r] (store w)
    /\ log w' = log w ++ ingest_calls userId [(chunk, r)]
    /\ exists timestamp,
         metadata r
         = record_metadata caller chunk i total timestamp userId.
Proof.
  unfold add_chunk, bind. rewrite getEmbedding_run. cbv zeta.
  destruct (svc_fetch E _ MODEL_EMBEDDING chunk (oracle w)) as [r o1].
  assert (Harr : forall v,
    match r with
    | inl e => inl e
    | inr resp =>
        if ok resp then
          match body resp with
          | inl e => inl e
          | inr data =>
              match embedding_of data with
              | inl e => inl e
              | inr v =>
                  if isArray v then inr v
                  else inl (JsError
                         (str "Invalid embedding format received from Ollama"))
              end
          end
        else inl (JsError (str "HTTP error! status: " ++ dec (status resp)))
    end = inr v -> isArray v = true).
  { intros v. destruct r as [e|resp]; [discriminate|].
    destruct (ok resp); [|discriminate].
    destruct (body resp) as [e|data]; [discriminate|].
    destruct (embedding_of data) as [e|v']; [discriminate|].
    destruct (isArray v') eqn:Hv; [|discriminate].
    intros H. injection H as <-. exact Hv. }
  match goal with
  | |- context [match ?x with inl _ => _ | inr _ => _ end] =>
      destruct x as [e|embedding]
  end; [discriminate|].
  specialize (Harr embedding eq_refl).
  unfold now, upsert, call, ret. cbn [oracle store log].
  destruct (svc_now E o1) as [t o2]. cbn [oracle store log].
  destruct (svc_now E o2) as [t' o3]. cbn [oracle store log].
  match goal with
  | |- context [svc_upsert E userId ?r o3] =>
      set (rec := r); destruct (svc_upsert E userId rec o3) as [[e|] o4]
  end; cbn [oracle store log]; [discriminate|].
  intros H. injection H as <- <- <-. exists rec.
  split; [reflexivity|]. split; [reflexivity|].
  split; [exists t; reflexivity|].
  split; [apply record_metadata_text|]. split; [exact Harr|].
  split; [reflexivity|]. split.
  - cbn [log ingest_calls flat_map fst snd app].
    rewrite <- app_assoc. reflexivity.
  - exists (svc_toISOString E t'). reflexivity.
Qed.

(** However a run of the loop ends, the store is the old one with
    records of ids [doc_T_chunk_j], [j] from [i] on, put into the name
    space of the user. *)
Lemma addDocument_loop_store userId caller total (chunks : list jsstring) :
  forall i results (w : World Orc),
    exists recs,
      store (snd (addDocument_loop E userId caller total i chunks results w))
      = upsert_all userId recs (store w)
      /\ Forall (fun r => exists t j, i <= j /\ id r = record_id t j) recs.
Proof.
  induction chunks as [|chunk chunks IH]; intros i results w.
  - exists []. split; [reflexivity|constructor].
  - cbn [addDocument_loop]. unfold bind.
    pose proof (add_chunk_run E userId caller total i chunk w) as Hrun.
    destruct (add_chunk E userId caller total i chunk w) as [[e|[rid c]] w1]
      eqn:Hc.
    + destruct Hrun as [Hst _]. exists []. split; [exact Hst|constructor].
    + clear Hrun. apply add_chunk_ok in Hc
        as (r & -> & -> & (t & Hid) & _ & _ & Hst & _ & _).
      destruct (IH (S i) (results ++ [(id r, chunk)]) w1) as (recs & Hs & Hids).
      exists (r :: recs). split.
      * rewrite Hs, Hst. reflexivity.
      * constructor; [exists t, i; split; [lia|exact Hid]|].
        eapply List.Forall_impl; [|exact Hids].
        intros r' (t' & j & Hj & Hr'). exists t', j. split; [lia|exact Hr'].
Qed.

(** A run of the loop that comes to its end, call by call. *)
Lemma addDocument_loop_trace userId caller total (chunks : list jsstring) :
  forall i results (w : World Orc) results' w',
    addDocument_loop E userId caller total i chunks results w
    = (inr results', w') ->
    exists pairs : list (jsstring * StoredRecord),
      List.map fst pairs = chunks
      /\ results' = results ++ List.map (fun p => (id (snd p), fst p)) pairs
      /\ store w' = upsert_all userId (List.map snd pairs) (store w)
      /\ log w' = log w ++ ingest_calls userId pairs
      /\ Forall (fun p =>
                   metadata (snd p) !! str "text" = Some (JString (fst p))
                   /\ isArray (values (snd p)) = true) pairs
      /\ (forall j p, pairs !! j = Some p ->
            exists t, id (snd p) = record_id t (i + j))
      /\ (forall j p, pairs !! j = Some p ->
            exists timestamp,
              metadata (snd p)
              = record_metadata caller (fst p) (i + j) total timestamp userId).
Proof.
  induction chunks as [|chunk chunks IH]; intros i results w results' w' H.
  - cbn [addDocument_loop] in H. unfold ret in H. injection H as <- <-.
    exists []. cbn. rewrite !app_nil_r.
    repeat split; try constructor; intros j p Hj; discriminate.
  - cbn [addDocument_loop] in H. unfold bind in H.
    destruct (add_chunk E userId caller total i chunk w) as [[e|[rid c]] w1]
      eqn:Hc; [discriminate|].
    apply add_chunk_ok in Hc
      as (r & -> & -> & Hid & Htext & Harr & Hst & Hlog & Hmeta).
    apply IH in H as (pairs & Hmap & -> & Hst' & Hlog' & Hall & Hids & Hmetas).
    exists ((chunk, r) :: pairs). cbn [List.map fst snd].
    split; [rewrite Hmap; reflexivity|].
    split; [rewrite <- app_assoc; reflexivity|].
    split; [rewrite Hst', Hst; reflexivity|].
    split.
    { rewrite Hlog', Hlog. unfold ingest_calls. cbn [flat_map fst snd].
      rewrite <- !app_assoc. reflexivity. }
    split; [constructor; [split; assumption|exact Hall]|].
    split.
    { intros [|j] p Hj.
      - cbn in Hj. injection Hj as <-. cbn [snd].
        rewrite Nat.add_0_r. exact Hid.
      - cbn in Hj. destruct (Hids j p Hj) as [t Ht]. exists t.
        rewrite Ht. f_equal. lia. }
    intros [|j] p Hj.
    + cbn in Hj. injection Hj as <-. cbn [fst snd].
      rewrite Nat.add_0_r. exact Hmeta.
    + cbn in Hj. destruct (Hmetas j p Hj) as [ts Hts]. exists ts.
      rewrite Hts. f_equal. lia.
Qed.

End MoreIngestion.

Lemma record_ids_NoDup {A} (f : A -> jsstring) (l : list A) :
  forall i,
    (forall j p, l !! j = Some p -> exists t, f p = record_id t (i + j)) ->
    NoDup (List.map f l).
Proof.
  induction l as [|p l IH]; intros i H; [constructor|].
  cbn [List.map]. constructor.
  - destruct (H 0 p eq_refl) as [t Ht]. rewrite Nat.add_0_r in Ht.
    intros Hin. apply list_elem_of_In, in_map_iff in Hin as (q & Hq & Hin).
    apply list_elem_of_In, list_elem_of_lookup in Hin as [j Hj].
    destruct (H (S j) q Hj) as [t' Ht']. rewrite Ht, Ht' in Hq.
    apply record_id_inj in Hq as [_ Hq]. lia.
  - apply (IH (S i)). intros j q Hj. destruct (H (S j) q Hj) as [t Ht].
    exists t. rewrite Ht. f_equal. lia.
Qed.

Lemma splitIntoChunks_filler text size :
  Forall (fun c => is_filler c = true) text -> splitIntoChunks text size = [].
Proof.
  intros H. rewrite splitIntoChunks_groups, sentences_of_nil; [reflexivity|].
  apply List.Forall_forall. intros c Hin.
  apply preprocessText_units in Hin as [Hin| ->]; [|reflexivity].
  rewrite List.Forall_forall in H. apply H, Hin.
Qed.

Section IngestionResults.

Context {Orc : Type} (E : Services Orc).

Lemma addDocument_world userId text caller (w : World Orc) :
  snd (addDocument E userId text caller w)
  = snd (addDocument_loop E userId caller
           (List.length (splitIntoChunks text CHUNK_SIZE)) 0
           (splitIntoChunks text CHUNK_SIZE) [] w).
Proof.
  unfold addDocument, try_catch, bind, getIndex, ret, throw.
  destruct (addDocument_loop E userId caller _ 0 _ [] w) as [[e|res] w'];
    reflexivity.
Qed.

Lemma addDocument_inr userId text caller (w w' : World Orc) res :
  addDocument E userId text caller w = (inr res, w') ->
  let chunks := splitIntoChunks text CHUNK_SIZE in
  addDocument_loop E userId caller (List.length chunks) 0 chunks [] w
  = (inr (add_chunks res), w')
  /\ add_success res = true
  /\ add_message res
     = str "Added document with " ++ dec (Z.of_nat (List.length chunks))
         ++ str " chunks".
Proof.
  unfold addDocument, try_catch, bind, getIndex, ret, throw. cbv zeta.
  destruct (addDocument_loop E userId caller _ 0 _ [] w) as [[e|r] w1];
    [discriminate|].
  intros H. injection H as <- <-. repeat split.
Qed.

(** X5.  When [addDocument] returns, it returns one entry per chunk of
    [splitIntoChunks(text)], in order, with ids that are pairwise
    different; every chunk is in the name space of the user under its
    id; the message counts the chunks; and the calls made were, chunk
    by chunk, one embedding request with the chunk as prompt and then
    the upsert of a record whose [text] is the chunk and whose [values]
    is an array. *)
Theorem addDocument_done
  (userId text : jsstring) (caller : gmap jsstring json)
  (w w' : World Orc) (res : AddResult) :
  addDocument E userId text caller w = (inr res, w') ->
  let chunks := splitIntoChunks text CHUNK_SIZE in
  add_success res = true
  /\ add_message res
     = str "Added document with " ++ dec (Z.of_nat (List.length chunks))
         ++ str " chunks"
  /\ List.map snd (add_chunks res) = chunks
  /\ NoDup (List.map fst (add_chunks res))
  /\ (forall rid c,
        In (rid, c) (add_chunks res) -> holds_chunk (store w') userId rid c)
  /\ exists pairs : list (jsstring * StoredRecord),
       List.map fst pairs = chunks
       /\ log w' = log w ++ ingest_calls userId pairs
       /\ Forall (fun p =>
                    metadata (snd p) !! str "text" = Some (JString (fst p))
                    /\ isArray (values (snd p)) = true) pairs.
Proof.
  intros H chunks. apply addDocument_inr in H as (Hloop & Hs & Hm).
  fold chunks in Hloop, Hm.
  destruct (addDocument_loop_done E _ _ _ _ _ _ _ _ _ Hloop)
    as (new & Hnew & Hmap & Hheld & _ & _).
  cbn [app] in Hnew. subst new.
  destruct (addDocument_loop_trace E _ _ _ _ _ _ _ _ _ Hloop)
    as (pairs & Hp & Hres & _ & Hlog & Hall & Hids & _).
  cbn [app] in Hres.
  split; [exact Hs|]. split; [exact Hm|]. split; [exact Hmap|].
  split.
  { rewrite Hres, List.map_map. cbn [fst].
    apply (record_ids_NoDup (fun p => id (snd p)) pairs 0). exact Hids. }
  split; [exact Hheld|].
  exists pairs. auto.
Qed.

(** X6.  Whether it returns or throws, [addDocument] writes into the
    name space of its user only: every other name space has the records
    it had, and in the name space of the user a record whose id is not
    of the form [doc_T_chunk_j] is still there. *)
Theorem addDocument_own_namespace
  (userId text : jsstring) (caller : gmap jsstring json) (w : World Orc) :
  let w' := snd (addDocument E userId text caller w) in
  (forall namespace,
      namespace <> userId -> store w' !! namespace = store w !! namespace)
  /\ (forall rid r,
        records_of (store w) userId !! rid = Some r ->
        (forall t j, rid <> record_id t j) ->
        records_of (store w') userId !! rid = Some r).
Proof.
  intros w'. subst w'. rewrite addDocument_world.
  destruct (addDocument_loop_store E userId caller
              (List.length (splitIntoChunks text CHUNK_SIZE))
              (splitIntoChunks text CHUNK_SIZE) 0 [] w) as (recs & -> & Hids).
  split.
  - intros namespace Hne. apply upsert_all_other, Hne.
  - intros rid r Hr Hfresh. apply upsert_all_keeps; [exact Hr|].
    eapply List.Forall_impl; [|exact Hids].
    intros r' (t & j & _ & Hid) Heq. apply (Hfresh t j). congruence.
Qed.

(** X7.  A text of white space and [. ! ?] only, the empty text among
    them, has no chunk: [addDocument] makes no call, changes nothing and
    reports success with zero chunks. *)
Theorem addDocument_nothing_to_add
  (userId text : jsstring) (caller : gmap jsstring json) (w : World Orc) :
  Forall (fun c => is_filler c = true) text ->
  addDocument E userId text caller w
  = (inr {| add_success := true;
            add_message := str "Added document with 0 chunks";
            add_chunks := [] |}, w).
Proof.
  intros H. unfold addDocument, try_catch, bind, getIndex, ret.
  rewrite (splitIntoChunks_filler _ CHUNK_SIZE H). reflexivity.
Qed.

Lemma addDocuments_loop_results userId caller (docs : list jsstring) :
  forall results (w w' : World Orc) results',
    addDocuments_loop E userId docs caller results w = (inr results', w') ->
    exists new,
      results' = results ++ new
      /\ List.map (fun r => List.map snd (add_chunks r)) new
         = List.map (fun d => splitIntoChunks d CHUNK_SIZE) docs
      /\ Forall (fun r => add_success r = true) new.
Proof.
  induction docs as [|d docs IH]; intros results w w' results' H.
  - cbn [addDocuments_loop] in H. unfold ret in H. injection H as <- <-.
    exists []. rewrite app_nil_r. repeat split. constructor.
  - cbn [addDocuments_loop] in H. unfold bind in H.
    destruct (addDocument E userId d caller w) as [[e|r] w1] eqn:Hd;
      [discriminate|].
    apply IH in H as (new & -> & Hmap & Hall).
    pose proof (addDocument_inr _ _ _ _ _ _ Hd) as (Hloop & Hs & _).
    destruct (addDocument_loop_done E _ _ _ _ _ _ _ _ _ Hloop)
      as (new' & Hnew & Hsnd & _).
    cbn [app] in Hnew. subst new'.
    exists (r :: new). rewrite <- app_assoc. split; [reflexivity|].
    split; [cbn [List.map]; rewrite Hsnd, Hmap; reflexivity|].
    constructor; assumption.
Qed.

(** X8.  When [addDocuments] returns, it returns one result per
    document, in the order of the documents, each a success that lists
    the chunks of its document. *)
Theorem addDocuments_done
  (userId : jsstring) (documents : list jsstring)
  (caller : gmap jsstring json) (w w' : World Orc)
  (results : list AddResult) :
  addDocuments E userId documents caller w = (inr results, w') ->
  List.length results = List.length documents
  /\ Forall (fun r => add_success r = true) results
  /\ List.map (fun r => List.map snd (add_chunks r)) results
     = List.map (fun d => splitIntoChunks d CHUNK_SIZE) documents.
Proof.
  unfold addDocuments, try_catch, throw.
  destruct (addDocuments_loop E userId documents caller [] w)
    as [[e|rs] w1] eqn:Hl; [discriminate|].
  intros H. injection H as <- <-.
  apply addDocuments_loop_results in Hl as (new & Hnew & Hmap & Hall).
  cbn [app] in Hnew. subst new. split; [|split; assumption].
  rewrite <- (List.length_map (fun r => List.map snd (add_chunks r))), Hmap.
  apply List.length_map.
Qed.

End IngestionResults.

Lemma addDocument_done_witness :
  exists res w',
    addDocument frozen_clock (str "alice") (str "First") ∅ empty_world
    = (inr res, w')
    /\ List.map snd (add_chunks res) = [str "First."].
Proof.
  destruct (addDocument frozen_clock (str "alice") (str "First") ∅
              empty_world) as [[e|res] w'] eqn:Hrun.
  - exfalso. vm_compute in Hrun. discriminate Hrun.
  - exists res, w'. split; [reflexivity|].
    destruct (addDocument_done frozen_clock (str "alice") (str "First") ∅
                empty_world w' res Hrun) as (_ & _ & Hmap & _).
    rewrite Hmap. vm_compute. reflexivity.
Defined.

Lemma addDocument_nothing_to_add_witness :
  addDocument frozen_clock (str "alice") (str " ..! ?") ∅ empty_world
  = (inr {| add_success := true;
            add_message := str "Added document with 0 chunks";
            add_chunks := [] |}, empty_world).
Proof.
  apply (addDocument_nothing_to_add frozen_clock (str "alice") (str " ..! ?")
           ∅ empty_world).
  repeat constructor.
Defined.

Lemma addDocuments_done_witness :
  exists results w',
    addDocuments frozen_clock (str "alice") [str "First"; str "Second"] ∅
      empty_world = (inr results, w')
    /\ List.length results = 2.
Proof.
  destruct (addDocuments frozen_clock (str "alice")
              [str "First"; str "Second"] ∅ empty_world)
    as [[e|results] w'] eqn:Hrun.
  - exfalso. vm_compute in Hrun. discriminate Hrun.
  - exists results, w'. split; [reflexivity|].
    destruct (addDocuments_done frozen_clock (str "alice")
                [str "First"; str "Second"] ∅ empty_world w' results Hrun)
      as (Hlen & _). exact Hlen.
Defined.

(** * More on the embedding client and on the index *)

Section MoreLifecycle.

Context {Orc : Type} (E : Services Orc).

(** X10.  What [getEmbedding] returns is always an array: it returns
    only after an answer with a status in 200..299 whose body parsed,
    and the value is the [embedding] field of that body.  The call sent
    one request and left the store as it was. *)
Theorem getEmbedding_returns_array
  (text : jsstring) (w w' : World Orc) (v : json) :
  getEmbedding E text w = (inr v, w') ->
  isArray v = true
  /\ (exists resp data,
        fst (svc_fetch E (OLLAMA_API ++ str "/api/embeddings")
               MODEL_EMBEDDING text (oracle w)) = inr resp
        /\ ok resp = true
        /\ body resp = inr data
        /\ embedding_of data = inr v)
  /\ store w' = store w
  /\ log w'
     = log w ++ [CFetch (OLLAMA_API ++ str "/api/embeddings")
                   MODEL_EMBEDDING text].
Proof.
  rewrite getEmbedding_run. cbv zeta.
  destruct (svc_fetch E _ MODEL_EMBEDDING text (oracle w)) as [[e|resp] o'];
    [discriminate|].
  destruct (ok resp) eqn:Hok; [|discriminate].
  destruct (body resp) as [e|data] eqn:Hb; [discriminate|].
  destruct (embedding_of data) as [e|v'] eqn:He; [discriminate|].
  destruct (isArray v') eqn:Hv; [|discriminate].
  intros H. injection H as <- <-. cbn [fst store log].
  split; [exact Hv|]. split; [|split; reflexivity].
  exists resp, data. auto.
Qed.

Lemma failed_attempts_polls n : forallb is_poll (failed_attempts n) = true.
Proof. induction n as [|n IH]; [reflexivity|]. cbn. exact IH. Qed.

Lemma failed_attempts_length n : List.length (failed_attempts n) = 2 * n.
Proof. induction n as [|n IH]; [reflexivity|]. cbn [failed_attempts List.length]. lia. Qed.

(** X11.  [createUserIndex] never touches the records, and what it does
    follows the answers it gets.  It first asks [describeIndex]; when
    that succeeds nothing else is sent and the message is the one of a
    ready index.  When it fails, one [createIndex] is sent, for the
    index [rag-docs-llama] of dimension 4096 with the cosine metric; if
    that call fails its error is thrown and nothing else is sent;
    otherwise at most twenty calls of the polling loop follow, and the
    call returns the message of a created index after an attempt that
    saw the ready flag, or throws the error of [waitForIndex] after ten
    attempts that did not see it. *)
Theorem createUserIndex_calls (userId : jsstring) (w : World Orc) :
  let '(r, w') := createUserIndex E userId w in
  store w' = store w
  /\ match svc_describeIndex E INDEX_NAME (oracle w) with
     | (inr _, _) =>
         r = inr {| success := true;
                    message := str "Index ready for user " ++ userId |}
         /\ log w' = log w ++ [CDescribeIndex INDEX_NAME]
     | (inl _, o1) =>
         match svc_createIndex E INDEX_SPEC o1 with
         | (Some e, _) =>
             r = inl e
             /\ log w'
                = log w ++ [CDescribeIndex INDEX_NAME;
                            CCreateIndex INDEX_SPEC]
         | (None, o2) =>
             exists polls,
               log w'
               = log w ++ CDescribeIndex INDEX_NAME
                          :: CCreateIndex INDEX_SPEC :: polls
               /\ forallb is_poll polls = true
               /\ List.length polls <= 20
               /\ match r with
                  | inr res =>
                      res = {| success := true;
                               message :=
                                 str "Created index and ready for user "
                                 ++ userId |}
                      /\ exists j,
                           j < 10
                           /\ polls = failed_attempts j
                                      ++ [CDescribeIndex INDEX_NAME]
                           /\ sees_ready E (after_polls E j o2)
                           /\ forall i, i < j ->
                                ~ sees_ready E (after_polls E i o2)
                  | inl e =>
                      e = JsError (str "Index " ++ INDEX_NAME
                                     ++ str " not ready after 10 attempts")
                      /\ polls = failed_attempts 10
                      /\ forall i, i < 10 ->
                           ~ sees_ready E (after_polls E i o2)
                  end
         end
     end.
Proof.
  unfold createUserIndex, try_catch, bind, describeIndex, createIndex, call,
    ret, throw.
  destruct (svc_describeIndex E INDEX_NAME (oracle w)) as [[e0|d] o1];
    cbn [oracle store log].
  2:{ split; [reflexivity|]. split; reflexivity. }
  fold INDEX_SPEC.
  destruct (svc_createIndex E INDEX_SPEC o1) as [[e|] o2];
    cbn [oracle store log].
  { split; [reflexivity|]. split; [reflexivity|].
    rewrite <- app_assoc. reflexivity. }
  unfold waitForIndex.
  match goal with
  | |- context [waitForIndex_loop E ?m ?n ?w0] =>
      pose proof (waitForIndex_loop_polls E m n w0) as Hp;
      destruct (waitForIndex_loop E m n w0) as [[e|b] w']
  end; cbn [oracle store log] in Hp.
  - destruct Hp as (Hs & He & _ & Hl & Hn). split; [exact Hs|].
    exists (failed_attempts 10).
    split; [rewrite Hl, <- !app_assoc; reflexivity|].
    split; [apply failed_attempts_polls|].
    split; [rewrite failed_attempts_length; lia|].
    split; [exact He|]. split; [reflexivity|].
    intros i Hi. apply observes_unready_spec, Hn.
    change (Z.to_nat DEFAULT_MAX_ATTEMPTS) with 10. exact Hi.
  - destruct Hp as (Hs & _ & j & Hj & _ & Hl & Hy & Hn).
    split; [exact Hs|].
    exists (failed_attempts j ++ [CDescribeIndex INDEX_NAME]).
    split; [rewrite Hl, <- !app_assoc; reflexivity|].
    split; [rewrite forallb_app, failed_attempts_polls; reflexivity|].
    change (Z.to_nat DEFAULT_MAX_ATTEMPTS) with 10 in Hj.
    split.
    { rewrite List.length_app, failed_attempts_length. cbn [List.length].
      lia. }
    split; [reflexivity|]. exists j. split; [exact Hj|].
    split; [reflexivity|]. split; [apply observes_ready_spec, Hy|].
    intros i Hi. apply observes_unready_spec, Hn, Hi.
Qed.

End MoreLifecycle.

Lemma getEmbedding_returns_array_witness :
  isArray (JArray [JNumber (1 # 2)]) = true
  /\ log (snd (getEmbedding frozen_clock (str "hi") empty_world))
     = [CFetch (OLLAMA_API ++ str "/api/embeddings") MODEL_EMBEDDING
          (str "hi")].
Proof.
  destruct (getEmbedding_returns_array frozen_clock (str "hi") empty_world
              (snd (getEmbedding frozen_clock (str "hi") empty_world))
              (JArray [JNumber (1 # 2)]))
    as (Harr & _ & _ & Hlog).
  - vm_compute. reflexivity.
  - split; [exact Harr|exact Hlog].
Defined.

(** * Metadata of the records *)

Lemma record_metadata_lookups caller chunk i total timestamp userId :
  let md := record_metadata caller chunk i total timestamp userId in
  md !! str "text" = Some (JString chunk)
  /\ md !! str "chunkIndex" = Some (JNumber (inject_Z (Z.of_nat i)))
  /\ md !! str "totalChunks" = Some (JNumber (inject_Z (Z.of_nat total)))
  /\ md !! str "timestamp" = Some (JString timestamp)
  /\ md !! str "userId" = Some (JString userId)
  /\ (forall key, ~ In key OWN_KEYS -> md !! key = caller !! key).
Proof.
  intros md. subst md. unfold record_metadata.
  split; [rewrite !lookup_insert_ne by (vm_compute; discriminate);
          apply lookup_insert_eq|].
  split; [rewrite !lookup_insert_ne by (vm_compute; discriminate);
          apply lookup_insert_eq|].
  split; [rewrite !lookup_insert_ne by (vm_compute; discriminate);
          apply lookup_insert_eq|].
  split; [rewrite !lookup_insert_ne by (vm_compute; discriminate);
          apply lookup_insert_eq|].
  split; [apply lookup_insert_eq|].
  intros key Hkey. unfold OWN_KEYS in Hkey. cbn [In] in Hkey.
  rewrite !lookup_insert_ne; [reflexivity|..]; intros Heq; apply Hkey; auto 10.
Qed.

Lemma upsert_all_lookup userId recs :
  forall st r,
    NoDup (List.map id recs) -> In r recs ->
    records_of (upsert_all userId recs st) userId !! id r = Some r.
Proof.
  induction recs as [|r0 recs IH]; intros st r Hnd Hin; [destruct Hin|].
  cbn [List.map] in Hnd. apply NoDup_cons in Hnd as [Hfresh Hnd].
  rewrite upsert_all_cons. destruct Hin as [->|Hin].
  - apply upsert_all_keeps.
    + rewrite records_of_insert. apply lookup_insert_eq.
    + apply List.Forall_forall. intros r' Hr' Heq. apply Hfresh.
      rewrite <- Heq. apply list_elem_of_In, in_map, Hr'.
  - apply IH; assumption.
Qed.

Section RecordMetadata.

Context {Orc : Type} (E : Services Orc).

(** X12.  The record of every chunk that [addDocument] reports is in the
    name space under the reported id, with an array as [values].  Its
    metadata has the chunk as [text], the position of the chunk as
    [chunkIndex], the number of chunks as [totalChunks], the user as
    [userId] and a [timestamp] string; these five keys win over the
    caller's, and every other key is as the caller gave it. *)
Theorem addDocument_metadata
  (userId text : jsstring) (caller : gmap jsstring json)
  (w w' : World Orc) (res : AddResult) :
  addDocument E userId text caller w = (inr res, w') ->
  forall j rid c,
    add_chunks res !! j = Some (rid, c) ->
    exists r timestamp,
      records_of (store w') userId !! rid = Some r
      /\ id r = rid
      /\ isArray (values r) = true
      /\ metadata r !! str "text" = Some (JString c)
      /\ metadata r !! str "chunkIndex"
         = Some (JNumber (inject_Z (Z.of_nat j)))
      /\ metadata r !! str "totalChunks"
         = Some (JNumber (inject_Z (Z.of_nat (List.length (add_chunks res)))))
      /\ metadata r !! str "timestamp" = Some (JString timestamp)
      /\ metadata r !! str "userId" = Some (JString userId)
      /\ (forall key, ~ In key OWN_KEYS -> metadata r !! key = caller !! key).
Proof.
  intros H j rid c Hj. apply addDocument_inr in H as (Hloop & _ & _).
  destruct (addDocument_loop_trace E _ _ _ _ _ _ _ _ _ Hloop)
    as (pairs & Hp & Hres & Hst & _ & Hall & Hids & Hmetas).
  cbn [app] in Hres. rewrite Hres in Hj |- *.
  rewrite list_lookup_fmap in Hj.
  destruct (pairs !! j) as [p|] eqn:Hpj; [|discriminate].
  cbn in Hj. injection Hj as <- <-.
  destruct (Hmetas j p Hpj) as [ts Hts]. cbn [Nat.add] in Hts.
  pose proof (record_metadata_lookups caller (fst p) j
                (List.length (splitIntoChunks text CHUNK_SIZE)) ts userId)
    as Hl. cbv zeta in Hl. rewrite <- Hts in Hl.
  destruct Hl as (H1 & H2 & H3 & H4 & H5 & H6).
  exists (snd p), ts. split.
  - rewrite Hst. apply upsert_all_lookup.
    + rewrite List.map_map.
      apply (record_ids_NoDup (fun p => id (snd p)) pairs 0 Hids).
    + apply in_map. apply list_elem_of_In, list_elem_of_lookup. eauto.
  - split; [reflexivity|]. split.
    { rewrite List.Forall_forall in Hall.
      apply (Hall p). apply list_elem_of_In, list_elem_of_lookup. eauto. }
    split; [exact H1|]. split; [exact H2|]. split.
    { rewrite H3. rewrite List.length_map, <- Hp, List.length_map.
      reflexivity. }
    split; [exact H4|]. split; [exact H5|exact H6].
Qed.

End RecordMetadata.

Lemma addDocument_metadata_witness :
  exists r,
    records_of
      (store (snd (addDocument frozen_clock (str "alice") (str "First")
                     {[ str "text" := JNull; str "title" := JNull ]}
                     empty_world)))
      (str "alice") !! str "doc_1700000000000_chunk_0" = Some r
    /\ metadata r !! str "text" = Some (JString (str "First."))
    /\ metadata r !! str "title" = Some JNull.
Proof.
  set (run := addDocument frozen_clock (str "alice") (str "First")
                {[ str "text" := JNull; str "title" := JNull ]} empty_world).
  unshelve epose proof
           (addDocument_metadata frozen_clock (str "alice") (str "First")
              {[ str "text" := JNull; str "title" := JNull ]}
              empty_world (snd run)
              {| add_success := true;
                 add_message := str "Added document with 1 chunks";
                 add_chunks :=
                   [(str "doc_1700000000000_chunk_0", str "First.")] |}
              _) as Hthm.
  { vm_compute. reflexivity. }
  destruct (Hthm 0 (str "doc_1700000000000_chunk_0") (str "First.") eq_refl)
    as (r & ts & Hr & _ & _ & Ht & _ & _ & _ & _ & Hother).
  exists r. split; [exact Hr|]. split; [exact Ht|].
  rewrite Hother; [vm_compute; reflexivity|].
  vm_compute. intros H. decompose [or] H; try discriminate; assumption.
Defined.

(** * PDF intake *)

(** Normalising a normalised text changes nothing. *)
Lemma preprocessText_again x :
  preprocessText (preprocessText x) = preprocessText x.
Proof.
  rewrite !preprocessText_eq.
  set (y := unspace (collapse (camel x))). set (z := respace y).
  assert (Hz1 : nocamel z)
    by (apply respace_nocamel, unspace_nocamel, collapse_nocamel,
          camel_nocamel).
  assert (Hz2 : single_spaced z)
    by (apply respace_single_spaced, unspace_single_spaced,
          collapse_single_spaced).
  rewrite (camel_fixed _ (trim_nocamel _ Hz1)).
  rewrite (collapse_fixed _ (trim_single_spaced _ Hz2)).
  rewrite <- trim_unspace, <- trim_respace, trim_idem.
  unfold z. rewrite (respace_unspace_respace y (unspace_tight _)).
  reflexivity.
Qed.

Lemma splitIntoChunks_preprocessed text size :
  splitIntoChunks (preprocessText text) size = splitIntoChunks text size.
Proof. unfold splitIntoChunks. rewrite preprocessText_again. reflexivity. Qed.

Section Pdf.

Context {Orc : Type} (E : Services Orc) (L : Library Orc).

Lemma addDocument_preprocessed userId text caller (w : World Orc) :
  addDocument E userId (preprocessText text) caller w
  = addDocument E userId text caller w.
Proof.
  unfold addDocument. rewrite splitIntoChunks_preprocessed. reflexivity.
Qed.

(** X13.  [processPdfBuffer] sends nothing and changes no record.  What
    it returns is the normalised text of the parsed file, a text that
    [preprocessText] leaves as it is; whatever goes wrong in the parser,
    it throws the one error ["Failed to process PDF file"], and the
    error of the parser is lost. *)
Theorem processPdfBuffer_result (pdfBuffer : list N) (w : World Orc) :
  let '(r, w') := processPdfBuffer L pdfBuffer w in
  store w' = store w /\ log w' = log w
  /\ match r with
     | inr text =>
         preprocessText text = text
         /\ exists data,
              fst (lib_pdfParse L pdfBuffer (oracle w)) = inr data
              /\ text = preprocessText (pdf_text data)
     | inl e =>
         e = JsError (str "Failed to process PDF file")
         /\ exists reason,
              fst (lib_pdfParse L pdfBuffer (oracle w)) = inl reason
     end.
Proof.
  unfold processPdfBuffer, try_catch, bind, pdfParse, library_call, ret,
    throw.
  destruct (lib_pdfParse L pdfBuffer (oracle w)) as [[e|data] o'];
    cbn [fst store log].
  - repeat split. exists e. reflexivity.
  - repeat split; [apply preprocessText_again|].
    exists data. split; reflexivity.
Qed.

(** X14.  [addPdfDocument] on a file that parses is [addDocument] on the
    parsed text with the caller's metadata where [documentType] is set
    to ["pdf"]: normalising the text before handing it over changes no
    chunk.  On a file that does not parse it throws ["Failed to process
    PDF file"] and sends nothing. *)
Theorem addPdfDocument_is_addDocument
  (userId : jsstring) (pdfBuffer : list N) (caller : gmap jsstring json)
  (w : World Orc) :
  let '(parsed, o') := lib_pdfParse L pdfBuffer (oracle w) in
  let w1 := {| oracle := o'; store := store w; log := log w |} in
  addPdfDocument E L userId pdfBuffer caller w
  = match parsed with
    | inr data =>
        addDocument E userId (pdf_text data)
          (<[str "documentType" := JString (str "pdf")]> caller) w1
    | inl _ => (inl (JsError (str "Failed to process PDF file")), w1)
    end.
Proof.
  unfold addPdfDocument, processPdfBuffer, pdfParse, library_call.
  unfold try_catch at 1 2. unfold bind at 1 2. unfold ret, throw.
  destruct (lib_pdfParse L pdfBuffer (oracle w)) as [[e|data] o'];
    cbv zeta; [reflexivity|].
  rewrite addDocument_preprocessed.
  destruct (addDocument E userId (pdf_text data) _ _) as [[e|r] w2];
    reflexivity.
Qed.

End Pdf.

(** * Retrieval and answers *)

Lemma map_matches_inr ms :
  forall docs,
    map_matches ms = inr docs ->
    Forall2
      (fun m d =>
         match_metadata m = Some (doc_metadata d)
         /\ doc_text d = default JUndefined (doc_metadata d !! str "text")
         /\ similarity d = match score m with
                           | Some q => JNumber q
                           | None => JUndefined
                           end)
      ms docs.
Proof.
  induction ms as [|m ms IH]; intros docs H; cbn [map_matches] in H.
  - injection H as <-. constructor.
  - unfold similar_doc in H. destruct (match_metadata m) as [md|] eqn:Hmd;
      [|discriminate].
    destruct (map_matches ms) as [e|ds]; [discriminate|].
    injection H as <-. constructor; [|apply IH; reflexivity].
    cbn. auto.
Qed.

Lemma map_matches_bare ms :
  (exists m, In m ms /\ match_metadata m = None) ->
  map_matches ms
  = inl (TypeError
           (str "Cannot read properties of undefined (reading 'text')")).
Proof.
  induction ms as [|m ms IH]; intros (m0 & Hin & Hm0); [destruct Hin|].
  cbn [map_matches]. unfold similar_doc at 1.
  destruct (match_metadata m) as [md|] eqn:Hmd; [|reflexivity].
  destruct Hin as [->|Hin]; [congruence|].
  rewrite IH; [reflexivity|]. exists m0. auto.
Qed.

Section RetrievalFacts.

Context {Orc : Type} (E : Services Orc) (L : Library Orc).

Lemma findSimilarDocuments_run userId queryText topK (w : World Orc) :
  findSimilarDocuments E L userId queryText topK w =
  match getEmbedding E queryText w with
  | (inl e, w1) => (inl e, w1)
  | (inr v, w1) =>
      let '(r, o2) := lib_query L userId v topK (oracle w1) in
      (match r with
       | inl e => inl e
       | inr resp => map_matches (matches resp)
       end,
       {| oracle := o2; store := store w1;
          log := log w1 ++ [CQuery userId v topK] |})
  end.
Proof.
  unfold findSimilarDocuments, try_catch, bind, getIndex, ret, throw,
    query.
  destruct (getEmbedding E queryText w) as [[e|v] w1]; [reflexivity|].
  destruct (lib_query L userId v topK (oracle w1)) as [[e|resp] o2];
    [reflexivity|].
  destruct (map_matches (matches resp)); reflexivity.
Qed.

Lemma getEmbedding_world text (w : World Orc) :
  store (snd (getEmbedding E text w)) = store w
  /\ log (snd (getEmbedding E text w))
     = log w ++ [CFetch (OLLAMA_API ++ str "/api/embeddings")
                   MODEL_EMBEDDING text].
Proof.
  rewrite getEmbedding_run. cbv zeta.
  destruct (svc_fetch E _ MODEL_EMBEDDING text (oracle w)) as [r o'].
  split; reflexivity.
Qed.

(** Retrieval reads: the store is as before; the requests sent are the
    one for the embedding of the query and, when the embedding came, the
    query of the store. *)
Lemma findSimilarDocuments_world userId queryText topK (w : World Orc) :
  store (snd (findSimilarDocuments E L userId queryText topK w)) = store w
  /\ log (snd (findSimilarDocuments E L userId queryText topK w))
     = log w
       ++ CFetch (OLLAMA_API ++ str "/api/embeddings") MODEL_EMBEDDING
            queryText
          :: match fst (getEmbedding E queryText w) with
             | inl _ => []
             | inr v => [CQuery userId v topK]
             end.
Proof.
  rewrite findSimilarDocuments_run.
  pose proof (getEmbedding_world queryText w) as [Hs Hl].
  destruct (getEmbedding E queryText w) as [[e|v] w1]; cbn [fst snd] in *;
    [auto|].
  destruct (lib_query L userId v topK (oracle w1)) as [r o2].
  cbn [snd store log]. split; [exact Hs|].
  rewrite Hl, <- app_assoc. reflexivity.
Qed.

(** X15.  What [findSimilarDocuments] returns is the answer of the store,
    match by match and in the order of the store: nothing is sorted, cut
    to [topK] or filtered on this side.  Each entry has the metadata of
    its match, the [text] of that metadata ([undefined] when there is
    none) and the score as [similarity].  The query was made with the
    embedding of the query text, an array; no record was changed. *)
Theorem findSimilarDocuments_done
  (userId queryText : jsstring) (topK : Z) (w w' : World Orc)
  (docs : list SimilarDoc) :
  findSimilarDocuments E L userId queryText topK w = (inr docs, w') ->
  store w' = store w
  /\ exists v w1 resp,
       getEmbedding E queryText w = (inr v, w1)
       /\ isArray v = true
       /\ fst (lib_query L userId v topK (oracle w1)) = inr resp
       /\ Forall2
            (fun m d =>
               match_metadata m = Some (doc_metadata d)
               /\ doc_text d
                  = default JUndefined (doc_metadata d !! str "text")
               /\ similarity d = match score m with
                                 | Some q => JNumber q
                                 | None => JUndefined
                                 end)
            (matches resp) docs.
Proof.
  intros H.
  pose proof (findSimilarDocuments_world userId queryText topK w) as [Hs _].
  rewrite H in Hs. cbn [snd] in Hs. split; [exact Hs|].
  rewrite findSimilarDocuments_run in H.
  destruct (getEmbedding E queryText w) as [[e|v] w1] eqn:Hemb;
    [discriminate|].
  destruct (lib_query L userId v topK (oracle w1)) as [[e|resp] o2] eqn:Hq;
    [discriminate|].
  injection H as Hm _. exists v, w1, resp. split; [reflexivity|].
  split.
  { rewrite getEmbedding_run in Hemb. cbv zeta in Hemb.
    destruct (svc_fetch E _ MODEL_EMBEDDING queryText (oracle w))
      as [[e|r] o']; [discriminate|].
    destruct (ok r); [|discriminate].
    destruct (body r) as [e|data]; [discriminate|].
    destruct (embedding_of data) as [e|v']; [discriminate|].
    destruct (isArray v') eqn:Hv; [|discriminate].
    injection Hemb as <- _. exact Hv. }
  split; [rewrite Hq; reflexivity|]. apply map_matches_inr, Hm.
Qed.

(** X16.  One match without metadata spoils the whole answer: when the
    store answers the query with such a match among the others,
    [findSimilarDocuments] throws the [TypeError] of reading [text] of
    [undefined] and returns no document at all. *)
Theorem findSimilarDocuments_bare_match
  (userId queryText : jsstring) (topK : Z) (w w1 : World Orc)
  (v : json) (resp : QueryResponse) (o2 : Orc) :
  getEmbedding E queryText w = (inr v, w1) ->
  lib_query L userId v topK (oracle w1) = (inr resp, o2) ->
  (exists m, In m (matches resp) /\ match_metadata m = None) ->
  findSimilarDocuments E L userId queryText topK w
  = (inl (TypeError
            (str "Cannot read properties of undefined (reading 'text')")),
     {| oracle := o2; store := store w1;
        log := log w1 ++ [CQuery userId v topK] |}).
Proof.
  intros Hemb Hq Hbare. rewrite findSimilarDocuments_run, Hemb, Hq.
  rewrite (map_matches_bare _ Hbare). reflexivity.
Qed.

Lemma askQuestion_run userId question returnData (w : World Orc) :
  askQuestion E L userId question returnData w =
  match findSimilarDocuments E L userId question 3 w with
  | (inl e, w1) => (inl e, w1)
  | (inr docs, w1) =>
      let prompt :=
        prompt_of
          (js_join (lib_numberToString L) [NL; NL] (List.map doc_text docs))
          question in
      let url := OLLAMA_API ++ str "/api/generate" in
      let '(r, o2) := svc_fetch E url MODEL_GENERATION prompt (oracle w1) in
      (match r with
       | inl e => inl e
       | inr resp =>
           if ok resp then
             match body resp with
             | inl e => inl e
             | inr result =>
                 if returnData then
                   match property_of (str "response") result with
                   | inl e => inl e
                   | inr a =>
                       inr (Some {| ans_question := question;
                                    relevantDocuments := docs;
                                    answer := a |})
                   end
                 else
                   match print_docs docs with
                   | Some e => inl e
                   | None =>
                       match property_of (str "response") result with
                       | inl e => inl e
                       | inr _ => inr None
                       end
                   end
             end
           else inl (JsError (str "HTTP error! status: "
                                ++ dec (status resp)))
       end,
       {| oracle := o2; store := store w1;
          log := log w1 ++ [CFetch url MODEL_GENERATION prompt] |})
  end.
Proof.
  unfold askQuestion, try_catch, bind, fetch, call, response_json, ret, throw.
  destruct (findSimilarDocuments E L userId question 3 w) as [[e|docs] w1];
    [reflexivity|].
  cbv zeta.
  destruct (svc_fetch E _ MODEL_GENERATION _ (oracle w1)) as [[e|resp] o2];
    [reflexivity|].
  destruct (ok resp); cbn [negb]; [|reflexivity].
  destruct (body resp) as [e|result]; [reflexivity|].
  destruct returnData.
  - destruct (property_of (str "response") result); reflexivity.
  - destruct (print_docs docs); [reflexivity|].
    destruct (property_of (str "response") result); reflexivity.
Qed.

(** X17.  With [returnData] set, what [askQuestion] returns is never
    [undefined]: it is the question as given, the documents that
    [findSimilarDocuments] returned for that question with [topK] 3, and
    the [response] field of the body that the generation service
    answered with, an answer of a status in 200..299.  The one
    generation request carried the prompt of the template, with the
    texts of those documents joined by a blank line as context; no
    record was changed. *)
Theorem askQuestion_data
  (userId question : jsstring) (w w' : World Orc) (r : option Answer) :
  askQuestion E L userId question true w = (inr r, w') ->
  exists a w1 resp result,
    r = Some a
    /\ ans_question a = question
    /\ findSimilarDocuments E L userId question 3 w
       = (inr (relevantDocuments a), w1)
    /\ svc_fetch E (OLLAMA_API ++ str "/api/generate") MODEL_GENERATION
         (prompt_of
            (js_join (lib_numberToString L) [NL; NL]
               (List.map doc_text (relevantDocuments a)))
            question)
         (oracle w1)
       = (inr resp, oracle w')
    /\ log w'
       = log w1
           ++ [CFetch (OLLAMA_API ++ str "/api/generate") MODEL_GENERATION
                 (prompt_of
                    (js_join (lib_numberToString L) [NL; NL]
                       (List.map doc_text (relevantDocuments a)))
                    question)]
    /\ ok resp = true /\ body resp = inr result
    /\ property_of (str "response") result = inr (answer a)
    /\ store w' = store w.
Proof.
  rewrite askQuestion_run.
  pose proof (findSimilarDocuments_world userId question 3 w) as [Hs _].
  destruct (findSimilarDocuments E L userId question 3 w)
    as [[e|docs] w1]; [discriminate|].
  cbv zeta. cbn [snd] in Hs.
  destruct (svc_fetch E _ MODEL_GENERATION _ (oracle w1))
    as [[e|resp] o2] eqn:Hf; [discriminate|].
  destruct (ok resp) eqn:Hok; [|discriminate].
  destruct (body resp) as [e|result] eqn:Hb; [discriminate|].
  destruct (property_of (str "response") result) as [e|a] eqn:Ha;
    [discriminate|].
  intros H. injection H as <- <-.
  eexists _, w1, resp, result. split; [reflexivity|].
  cbn [ans_question relevantDocuments answer oracle store log].
  split; [reflexivity|]. split; [reflexivity|]. split; [exact Hf|].
  split; [reflexivity|]. split; [exact Hok|]. split; [exact Hb|].
  split; [exact Ha|exact Hs].
Qed.

(** X18.  The two modes of [askQuestion] make the same calls.  Where the
    data mode returns, the console mode ends in the same world: it
    returns [undefined] when every retrieved document can be printed,
    and throws the [TypeError] of the first one that cannot, a document
    whose text is no string or whose similarity is no number. *)
Theorem askQuestion_console
  (userId question : jsstring) (w w' : World Orc) (a : Answer) :
  askQuestion E L userId question true w = (inr (Some a), w') ->
  askQuestion E L userId question false w
  = (match print_docs (relevantDocuments a) with
     | Some e => inl e
     | None => inr None
     end, w').
Proof.
  rewrite !askQuestion_run.
  destruct (findSimilarDocuments E L userId question 3 w)
    as [[e|docs] w1]; [discriminate|].
  cbv zeta.
  destruct (svc_fetch E _ MODEL_GENERATION _ (oracle w1)) as [[e|resp] o2];
    [discriminate|].
  destruct (ok resp); [|discriminate].
  destruct (body resp) as [e|result]; [discriminate|].
  destruct (property_of (str "response") result) as [e|a']; [discriminate|].
  intros H. injection H as <- <-. cbn [relevantDocuments].
  destruct (print_docs docs); reflexivity.
Qed.

(** X19.  When retrieval fails, [askQuestion] throws the same error in
    either mode, changes no record, and the model is asked nothing: the
    requests sent are the one for the embedding of the question and,
    when that embedding came, the query of the store; there is no
    generation request. *)
Theorem askQuestion_retrieval_failed
  (userId question : jsstring) (returnData : bool) (w w1 : World Orc)
  (e : exn) :
  findSimilarDocuments E L userId question 3 w = (inl e, w1) ->
  askQuestion E L userId question returnData w = (inl e, w1)
  /\ store w1 = store w
  /\ log w1
     = log w
       ++ CFetch (OLLAMA_API ++ str "/api/embeddings") MODEL_EMBEDDING
            question
          :: match fst (getEmbedding E question w) with
             | inl _ => []
             | inr v => [CQuery userId v 3]
             end.
Proof.
  intros H. rewrite askQuestion_run, H.
  pose proof (findSimilarDocuments_world userId question 3 w) as [Hs Hl].
  rewrite H in Hs, Hl. auto.
Qed.

End RetrievalFacts.

Lemma findSimilarDocuments_done_witness :
  store (snd (findSimilarDocuments answering scripted_library (str "alice")
                (str "What?") 3 empty_world)) = ∅.
Proof.
  set (run := findSimilarDocuments answering scripted_library (str "alice")
                (str "What?") 3 empty_world).
  destruct (findSimilarDocuments_done answering scripted_library
              (str "alice") (str "What?") 3 empty_world (snd run)
              [{| doc_text := JString (str "First.");
                  similarity := JNumber (1 # 2);
                  doc_metadata := {[ str "text" := JString (str "First.") ]}
               |}]) as [H _].
  - vm_compute. reflexivity.
  - exact H.
Defined.

Lemma findSimilarDocuments_bare_match_witness :
  fst (findSimilarDocuments answering scripted_library (str "alice")
         (str "What?") 5 empty_world)
  = inl (TypeError
           (str "Cannot read properties of undefined (reading 'text')")).
Proof.
  set (emb := getEmbedding answering (str "What?") empty_world).
  set (q := lib_query scripted_library (str "alice")
              (JArray [JNumber (1 # 2)]) 5 (oracle (snd emb))).
  rewrite (findSimilarDocuments_bare_match answering scripted_library
             (str "alice") (str "What?") 5 empty_world (snd emb)
             (JArray [JNumber (1 # 2)])
             {| matches :=
                  [{| match_id := str "doc_1_chunk_0";
                      score := Some (1 # 2);
                      match_metadata :=
                        Some {[ str "text" := JString (str "First.") ]} |};
                   {| match_id := str "bare";
                      score := Some (1 # 4);
                      match_metadata := None |}] |}
             (snd q)).
  - reflexivity.
  - vm_compute. reflexivity.
  - vm_compute. reflexivity.
  - eexists. split; [right; left; reflexivity|reflexivity].
Defined.

Lemma askQuestion_data_witness :
  exists a,
    fst (askQuestion answering scripted_library (str "alice") (str "What?")
           true empty_world) = inr (Some a)
    /\ ans_question a = str "What?"
    /\ store (snd (askQuestion answering scripted_library (str "alice")
                     (str "What?") true empty_world)) = ∅.
Proof.
  set (run := askQuestion answering scripted_library (str "alice")
                (str "What?") true empty_world).
  destruct (askQuestion_data answering scripted_library (str "alice")
              (str "What?") empty_world (snd run)
              (Some {| ans_question := str "What?";
                       relevantDocuments :=
                         [{| doc_text := JString (str "First.");
                             similarity := JNumber (1 # 2);
                             doc_metadata :=
                               {[ str "text" := JString (str "First.") ]} |}];
                       answer := JString (str "Yes.") |}))
    as (a & w1 & resp & result & Ha & Hq & _ & _ & _ & _ & _ & _ & Hs).
  - vm_compute. reflexivity.
  - exists a. split; [|split; [exact Hq|exact Hs]].
    rewrite <- Ha. vm_compute. reflexivity.
Defined.

Lemma askQuestion_console_witness :
  fst (askQuestion answering scripted_library (str "alice") (str "What?")
         false empty_world) = inr None.
Proof.
  set (run := askQuestion answering scripted_library (str "alice")
                (str "What?") true empty_world).
  rewrite (askQuestion_console answering scripted_library (str "alice")
             (str "What?") empty_world (snd run)
             {| ans_question := str "What?";
                relevantDocuments :=
                  [{| doc_text := JString (str "First.");
                      similarity := JNumber (1 # 2);
                      doc_metadata :=
                        {[ str "text" := JString (str "First.") ]} |}];
                answer := JString (str "Yes.") |}).
  - reflexivity.
  - vm_compute. reflexivity.
Defined.

Lemma askQuestion_retrieval_failed_witness :
  fst (askQuestion answering store_down (str "alice") (str "What?")
         true empty_world)
  = inl (Rejected (str "store unreachable"))
  /\ log (snd (findSimilarDocuments answering store_down (str "alice")
                 (str "What?") 3 empty_world))
     = [CFetch (OLLAMA_API ++ str "/api/embeddings") MODEL_EMBEDDING
          (str "What?");
        CQuery (str "alice") (JArray [JNumber (1 # 2)]) 3].
Proof.
  set (run := findSimilarDocuments answering store_down (str "alice")
                (str "What?") 3 empty_world).
  destruct (askQuestion_retrieval_failed answering store_down
              (str "alice") (str "What?") true empty_world (snd run)
              (Rejected (str "store unreachable"))) as (H & _ & Hl).
  - vm_compute. reflexivity.
  - split; [rewrite H; reflexivity|].
    refine (eq_trans Hl _). vm_compute. reflexivity.
Defined.

(** * convert_data.js *)

Lemma trimmed_parts t :
  trimmed t <-> t <> [] /\ skip_ws t = t /\ rtrim t = t.
Proof.
  unfold trimmed. split.
  - intros [Ht Htrim]. split; [intros ->; discriminate|]. split.
    + rewrite <- Htrim at 1. unfold trim.
      rewrite skip_ws_rtrim, skip_ws_idem. exact Htrim.
    + rewrite <- Htrim at 1. unfold trim. rewrite rtrim_idem. exact Htrim.
  - intros (Hne & Hs & Hr). split.
    + destruct t; [contradiction|reflexivity].
    + unfold trim. rewrite Hs. exact Hr.
Qed.

Lemma trim_trimmed s : truthy (trim s) = true -> trimmed (trim s).
Proof. intros H. split; [exact H|apply trim_idem]. Qed.

Lemma skip_ws_app_fixed a y : a <> [] -> skip_ws a = a -> skip_ws (a ++ y) = a ++ y.
Proof.
  intros Hne Hs. destruct a as [|c a']; [contradiction|].
  cbn [app]. apply skip_ws_nonspace. eapply skip_ws_head, Hs.
Qed.

Lemma rtrim_app_fixed y b : b <> [] -> rtrim b = b -> rtrim (y ++ b) = y ++ b.
Proof.
  intros Hne Hr. induction y as [|c y IH]; [exact Hr|].
  cbn [app]. rewrite rtrim_cons_nonblank; [rewrite IH; reflexivity|].
  intros H. apply rtrim_nil in H. rewrite IH in H.
  destruct y; [contradiction|discriminate].
Qed.

Lemma trimmed_app a x b : trimmed a -> trimmed b -> trimmed (a ++ x ++ b).
Proof.
  intros Ha Hb. apply trimmed_parts in Ha as (Hane & Has & _).
  apply trimmed_parts in Hb as (Hbne & _ & Hbr).
  apply trimmed_parts. split; [|split].
  - destruct a; [contradiction|discriminate].
  - apply skip_ws_app_fixed; assumption.
  - rewrite app_assoc. apply rtrim_app_fixed; assumption.
Qed.

Lemma join_space_cons t g :
  g <> [] -> join_space (t :: g) = t ++ str " " ++ join_space g.
Proof. destruct g; [contradiction|reflexivity]. Qed.

Lemma join_space_trimmed g :
  g <> [] -> Forall trimmed g -> trimmed (join_space g).
Proof.
  induction g as [|t g IH]; [contradiction|]. intros _ Hg.
  inversion Hg as [|? ? Ht Hg']; subst.
  destruct g as [|u g]; [exact Ht|].
  rewrite join_space_cons by discriminate.
  apply trimmed_app; [exact Ht|]. apply IH; [discriminate|exact Hg'].
Qed.

Lemma join_space_snoc g l :
  Forall trimmed g ->
  join_space (g ++ [l])
  = (if truthy (join_space g) then join_space g ++ str " " else join_space g)
    ++ l.
Proof.
  induction g as [|t g IH]; [reflexivity|]. intros Hg.
  inversion Hg as [|? ? Ht Hg']; subst.
  assert (Htr : truthy (join_space (t :: g)) = true).
  { apply (join_space_trimmed (t :: g)); [discriminate|exact Hg]. }
  rewrite Htr. cbn [app].
  rewrite join_space_cons by (destruct g; discriminate).
  destruct g as [|u g]; [cbn; rewrite <- app_assoc; reflexivity|].
  rewrite IH by exact Hg'.
  assert (Htr' : truthy (join_space (u :: g)) = true).
  { apply (join_space_trimmed (u :: g)); [discriminate|exact Hg']. }
  rewrite Htr'. rewrite (join_space_cons t (u :: g)) by discriminate.
  rewrite <- !app_assoc. reflexivity.
Qed.

Lemma is_marker_truthy l : is_marker l = true -> truthy l = true.
Proof. destruct l; [discriminate|reflexivity]. Qed.

(** The loop of [extractArticles], read on groups of lines. *)
Lemma extract_fold lines :
  forall arts cur, Forall trimmed cur ->
  (let '(arts', c') :=
     fold_left extract_step lines (arts, join_space cur) in
   if truthy c' then arts' ++ [trim c'] else arts')
  = arts ++ List.map join_space (article_groups cur (List.map trim lines)).
Proof.
  induction lines as [|raw lines IH]; intros arts cur Hcur.
  - cbn [fold_left List.map article_groups].
    destruct cur as [|t g].
    + cbn. rewrite app_nil_r. reflexivity.
    + destruct (join_space_trimmed (t :: g)) as [Htr Htrim];
        [discriminate|exact Hcur|].
      rewrite Htr, Htrim. reflexivity.
  - cbn [fold_left List.map article_groups].
    unfold extract_step at 2.
    destruct (truthy (trim raw)) eqn:Hl; cbn [negb].
    + destruct (is_marker (trim raw)) eqn:Hm.
      * destruct cur as [|t g].
        -- cbn [join_space truthy].
           apply (IH arts []). constructor.
        -- destruct (join_space_trimmed (t :: g)) as [Htr Htrim];
             [discriminate|exact Hcur|].
           rewrite Htr, Htrim.
           change (@nil N) with (join_space []) at 1.
           rewrite (IH (arts ++ [join_space (t :: g)]) []) by constructor.
           cbn [List.map]. rewrite <- app_assoc. reflexivity.
      * unfold is_content. rewrite Hl, Hm. cbn [negb andb].
        destruct (is_skipped (trim raw)); cbn [negb].
        -- apply IH, Hcur.
        -- rewrite <- join_space_snoc by exact Hcur.
           apply IH. apply Forall_app. split; [exact Hcur|].
           constructor; [|constructor]. apply trim_trimmed, Hl.
    + unfold is_content. rewrite Hl. cbn [andb].
      destruct (is_marker (trim raw)) eqn:Hm.
      * apply is_marker_truthy in Hm. congruence.
      * apply IH, Hcur.
Qed.

Lemma extractArticles_article_groups rawText :
  extractArticles rawText
  = List.map join_space (article_groups [] (trimmed_lines rawText)).
Proof.
  unfold extractArticles, trimmed_lines.
  exact (extract_fold (split_lines rawText) [] [] (List.Forall_nil _)).
Qed.

(** What [article_groups] returns: groups that are not empty, made of
    content lines, the content lines of the input in their order. *)
Lemma article_groups_spec lines :
  forall cur,
  Forall (fun g => g <> []) (article_groups cur lines)
  /\ concat (article_groups cur lines) = cur ++ List.filter is_content lines.
Proof.
  induction lines as [|l lines IH]; intros cur.
  - cbn. destruct cur as [|t g].
    + split; [constructor|reflexivity].
    + split; [constructor; [discriminate|constructor]|].
      cbn. rewrite !app_nil_r. reflexivity.
  - cbn [article_groups List.filter].
    destruct (is_marker l) eqn:Hm.
    + assert (Hc : is_content l = false).
      { unfold is_content. rewrite Hm, andb_false_r. reflexivity. }
      rewrite Hc.
      destruct (IH []) as [Hne Hcat].
      destruct cur as [|t g]; [split; assumption|].
      split; [constructor; [discriminate|exact Hne]|].
      cbn [concat]. rewrite Hcat. reflexivity.
    + destruct (is_content l).
      * destruct (IH (cur ++ [l])) as [Hne Hcat]. split; [exact Hne|].
        rewrite Hcat, <- app_assoc. reflexivity.
      * apply IH.
Qed.

Lemma split_on_units sep s :
  forall cur l c, In l (split_on sep cur s) -> In c l -> c <> sep ->
  In c cur \/ In c s.
Proof.
  induction s as [|a s IH]; intros cur l c Hl Hc Hne.
  - destruct Hl as [<-|[]]. left. exact Hc.
  - cbn [split_on] in Hl. destruct (a =? sep)%N eqn:Ha.
    + destruct Hl as [<-|Hl]; [left; exact Hc|].
      destruct (IH [] l c Hl Hc Hne) as [[]|H]. right. right. exact H.
    + destruct (IH _ l c Hl Hc Hne) as [H|H].
      * apply in_app_iff in H as [H|[<-|[]]]; [left; exact H|].
        right. left. reflexivity.
      * right. right. exact H.
Qed.

Lemma split_on_free sep s :
  forall cur l, ~ In sep cur -> In l (split_on sep cur s) -> ~ In sep l.
Proof.
  induction s as [|a s IH]; intros cur l Hcur Hl.
  - destruct Hl as [<-|[]]. exact Hcur.
  - cbn [split_on] in Hl. destruct (a =? sep)%N eqn:Ha.
    + destruct Hl as [<-|Hl]; [exact Hcur|].
      eapply IH; [|exact Hl]. intros [].
    + eapply IH; [|exact Hl]. intros H.
      apply in_app_iff in H as [H|[<-|[]]]; [contradiction|].
      apply N.eqb_neq in Ha. contradiction.
Qed.

Lemma join_space_free (c : N) g :
  c <> SP -> Forall (fun l => ~ In c l) g -> ~ In c (join_space g).
Proof.
  intros Hc. induction g as [|t g IH]; intros Hg; [intros []|].
  inversion Hg as [|? ? Ht Hg']; subst.
  destruct g as [|u g]; [exact Ht|].
  rewrite join_space_cons by discriminate. intros H.
  apply in_app_iff in H as [H|H]; [contradiction|].
  cbn [str List.map list_ascii_of_string app] in H.
  destruct H as [H|H]; [apply Hc; symmetry; exact H|].
  apply IH in Hg'. contradiction.
Qed.

Lemma article_groups_lines lines :
  forall cur g l, In g (article_groups cur lines) -> In l g ->
  In l cur \/ (In l lines /\ is_content l = true).
Proof.
  intros cur g l Hg Hl.
  destruct (article_groups_spec lines cur) as [_ Hcat].
  assert (H : In l (concat (article_groups cur lines))).
  { apply in_concat. exists g. split; assumption. }
  rewrite Hcat in H. apply in_app_iff in H as [H|H]; [left; exact H|].
  right. apply filter_In in H. exact H.
Qed.

Lemma trimmed_lines_line rawText l :
  In l (trimmed_lines rawText) -> truthy l = true ->
  trimmed l /\ ~ In NL l.
Proof.
  unfold trimmed_lines. intros H Ht. apply in_map_iff in H as (raw & <- & Hraw).
  split; [apply trim_trimmed, Ht|].
  intros Hin. apply trim_units in Hin.
  revert Hin. eapply split_on_free; [|exact Hraw]. intros [].
Qed.

Lemma extractArticles_article rawText a :
  In a (extractArticles rawText) -> trimmed a /\ ~ In NL a.
Proof.
  rewrite extractArticles_article_groups. intros H.
  apply in_map_iff in H as (g & <- & Hg).
  destruct (article_groups_spec (trimmed_lines rawText) []) as [Hne _].
  assert (Hlines : forall l, In l g -> trimmed l /\ ~ In NL l).
  { intros l Hl.
    destruct (article_groups_lines _ _ _ _ Hg Hl) as [[]|[Hin Hc]].
    apply trimmed_lines_line with (rawText := rawText); [exact Hin|].
    unfold is_content in Hc. destruct (truthy l); [reflexivity|discriminate]. }
  split.
  - apply join_space_trimmed.
    + rewrite List.Forall_forall in Hne. apply Hne, Hg.
    + apply List.Forall_forall. intros l Hl. apply Hlines, Hl.
  - apply join_space_free; [discriminate|].
    apply List.Forall_forall. intros l Hl. apply Hlines, Hl.
Qed.

Lemma article_groups_length lines :
  forall cur,
  List.length (article_groups cur lines)
  <= S (List.length (List.filter is_marker lines)).
Proof.
  induction lines as [|l lines IH]; intros cur.
  - cbn. destruct cur; cbn; lia.
  - cbn [article_groups List.filter]. destruct (is_marker l).
    + cbn [List.length]. specialize (IH []).
      destruct cur; cbn [List.length]; lia.
    + destruct (is_content l); apply IH.
Qed.

(** X20 [extractArticles]: the articles are the content lines of the
    text (trimmed, not empty, neither a marker ["--- Article"] nor a
    skipped header or comment counter) in their order, grouped and
    joined by one space inside each group: no content line is lost or
    doubled, no other line gets in, and no group is empty. *)
Theorem extractArticles_content_lines (rawText : jsstring) :
  exists groups : list (list jsstring),
    extractArticles rawText = List.map join_space groups
    /\ Forall (fun g => g <> []) groups
    /\ concat groups = List.filter is_content (trimmed_lines rawText).
Proof.
  exists (article_groups [] (trimmed_lines rawText)).
  destruct (article_groups_spec (trimmed_lines rawText) []) as [Hne Hcat].
  split; [apply extractArticles_article_groups|]. split; assumption.
Qed.

(** X21 [extractArticles]: every article returned is a non-empty
    string that [trim] leaves as it is and that holds no line feed. *)
Theorem extractArticles_articles (rawText : jsstring) :
  Forall (fun article =>
            article <> [] /\ trim article = article /\ ~ In NL article)
    (extractArticles rawText).
Proof.
  apply List.Forall_forall. intros a Ha.
  destruct (extractArticles_article _ _ Ha) as [[Ht Htrim] Hnl].
  split; [intros ->; discriminate|]. split; assumption.
Qed.

(** X22 the [documents] written by convert_data.js: one per article,
    each a non-empty trimmed string whose only white space is single
    U+0020. *)
Theorem documents_of_normal (rawData : jsstring) :
  List.length (documents_of rawData) = List.length (extractArticles rawData)
  /\ Forall (fun d => d <> [] /\ trim d = d /\ single_spaced d)
       (documents_of rawData).
Proof.
  unfold documents_of. split; [apply List.length_map|].
  apply List.Forall_forall. intros d Hd.
  apply in_map_iff in Hd as (a & <- & Ha).
  destruct (extractArticles_article _ _ Ha) as [Htr _].
  apply trimmed_parts in Htr as (Hne & Hs & _).
  rewrite replace_spaces. split; [|split].
  - destruct a as [|c a']; [contradiction|].
    assert (Hc : is_space c = false) by (eapply skip_ws_head, Hs).
    intros Hnil.
    assert (Hin : In c (trim (collapse (c :: a')))).
    { apply trim_keeps; [|exact Hc]. apply collapse_keeps; [left; reflexivity|exact Hc]. }
    rewrite Hnil in Hin. destruct Hin.
  - apply trim_idem.
  - apply trim_single_spaced, collapse_single_spaced.
Qed.

(** X23 [extractArticles]: there are at most as many articles as
    marker lines plus one, and there is none exactly when the text has
    no content line. *)
Theorem extractArticles_count (rawText : jsstring) :
  List.length (extractArticles rawText)
  <= S (List.length (List.filter is_marker (trimmed_lines rawText)))
  /\ (extractArticles rawText = []
      <-> List.filter is_content (trimmed_lines rawText) = []).
Proof.
  rewrite extractArticles_article_groups. split.
  - rewrite List.length_map. apply article_groups_length.
  - destruct (article_groups_spec (trimmed_lines rawText) []) as [Hne Hcat].
    cbn [app] in Hcat. rewrite <- Hcat.
    destruct (article_groups [] (trimmed_lines rawText)) as [|g gs].
    + split; reflexivity.
    + split; [discriminate|]. intros H. exfalso.
      inversion Hne as [|? ? Hg _]; subst.
      destruct g; [contradiction|discriminate].
Qed.

(** * crawler.js, then convert_data.js *)

Lemma split_on_line a :
  forall cur rest, ~ In NL a ->
  split_on NL cur (a ++ NL :: rest) = (cur ++ a) :: split_on NL [] rest.
Proof.
  induction a as [|c a IH]; intros cur rest Ha.
  - cbn. rewrite app_nil_r. reflexivity.
  - cbn [app split_on]. destruct (c =? NL)%N eqn:Hc.
    + apply N.eqb_eq in Hc. exfalso. apply Ha. left. exact Hc.
    + rewrite IH by (intros H; apply Ha; right; exact H).
      rewrite <- app_assoc. reflexivity.
Qed.

Lemma split_on_last a :
  forall cur, ~ In NL a -> split_on NL cur a = [cur ++ a].
Proof.
  induction a as [|c a IH]; intros cur Ha.
  - cbn. rewrite app_nil_r. reflexivity.
  - cbn [split_on]. destruct (c =? NL)%N eqn:Hc.
    + apply N.eqb_eq in Hc. exfalso. apply Ha. left. exact Hc.
    + rewrite IH by (intros H; apply Ha; right; exact H).
      rewrite <- app_assoc. reflexivity.
Qed.

Lemma trimmed_lines_line_cons a rest :
  one_line a -> trimmed_lines (a ++ NL :: rest) = a :: trimmed_lines rest.
Proof.
  intros [[_ Htrim] Hnl]. unfold trimmed_lines, split_lines.
  rewrite split_on_line by exact Hnl. cbn [List.map app].
  rewrite Htrim. reflexivity.
Qed.

Lemma trimmed_lines_blank rest :
  trimmed_lines (NL :: rest) = [] :: trimmed_lines rest.
Proof. reflexivity. Qed.

Lemma rtrim_nonspace s :
  Forall (fun c => is_space c = false) s -> rtrim s = s.
Proof.
  induction 1 as [|c s Hc Hs IH]; [reflexivity|].
  rewrite rtrim_cons_nonspace by exact Hc. rewrite IH. reflexivity.
Qed.

Lemma uint_codes_plain d :
  Forall (fun c => is_space c = false /\ c <> NL) (uint_codes d).
Proof.
  induction d; cbn [uint_codes]; constructor; try assumption;
    (split; [reflexivity|discriminate]).
Qed.

Lemma uint_codes_nonnil d : d <> Decimal.Nil -> uint_codes d <> [].
Proof. destruct d; [contradiction| |..]; intros _; discriminate. Qed.

Lemma dec_one_line z : one_line (dec z).
Proof.
  assert (H : dec z <> []
              /\ Forall (fun c => is_space c = false /\ c <> NL) (dec z)).
  { unfold dec. destruct z as [|p|p]; cbn [Z.to_int].
    - split; [discriminate|]. apply uint_codes_plain.
    - split; [apply uint_codes_nonnil, DecimalPos.Unsigned.to_uint_nonnil|].
      apply uint_codes_plain.
    - split; [discriminate|].
      constructor; [split; [reflexivity|discriminate]|].
      apply uint_codes_plain. }
  destruct H as [Hne Hall]. split.
  - apply trimmed_parts. split; [exact Hne|]. split.
    + destruct (dec z) as [|c s]; [contradiction|].
      inversion Hall as [|? ? [Hc _] _]; subst.
      apply skip_ws_nonspace, Hc.
    + apply rtrim_nonspace. eapply List.Forall_impl; [|exact Hall].
      intros c [Hc _]. exact Hc.
  - intros Hin. rewrite List.Forall_forall in Hall.
    destruct (Hall _ Hin) as [_ Hc]. apply Hc. reflexivity.
Qed.

Lemma one_line_app a x b :
  one_line a -> ~ In NL x -> one_line b -> one_line (a ++ x ++ b).
Proof.
  intros [Ha Hna] Hx [Hb Hnb]. split; [apply trimmed_app; assumption|].
  intros H. apply in_app_iff in H as [H|H]; [contradiction|].
  apply in_app_iff in H as [H|H]; contradiction.
Qed.

Ltac literal_one_line :=
  split; [split; reflexivity|cbn; intuition discriminate].

Lemma labelled_one_line (label t : jsstring) :
  one_line label -> one_line t -> one_line (label ++ str " " ++ t).
Proof.
  intros Hl Ht. apply one_line_app; [exact Hl| |exact Ht].
  cbn. intuition discriminate.
Qed.

Lemma marker_one_line z :
  one_line (str "--- Article " ++ dec z ++ str " ---").
Proof.
  apply (labelled_one_line (str "--- Article") (dec z ++ str " ---")).
  - literal_one_line.
  - apply (labelled_one_line (dec z) (str "---")).
    + apply dec_one_line.
    + literal_one_line.
Qed.

Lemma article_groups_marker cur l lines :
  is_marker l = true ->
  article_groups cur (l :: lines)
  = match cur with [] => [] | _ :: _ => [cur] end ++ article_groups [] lines.
Proof.
  intros H. cbn [article_groups]. rewrite H. destruct cur; reflexivity.
Qed.

Lemma article_groups_content cur l lines :
  is_content l = true ->
  article_groups cur (l :: lines) = article_groups (cur ++ [l]) lines.
Proof.
  intros H. cbn [article_groups]. rewrite H.
  unfold is_content in H. destruct (is_marker l); [|reflexivity].
  rewrite andb_false_r in H. discriminate.
Qed.

Lemma article_groups_blank cur lines :
  article_groups cur ([] :: lines) = article_groups cur lines.
Proof. reflexivity. Qed.

Lemma article_block_lines index article rest :
  one_line (title article) -> one_line (link article) ->
  one_line (content article) ->
  trimmed_lines (article_block index article ++ rest)
  = (str "--- Article " ++ dec (Z.of_nat index + 1) ++ str " ---")
    :: (str "Title: " ++ title article)
    :: (str "Link: " ++ link article)
    :: (str "Content: " ++ content article)
    :: trimmed_lines rest.
Proof.
  intros Ht Hl Hc.
  assert (E : article_block index article ++ rest
              = (str "--- Article " ++ dec (Z.of_nat index + 1) ++ str " ---")
                ++ NL :: (str "Title: " ++ title article)
                ++ NL :: (str "Link: " ++ link article)
                ++ NL :: (str "Content: " ++ content article)
                ++ NL :: rest).
  { unfold article_block. rewrite <- !app_assoc. reflexivity. }
  rewrite E.
  rewrite trimmed_lines_line_cons by apply marker_one_line.
  rewrite trimmed_lines_line_cons
    by (apply (labelled_one_line (str "Title:")); [literal_one_line|exact Ht]).
  rewrite trimmed_lines_line_cons
    by (apply (labelled_one_line (str "Link:")); [literal_one_line|exact Hl]).
  rewrite trimmed_lines_line_cons
    by (apply (labelled_one_line (str "Content:")); [literal_one_line|exact Hc]).
  reflexivity.
Qed.

Lemma article_groups_blocks articles :
  forall index cur, articles <> [] ->
  Forall (fun a => one_line (title a) /\ one_line (link a)
                   /\ one_line (content a)) articles ->
  article_groups cur
    (trimmed_lines (join_lines (map_from article_block index articles)))
  = match cur with [] => [] | _ :: _ => [cur] end
    ++ List.map (fun a => [str "Title: " ++ title a;
                           str "Link: " ++ link a;
                           str "Content: " ++ content a]) articles.
Proof.
  induction articles as [|a articles IH]; intros index cur Hne Hall;
    [contradiction|].
  inversion Hall as [|? ? (Ht & Hl & Hc) Hall']; subst.
  assert (Hstep : forall rest,
    article_groups cur (trimmed_lines (article_block index a ++ rest))
    = match cur with [] => [] | _ :: _ => [cur] end
      ++ article_groups [str "Title: " ++ title a;
                         str "Link: " ++ link a;
                         str "Content: " ++ content a]
           (trimmed_lines rest)).
  { intros rest. rewrite article_block_lines by assumption.
    rewrite article_groups_marker by reflexivity.
    rewrite !article_groups_content by reflexivity. reflexivity. }
  destruct articles as [|b articles].
  - cbn [map_from join_lines List.map].
    rewrite <- (app_nil_r (article_block index a)). rewrite Hstep.
    reflexivity.
  - change (join_lines (map_from article_block index (a :: b :: articles)))
      with (article_block index a
            ++ NL :: join_lines (map_from article_block (S index)
                                   (b :: articles))).
    rewrite Hstep, trimmed_lines_blank, article_groups_blank.
    rewrite IH by (try discriminate; exact Hall'). reflexivity.
Qed.

(** X24 convert_data.js on a file written by [crawlWebsite]: when the
    page address, the time stamp and the title, link and content of
    every article are trimmed, non-empty and on one line,
    [extractArticles] gives one article more than were crawled. The
    first one is the header of the file (["Page URL:"],
    ["Total Articles Found:"] and ["Crawled at:"] are none of the
    skipped prefixes), and each article comes back with its labels, as
    ["Title: .. Link: .. Content: .."]. *)
Theorem extractArticles_crawl_report
  (url isoNow : jsstring) (articles : list CrawledArticle) :
  one_line url -> one_line isoNow ->
  Forall (fun a => one_line (title a) /\ one_line (link a)
                   /\ one_line (content a)) articles ->
  extractArticles (crawl_report url isoNow articles)
  = report_header url isoNow (List.length articles)
    :: List.map report_article articles.
Proof.
  intros Hurl Hiso Hall.
  rewrite extractArticles_article_groups.
  assert (E : crawl_report url isoNow articles
              = (str "Page URL: " ++ url)
                ++ NL :: (str "Total Articles Found: "
                          ++ dec (Z.of_nat (List.length articles)))
                ++ NL :: (str "Crawled at: " ++ isoNow)
                ++ NL :: NL
                   :: join_lines (map_from article_block 0 articles)).
  { unfold crawl_report. rewrite <- !app_assoc. reflexivity. }
  rewrite E.
  rewrite trimmed_lines_line_cons
    by (apply (labelled_one_line (str "Page URL:"));
        [literal_one_line|exact Hurl]).
  rewrite trimmed_lines_line_cons
    by (apply (labelled_one_line (str "Total Articles Found:"));
        [literal_one_line|apply dec_one_line]).
  rewrite trimmed_lines_line_cons
    by (apply (labelled_one_line (str "Crawled at:"));
        [literal_one_line|exact Hiso]).
  rewrite trimmed_lines_blank.
  rewrite !article_groups_content by reflexivity.
  rewrite article_groups_blank. cbn [app].
  assert (Hhead : join_space
                    [str "Page URL: " ++ url;
                     str "Total Articles Found: "
                     ++ dec (Z.of_nat (List.length articles));
                     str "Crawled at: " ++ isoNow]
                  = report_header url isoNow (List.length articles)).
  { unfold report_header. cbn [join_space].
    rewrite <- !app_assoc. reflexivity. }
  destruct articles as [|a articles].
  - cbn [map_from join_lines List.map]. rewrite <- Hhead. reflexivity.
  - rewrite article_groups_blocks by (try discriminate; exact Hall).
    cbn [app]. rewrite List.map_cons, Hhead. f_equal.
    rewrite List.map_map. apply List.map_ext. intros x.
    unfold report_article. cbn [join_space].
    rewrite <- !app_assoc. reflexivity.
Qed.

(** * The clean-up of crawler.js and newsScraper.js *)

Lemma shrinks_special : shrinks re_special.
Proof.
  intros [|c r] out rest H; simpl in H; [discriminate|].
  destruct (negb (is_kept c)); inversion H; subst. simpl. lia.
Qed.

Lemma replace_special s : replace_all re_special s = List.filter is_kept s.
Proof.
  induction s as [|c s IH].
  - reflexivity.
  - rewrite (replace_all_unfold _ shrinks_special).
    cbn [re_special List.filter].
    destruct (is_kept c); cbn [negb app]; rewrite IH; reflexivity.
Qed.

Lemma clean_content_eq text :
  clean_content text
  = trim (List.filter is_kept (respace (unspace (collapse (trim text))))).
Proof.
  unfold clean_content.
  rewrite replace_spaces, replace_space_punct, replace_punct_glued,
    replace_special.
  reflexivity.
Qed.

(** X25 the clean-up of an article's text: the result is trimmed; it
    is written with word characters, [. , ! ? -] and U+0020 only, the
    latter being its only white space; what it holds comes from the text
    or is U+0020; and every code unit of the text that is no white space
    and that the last pattern keeps is still there. *)
Theorem clean_content_normal (text : jsstring) :
  trim (clean_content text) = clean_content text
  /\ (forall c, In c (clean_content text) ->
        is_kept c = true
        /\ (is_space c = true -> c = SP)
        /\ (In c text \/ c = SP))
  /\ (forall c, In c text -> is_kept c = true -> is_space c = false ->
        In c (clean_content text)).
Proof.
  rewrite clean_content_eq. split; [apply trim_idem|]. split.
  - intros c Hc. apply trim_units in Hc. apply filter_In in Hc as [Hin Hk].
    split; [exact Hk|].
    assert (Hsrc : In c (collapse (trim text)) \/ c = SP).
    { apply respace_units in Hin as [Hin|Hin]; [|right; exact Hin].
      left. apply unspace_units in Hin. exact Hin. }
    split.
    + intros Hs. destruct Hsrc as [Hin'|Heq]; [|exact Heq].
      exact (single_spaced_In _ (collapse_single_spaced _) c Hin' Hs).
    + destruct Hsrc as [Hin'|Heq]; [|right; exact Heq].
      apply collapse_units in Hin' as [Hin'|Heq]; [|right; exact Heq].
      left. apply trim_units in Hin'. exact Hin'.
  - intros c Hin Hk Hs. apply trim_keeps; [|exact Hs].
    apply filter_In. split; [|exact Hk].
    apply respace_keeps. apply unspace_keeps; [|exact Hs].
    apply collapse_keeps; [|exact Hs]. apply trim_keeps; assumption.
Qed.

(** * newsScraper.js *)

Section ScraperFacts.
Context {Net : Type}
        (get : Net -> jsstring -> (exn + AxiosResponse) * Net).

Lemma attempts_succ url i count :
  (0 < count)%nat ->
  attempts url i (S count)
  = EGet url :: EWait (1000 * (i + 1)) :: attempts url (i + 1) count.
Proof. destruct count; [lia|reflexivity]. Qed.

Lemma fetchWithRetry_loop_run url maxRetries remaining :
  forall i st,
  Z.of_nat remaining = (maxRetries - i)%Z -> (0 < remaining)%nat ->
  exists (k : nat) failures r,
    (1 <= k <= remaining)%nat
    /\ replies get (fst st) url k
       = (failures ++ [r],
          fst (snd (fetchWithRetry_loop get remaining i maxRetries url st)))
    /\ Forall rejected failures
    /\ fst (fetchWithRetry_loop get remaining i maxRetries url st)
       = outcome_of r
    /\ snd (snd (fetchWithRetry_loop get remaining i maxRetries url st))
       = snd st ++ attempts url i k
    /\ (rejected r -> k = remaining).
Proof.
  induction remaining as [|remaining IH]; intros i st Hrem Hpos; [lia|].
  cbn [fetchWithRetry_loop].
  destruct (get (fst st) url) as [[error|response] net'] eqn:Hget.
  - destruct (i =? maxRetries - 1)%Z eqn:Hi.
    + exists 1%nat, [], (inl error).
      apply Z.eqb_eq in Hi.
      split; [lia|]. split; [cbn; rewrite Hget; reflexivity|].
      split; [constructor|]. split; [reflexivity|].
      split; [reflexivity|]. intros _. lia.
    + apply Z.eqb_neq in Hi.
      destruct (IH (i + 1)%Z
                  (fst (net', snd st ++ [EGet url]),
                   snd (net', snd st ++ [EGet url])
                   ++ [EWait (1000 * (i + 1))]))
        as (k & failures & r & Hk & Hrep & Hfail & Hres & Hev & Hlast);
        [lia|lia|].
      cbn [fst snd] in *.
      exists (S k), (inl error :: failures), r.
      split; [lia|]. split.
      { cbn [replies]. rewrite Hget, Hrep. reflexivity. }
      split; [constructor; [exists error; reflexivity|exact Hfail]|].
      split; [exact Hres|]. split.
      { rewrite Hev, attempts_succ by lia. rewrite <- !app_assoc.
        reflexivity. }
      intros Hr. rewrite (Hlast Hr). reflexivity.
  - exists 1%nat, [], (inr response).
    split; [lia|]. split; [cbn; rewrite Hget; reflexivity|].
    split; [constructor|]. split; [reflexivity|].
    split; [reflexivity|]. intros [e He]. discriminate.
Qed.

(** X26 [fetchWithRetry]: with [maxRetries <= 0] nothing is
    requested and [undefined] is returned. Otherwise between one and
    [maxRetries] requests are sent to the same address; all but the
    last were rejected, and the last one is the outcome: its response
    is returned or, only when it was request number [maxRetries], its
    error is thrown. After rejected request number [j] and before the
    next one the pause is [1000 * j] ms, and there is no pause after
    the last request. *)
Theorem fetchWithRetry_attempts (url : jsstring) (maxRetries : Z)
  (st : Net * list Event) :
  ((maxRetries <= 0)%Z ->
     fetchWithRetry get url maxRetries st = (inr None, st))
  /\ ((0 < maxRetries)%Z ->
      exists (k : nat) failures r,
        (1 <= Z.of_nat k <= maxRetries)%Z
        /\ replies get (fst st) url k
           = (failures ++ [r],
              fst (snd (fetchWithRetry get url maxRetries st)))
        /\ Forall rejected failures
        /\ fst (fetchWithRetry get url maxRetries st) = outcome_of r
        /\ snd (snd (fetchWithRetry get url maxRetries st))
           = snd st ++ attempts url 0 k
        /\ (rejected r -> Z.of_nat k = maxRetries)).
Proof.
  unfold fetchWithRetry. split.
  - intros H. replace (Z.to_nat maxRetries) with 0%nat by lia.
    reflexivity.
  - intros H.
    destruct (fetchWithRetry_loop_run url maxRetries
                (Z.to_nat maxRetries) 0%Z st)
      as (k & failures & r & Hk & Hrep & Hfail & Hres & Hev & Hlast);
      [lia|lia|].
    exists k, failures, r. split; [lia|]. split; [exact Hrep|].
    split; [exact Hfail|]. split; [exact Hres|]. split; [exact Hev|].
    intros Hr. rewrite (Hlast Hr). lia.
Qed.
End ScraperFacts.

Section LinkFacts.
Context {Net : Type}
        (get : Net -> jsstring -> (exn + AxiosResponse) * Net).
Context {Page : Type} (load : jsstring -> exn + Page)
        (hrefs : Page -> jsstring -> list (option jsstring)).

Lemma set_add_In links l x :
  In x (set_add links l) <-> In x links \/ x = l.
Proof.
  unfold set_add. destruct (bool_decide (l ∈ links)) eqn:Hl.
  - apply bool_decide_eq_true in Hl. apply list_elem_of_In in Hl.
    split; [auto|]. intros [H| ->]; assumption.
  - rewrite in_app_iff. cbn [In]. split.
    + intros [H|[H|[]]]; auto.
    + intros [H|H]; auto.
Qed.

Lemma set_add_NoDup links l : NoDup links -> NoDup (set_add links l).
Proof.
  intros H. unfold set_add. destruct (bool_decide (l ∈ links)) eqn:Hl.
  - exact H.
  - apply bool_decide_eq_false in Hl. apply NoDup_app.
    split; [exact H|]. split.
    + intros x Hx Hx'. apply list_elem_of_singleton in Hx'. subst.
      contradiction.
    + apply NoDup_singleton.
Qed.

Lemma collect_links_spec found :
  forall links, NoDup links ->
  NoDup (collect_links links found)
  /\ forall x, In x (collect_links links found)
               <-> In x links
                   \/ (In (Some x) found /\ keeps_link (Some x) = true).
Proof.
  induction found as [|h found IH]; intros links Hnd.
  - split; [exact Hnd|]. intros x. cbn. tauto.
  - unfold collect_links. cbn [fold_left].
    fold (collect_links
            (match h with
             | Some l => if keeps_link h then set_add links l else links
             | None => links
             end) found).
    destruct h as [l|].
    + destruct (keeps_link (Some l)) eqn:Hk.
      * destruct (IH (set_add links l) (set_add_NoDup _ _ Hnd)) as [H1 H2].
        split; [exact H1|]. intros x. rewrite H2, set_add_In. cbn [In].
        split.
        -- intros [[H| ->]|[H H']]; auto.
        -- intros [H|[[H|H] H']]; auto.
           injection H as ->. auto.
      * destruct (IH links Hnd) as [H1 H2].
        split; [exact H1|]. intros x. rewrite H2. cbn [In]. split.
        -- intros [H|[H H']]; auto.
        -- intros [H|[[H|H] H']]; auto.
           injection H as ->. congruence.
    + destruct (IH links Hnd) as [H1 H2].
      split; [exact H1|]. intros x. rewrite H2. cbn [In]. split.
      * intros [H|[H H']]; auto.
      * intros [H|[[H|H] H']]; auto. discriminate.
Qed.

Lemma collect_selectors_spec (page : Page) selectors :
  forall links, NoDup links ->
  NoDup (fold_left
           (fun links selector => collect_links links (hrefs page selector))
           selectors links)
  /\ forall x,
       In x (fold_left
               (fun links selector =>
                  collect_links links (hrefs page selector))
               selectors links)
       <-> In x links
           \/ exists selector,
                In selector selectors
                /\ In (Some x) (hrefs page selector)
                /\ keeps_link (Some x) = true.
Proof.
  induction selectors as [|sel selectors IH]; intros links Hnd.
  - split; [exact Hnd|]. intros x. cbn. split; [auto|].
    intros [H|(s & [] & _)]. exact H.
  - cbn [fold_left].
    destruct (collect_links_spec (hrefs page sel) links Hnd) as [H1 H2].
    destruct (IH _ H1) as [H3 H4]. split; [exact H3|].
    intros x. rewrite H4, H2. cbn [In]. split.
    + intros [[H|[H H']]|(s & Hs & H & H')]; auto.
      * right. exists sel. auto.
      * right. exists s. auto.
    + intros [H|(s & [<-|Hs] & H & H')]; auto.
      right. exists s. auto.
Qed.

(** X27 [getArticleLinks]: the links returned are pairwise different,
    and they are exactly the non-empty [href] values, found in the page
    that [fetchWithRetry] returned under one of the five selectors,
    that contain ["detik.com"] and no ["#"]. When the page could not
    be fetched or parsed there is no link, and nothing else is
    requested: the network and the events are those of
    [fetchWithRetry(url)] with three tries. *)
Theorem getArticleLinks_links (url : jsstring) (st : Net * list Event) :
  NoDup (fst (getArticleLinks get load hrefs url st))
  /\ snd (getArticleLinks get load hrefs url st)
     = snd (fetchWithRetry get url 3 st)
  /\ forall l,
       In l (fst (getArticleLinks get load hrefs url st))
       <-> exists response page selector,
             fst (fetchWithRetry get url 3 st) = inr (Some response)
             /\ load (data response) = inr page
             /\ In selector ARTICLE_SELECTORS
             /\ In (Some l) (hrefs page selector)
             /\ l <> []
             /\ includes l (str "detik.com") = true
             /\ includes l (str "#") = false.
Proof.
  assert (Hk : forall l, keeps_link (Some l) = true
                         <-> l <> [] /\ includes l (str "detik.com") = true
                             /\ includes l (str "#") = false).
  { intros l. unfold keeps_link. rewrite !andb_true_iff, negb_true_iff.
    destruct l; cbn [truthy]; split.
    - intros [[H _] _]. discriminate.
    - intros [H _]. contradiction.
    - intros [[_ H1] H2]. split; [discriminate|]. split; assumption.
    - intros (_ & H1 & H2). split; [split; [reflexivity|exact H1]|exact H2]. }
  unfold getArticleLinks.
  destruct (fetchWithRetry get url 3 st) as [[error|[response|]] st'].
  - cbn [fst snd]. split; [constructor|]. split; [reflexivity|].
    intros l. split; [intros []|]. intros (r & p & s & H & _). discriminate.
  - destruct (load (data response)) as [error|page] eqn:Hload.
    + cbn [fst snd]. split; [constructor|]. split; [reflexivity|].
      intros l. split; [intros []|].
      intros (r & p & s & Hr & Hp & _). injection Hr as <-. congruence.
    + cbn [fst snd].
      destruct (collect_selectors_spec page ARTICLE_SELECTORS []
                  NoDup_nil_2) as [H1 H2].
      split; [exact H1|]. split; [reflexivity|].
      intros l. rewrite H2. split.
      * intros [[]|(s & Hs & Hin & Hkeep)].
        exists response, page, s. apply Hk in Hkeep. tauto.
      * intros (r & p & s & Hr & Hp & Hs & Hin & Hrest).
        injection Hr as <-. rewrite Hload in Hp. injection Hp as <-.
        right. exists s. split; [exact Hs|]. split; [exact Hin|].
        apply Hk. exact Hrest.
  - cbn [fst snd]. split; [constructor|]. split; [reflexivity|].
    intros l. split; [intros []|]. intros (r & p & s & H & _). discriminate.
Qed.
End LinkFacts.

Lemma extractArticles_crawl_report_witness :
  extractArticles
    (crawl_report (str "https://www.detik.com/")
       (str "2025-01-10T14:03:05.601Z")
       [ {| title := str "Banjir Jakarta";
            link := str "https://news.detik.com/a";
            content := str "Hujan deras. Air naik." |} ])
  = [ str "Page URL: https://www.detik.com/ Total Articles Found: 1 Crawled at: 2025-01-10T14:03:05.601Z";
      str "Title: Banjir Jakarta Link: https://news.detik.com/a Content: Hujan deras. Air naik." ].
Proof.
  refine (eq_trans
            (extractArticles_crawl_report
               (str "https://www.detik.com/")
               (str "2025-01-10T14:03:05.601Z")
               [ {| title := str "Banjir Jakarta";
                    link := str "https://news.detik.com/a";
                    content := str "Hujan deras. Air naik." |} ] _ _ _) _).
  - literal_one_line.
  - literal_one_line.
  - constructor; [|constructor]. cbn [title link content].
    split; [literal_one_line|]. split; literal_one_line.
  - vm_compute. reflexivity.
Defined.
